(** * SmartDietAgent: a shallow embedding of the inference-and-ranking core

    The development follows the two Python modules of the repository:
    [knowledge_base.py] (rule catalog, priority table, overlay merge, food
    catalog loader) and [agent.py] (BMI utilities, inference with
    explanations, ranking, food recommendation).

    Conventions of the embedding.
    - A Python [str] is a [string]: the bytes of its UTF-8 encoding.  Python
      orders strings by code point, which on UTF-8 text is the byte-wise
      lexicographic order [String.leb].  Case folding, whitespace and the
      regular-expression character classes are the ASCII ones.
    - A Python [float] is a primitive binary64 [float]; arithmetic and
      comparisons are the IEEE-754 ones, as in CPython.
    - A Python [int] is a [Z].
    - A [dict] is a [gmap]; a [set] is a [gset]; a [list] is a [list].
    - A call that may raise returns a [res]; [try ... except Exception] is
      [try_except]. *)

From Stdlib Require Import ZArith Floats Ascii String List Permutation Lia.
From stdpp Require Import gmap strings list sorting.

Set Warnings "-inexact-float,-clear-no-such-hyp".
Local Open Scope Z_scope.

(* ================================================================== *)
(** * Python values, exceptions and builtins                            *)
(* ================================================================== *)

Module Py.

(** ** Exceptions *)

Inductive exn : Type :=
| TypeError
| ValueError
| ZeroDivisionError
| OverflowError
| OSError.

Inductive res (A : Type) : Type :=
| Ok (a : A)
| Raise (e : exn).
Arguments Ok {A} a.
Arguments Raise {A} e.

Definition bind {A B : Type} (m : res A) (k : A → res B) : res B :=
  match m with
  | Ok a => k a
  | Raise e => Raise e
  end.

Global Instance res_ret : MRet res := @Ok.
Global Instance res_bind : MBind res := λ A B k m, bind m k.

(** [try: body except Exception: handler] *)
Definition try_except {A : Type} (body : res A) (handler : exn → res A) : res A :=
  match body with
  | Ok a => Ok a
  | Raise e => handler e
  end.

(** ** Values stored in a user profile *)

Inductive value : Type :=
| PyNone
| PyInt (z : Z)
| PyFloat (f : float)
| PyStr (s : string).

(** Truth value testing: [None], [0], [0.0], [-0.0] and [""] are false. *)
Definition truthy (v : value) : bool :=
  match v with
  | PyNone => false
  | PyInt z => negb (z =? 0)
  | PyFloat f => negb (PrimFloat.eqb f 0%float)
  | PyStr s => negb (String.eqb s "")
  end.

(** [v == s] for a string literal [s]. *)
Definition eq_str (v : value) (s : string) : bool :=
  match v with
  | PyStr t => String.eqb t s
  | _ => false
  end.

(** [d.get(k)] and [d.get(k, dflt)] *)
Definition get (d : gmap string value) (k : string) : value :=
  default PyNone (d !! k).
Definition get_or (d : gmap string value) (k : string) (dflt : value) : value :=
  default dflt (d !! k).

(** [x or y] *)
Definition or_else (x y : value) : value := if truthy x then x else y.

(** ** Sorting: [sorted] is stable, so it is the stable insertion sort *)

Section Sorted.
Context {A : Type} (leb : A → A → bool).

Fixpoint insert_sorted (x : A) (l : list A) : list A :=
  match l with
  | [] => [x]
  | y :: l' => if leb x y then x :: y :: l' else y :: insert_sorted x l'
  end.

Definition sorted (l : list A) : list A := foldr insert_sorted [] l.
End Sorted.

(** [sorted(l)] on strings, and [sorted(l, key=...)] with keys that are
    pairs of an integer and a string (tuples compare lexicographically). *)
Definition str_leb (s t : string) : bool := String.leb s t.

Definition tuple_leb (a b : Z * string) : bool :=
  (a.1 <? b.1) || ((a.1 =? b.1) && str_leb a.2 b.2).

Definition sorted_str (l : list string) : list string := sorted str_leb l.

Definition sorted_by_key {A : Type} (key : A → Z * string) (l : list A) : list A :=
  sorted (λ x y, tuple_leb (key x) (key y)) l.

(** [sorted(set(l))]: the set forgets order and repetitions. *)
Definition sorted_set (s : gset string) : list string := sorted_str (elements s).

(** [l[:k]] for an integer [k]: a negative [k] counts from the end. *)
Definition slice_to {A : Type} (l : list A) (k : Z) : list A :=
  if 0 <=? k then take (Z.to_nat k) l
  else take (length l - Z.to_nat (- k))%nat l.

(** [max(xs, default=d)] *)
Definition max_default (d : Z) (xs : list Z) : Z :=
  match xs with
  | [] => d
  | x :: xs' => foldl Z.max x xs'
  end.

(** ** Characters and strings *)

Definition code (c : ascii) : N := N_of_ascii c.

Definition is_digit (c : ascii) : bool :=
  (48 <=? code c)%N && (code c <=? 57)%N.

(** [str.isspace] on one character, also the class [\s]. *)
Definition is_space (c : ascii) : bool :=
  ((9 <=? code c)%N && (code c <=? 13)%N)
  || ((28 <=? code c)%N && (code c <=? 32)%N).

Definition is_upper (c : ascii) : bool :=
  (65 <=? code c)%N && (code c <=? 90)%N.

Definition is_lower (c : ascii) : bool :=
  (97 <=? code c)%N && (code c <=? 122)%N.

(** The class [\w]: letters, digits, underscore; bytes of a non-ASCII
    character count as letters. *)
Definition is_word (c : ascii) : bool :=
  is_digit c || is_upper c || is_lower c || (code c =? 95)%N || (128 <=? code c)%N.

Definition lower_char (c : ascii) : ascii :=
  if is_upper c then ascii_of_N (code c + 32) else c.

Definition chars (s : string) : list ascii := list_ascii_of_string s.
Definition of_chars (l : list ascii) : string := string_of_list_ascii l.

(** [s.lower()], on ASCII text: the bytes of other characters are left
    as they are. *)
Definition lower (s : string) : string := of_chars (map lower_char (chars s)).

Fixpoint lstrip_chars (l : list ascii) : list ascii :=
  match l with
  | c :: l' => if is_space c then lstrip_chars l' else l
  | [] => []
  end.

(** [s.strip()], on ASCII text: the blanks are those of [is_space]. *)
Definition strip (s : string) : string :=
  of_chars (rev (lstrip_chars (rev (lstrip_chars (chars s))))).

(** [p] is a prefix of [l], letters compared without case. *)
Fixpoint prefix_ci (p l : list ascii) : bool :=
  match p, l with
  | [], _ => true
  | _ :: _, [] => false
  | a :: p', b :: l' =>
      Ascii.eqb (lower_char a) (lower_char b) && prefix_ci p' l'
  end.

(** Some suffix of [l] starts with [p], without case. *)
Fixpoint contains_ci (p l : list ascii) : bool :=
  prefix_ci p l ||
  match l with
  | [] => false
  | _ :: l' => contains_ci p l'
  end.

End Py.

Import Py.

(* ================================================================== *)
(** * Floating-point builtins                                          *)
(* ================================================================== *)

Module PyFloats.

(** [float(n)] for an integer: correctly rounded, [OverflowError] when
    the integer is too large for a double. *)
Definition int_to_float (z : Z) : res float :=
  match binary_normalize prec emax z 0 false with
  | S754_infinity _ => Raise OverflowError
  | sf => Ok (SF2Prim sf)
  end.

Section Conversions.
(** [float(s)] for text is the interpreter's parser; [None] stands for
    [ValueError]. *)
Variable float_of_str : string → option float.

(** [float(v)] *)
Definition to_float (v : value) : res float :=
  match v with
  | PyNone => Raise TypeError
  | PyInt z => int_to_float z
  | PyFloat f => Ok f
  | PyStr s =>
      match float_of_str s with
      | Some f => Ok f
      | None => Raise ValueError
      end
  end.
End Conversions.

(** [a / b] on floats *)
Definition true_div (a b : float) : res float :=
  if PrimFloat.eqb b 0%float then Raise ZeroDivisionError
  else Ok (a / b)%float.

(** Round half to even of the fraction [n / d], [d > 0]. *)
Definition round_half_even (n d : Z) : Z :=
  let q := n / d in
  let r := n mod d in
  match 2 * r ?= d with
  | Lt => q
  | Gt => q + 1
  | Eq => if Z.even q then q else q + 1
  end.

(** [round(x, 1)]: the exact value of [x] is rounded to one decimal,
    ties to even, and the decimal is converted back to the nearest
    double; the sign is kept; infinities and nan are returned as they
    are. *)
Definition round1_spec (x : spec_float) : spec_float :=
  match x with
  | S754_finite s m e =>
      if 0 <=? e then x
      else
        match round_half_even (10 * Z.pos m) (2 ^ (- e)) with
        | Z.pos n => SFdiv prec emax (S754_finite s n 0) (S754_finite false 10 0)
        | _ => S754_zero s
        end
  | _ => x
  end.

Definition round1 (x : float) : float := SF2Prim (round1_spec (Prim2SF x)).

End PyFloats.

Import PyFloats.

(* ================================================================== *)
(** * knowledge_base.py                                                *)
(* ================================================================== *)

Module KnowledgeBase.

(** The rule catalog at import time. *)
Definition rules : gmap string (list string) :=
  list_to_map
    [ ("Diabetic",
       [ "Avoid sugar"; "Include whole grains"; "Eat more vegetables";
         "Prefer low-glycemic index foods";
         "Distribute carbs evenly across meals" ]);
      ("Underweight",
       [ "High protein diet"; "Frequent meals"; "Include nuts and seeds";
         "Add calorie-dense healthy fats (olive oil, nut butters)" ]);
      ("Overweight",
       [ "Low-calorie diet"; "Exercise regularly"; "Avoid fried foods";
         "Prefer high-fiber, low-calorie density foods";
         "Limit sugary beverages" ]);
      ("Vegetarian",
       [ "Avoid meat"; "Include pulses and legumes"; "Eat more vegetables";
         "Ensure B12 sources (fortified foods or supplements)" ]);
      ("NonVegetarian",
       [ "Prefer lean meats (chicken, turkey)"; "Include fish rich in omega-3";
         "Limit processed meats";
         "Balance plate with vegetables and whole grains" ]);
      ("Hypertension",
       [ "Low salt diet"; "Avoid processed food";
         "Include fruits and vegetables"; "Prefer DASH-style diet";
         "Limit alcohol" ]);
      ("Normal",
       [ "Balanced diet"; "Include fruits, vegetables, proteins, and carbs";
         "Stay hydrated" ]);
      ("Anemia",
       [ "Increase iron-rich foods"; "Include vitamin C for iron absorption";
         "Consider leafy greens";
         "Prefer heme iron sources if non-vegetarian" ]);
      ("HighCholesterol",
       [ "Prefer unsaturated fats"; "Increase soluble fiber"; "Limit red meat";
         "Avoid trans fats"; "Include plant sterols/stanols" ]);
      ("KidneyFriendly",
       [ "Control protein intake"; "Limit sodium";
         "Monitor potassium and phosphorus";
         "Stay within fluid limits if prescribed" ]) ].

Definition CATEGORY_PRIORITY : gmap string Z :=
  list_to_map
    [ ("Diabetic", 100); ("Hypertension", 95); ("HighCholesterol", 90);
      ("KidneyFriendly", 85); ("Overweight", 80); ("Underweight", 80);
      ("Anemia", 75); ("Vegetarian", 60); ("NonVegetarian", 60);
      ("Normal", 50) ].

(** ** Files as the loaders see them *)

(** A value in a list of the overlay document: a string, a finite number,
    null, or a value that cannot be hashed (a list or an object).  A number
    is its value: Python's sets and dictionaries take numbers that are equal
    ([1], [1.0], [True]) for one value, and [True] and [False] are the
    numbers 1 and 0. *)
Inductive json_elem : Type :=
| JStr (s : string)
| JNum (q : Qcanon.Qc)
| JNull
| JUnhashable.

Global Instance json_elem_eq_dec : EqDecision json_elem.
Proof. solve_decision. Defined.

Global Instance json_elem_countable : Countable json_elem.
Proof.
  refine (inj_countable'
            (λ e, match e with
                  | JStr s => inl s
                  | JNum q => inr (inl q)
                  | JNull => inr (inr true)
                  | JUnhashable => inr (inr false)
                  end)
            (λ x, match x with
                  | inl s => JStr s
                  | inr (inl q) => JNum q
                  | inr (inr true) => JNull
                  | inr (inr false) => JUnhashable
                  end) _).
  by intros [].
Defined.

(** An integer of the document. *)
Definition json_int (z : Z) : json_elem :=
  JNum (Qcanon.Q2Qc (QArith_base.inject_Z z)).

(** A value of the overlay document: a list, or anything else. *)
Inductive json_value : Type :=
| JList (values : list json_elem)
| JNotList.

(** What [json.load] returned: an object (its items in order), or
    anything else. *)
Inductive json_doc : Type :=
| JObject (items : list (string * json_value))
| JNotObject.

(** A row of [csv.DictReader]: header name to cell text. *)
Definition csv_row : Type := gmap string string.

(** The file system.  A path is missing ([None]) or exists; opening and
    parsing an existing file gives a result or raises; reading the rows
    of a table may raise at any row. *)
Record world : Type := {
  json_files : string → option (res json_doc);
  csv_files : string → option (res (list (res csv_row)))
}.

(** ** load_additional_rules *)

(** Values can be hashed, except lists and objects. *)
Definition hashable (e : json_elem) : bool :=
  match e with
  | JUnhashable => false
  | _ => true
  end.

(** [set(l)] and the argument of [union]: [TypeError] for a value that
    cannot be hashed. *)
Definition to_set (l : list json_elem) : res (gset json_elem) :=
  if forallb hashable l then Ok (list_to_set l) else Raise TypeError.

(** The kinds of values that can be compared with one another: strings
    with strings, numbers with numbers. *)
Definition elem_class (e : json_elem) : nat :=
  match e with
  | JStr _ => 0
  | JNum _ => 1
  | JNull => 2
  | JUnhashable => 3
  end.

(** [a <= b] on values of one kind; across kinds the order of the kinds,
    which [sorted_elems] never consults. *)
Definition elem_leb (a b : json_elem) : bool :=
  match a, b with
  | JStr s, JStr t => str_leb s t
  | JNum p, JNum q => bool_decide (Qcanon.Qcle p q)
  | _, _ => (elem_class a <=? elem_class b)%nat
  end.

(** All values are of one kind. *)
Definition orderable (l : list json_elem) : bool :=
  match l with
  | [] => true
  | e :: l' => forallb (λ e', (elem_class e' =? elem_class e)%nat) l'
  end.

(** [sorted(s)] for a set: [TypeError] when two values of different kinds
    meet. *)
Definition sorted_elems (s : gset json_elem) : res (list json_elem) :=
  if orderable (elements s) then Ok (sorted elem_leb (elements s))
  else Raise TypeError.

(** One turn of the loop over [data.items()]. *)
Definition merge_item (rules : gmap string (list json_elem))
    (item : string * json_value) : res (gmap string (list json_elem)) :=
  match item.2 with
  | JNotList => Ok rules
  | JList values =>
      existing ← to_set (default [] (rules !! item.1));
      new ← to_set values;
      merged ← sorted_elems (existing ∪ new);
      Ok (<[item.1 := merged]> rules)
  end.

(** The loop.  The module-level [rules] is changed in place: when a turn
    raises, the catalog is the one the turns before it have left. *)
Fixpoint merge_items (rules : gmap string (list json_elem))
    (items : list (string * json_value))
    : gmap string (list json_elem) * res unit :=
  match items with
  | [] => (rules, Ok ())
  | item :: rest =>
      match merge_item rules item with
      | Ok rules' => merge_items rules' rest
      | Raise e => (rules, Raise e)
      end
  end.

(** The result is the catalog after the call. *)
Definition load_additional_rules (w : world) (json_path : option string)
    (rules : gmap string (list json_elem)) : res (gmap string (list json_elem)) :=
  match json_path with
  | None => Ok rules
  | Some path =>
      if String.eqb path "" then Ok rules
      else
        let '(rules', outcome) :=
          match json_files w path with
          | None => (rules, Ok ())
          | Some (Raise e) => (rules, Raise e)
          | Some (Ok (JObject items)) => merge_items rules items
          | Some (Ok JNotObject) => (rules, Ok ())
          end in
        try_except (_ ← outcome; Ok rules') (λ _, Ok rules')
  end.

(** The catalog of strings, as a catalog of values. *)
Definition raw_catalog (rules : gmap string (list string))
    : gmap string (list json_elem) :=
  (λ l : list string, JStr <$> l) <$> rules.

(** ** load_foods_csv *)

(** A record of the food catalog.  [name] and [weight_goal] are [None]
    when the record has no such key; the loader sets both. *)
Record food : Type := {
  name : option string;
  vegetarian : bool;
  diabetic_friendly : bool;
  hypertension_friendly : bool;
  weight_goal : option string
}.

(** [str(val)] of a cell: a missing cell is [None]. *)
Definition cell_str (val : option string) : string := default "None" val.

Definition to_bool (val : option string) : bool :=
  bool_decide (lower (strip (cell_str val)) ∈ ["1"; "true"; "yes"; "y"]).

Definition food_of_row (row : csv_row) : food :=
  {| name := Some (strip (default "" (row !! "name")));
     vegetarian := to_bool (row !! "vegetarian");
     diabetic_friendly := to_bool (row !! "diabetic_friendly");
     hypertension_friendly := to_bool (row !! "hypertension_friendly");
     weight_goal := Some (lower (strip (default "" (row !! "weight_goal")))) |}.

(** The loop over the reader. *)
Fixpoint read_rows (rows : list (res csv_row)) (foods : list food)
    : res (list food) :=
  match rows with
  | [] => Ok foods
  | Raise e :: _ => Raise e
  | Ok row :: rest =>
      if decide (row = ∅) then read_rows rest foods
      else read_rows rest (foods ++ [food_of_row row])
  end.

Definition load_foods_csv (w : world) (csv_path : option string)
    : res (list food) :=
  match csv_path with
  | None => Ok []
  | Some path =>
      if String.eqb path "" then Ok []
      else
        match csv_files w path with
        | None => Ok []
        | Some opened =>
            try_except (rows ← opened; read_rows rows []) (λ _, Ok [])
        end
  end.

End KnowledgeBase.

Import KnowledgeBase.

(* ================================================================== *)
(** * agent.py                                                         *)
(* ================================================================== *)

Module Agent.

(** The instance: [self.user_profile] and [self.foods_dataset]. *)
Record state : Type := {
  user_profile : gmap string value;
  foods_dataset : option (list food)
}.

Section WithParser.
Variable float_of_str : string → option float.

(** ** BMI utilities *)

Definition compute_bmi (weight_kg height_cm : value) : res (option float) :=
  try_except
    (h ← to_float float_of_str height_cm;
     let h_m := (h / 100)%float in
     w ← to_float float_of_str weight_kg;
     if (h_m <=? 0)%float || (w <=? 0)%float then Ok None
     else
       q ← true_div w (h_m * h_m)%float;
       Ok (Some (round1 q)))
    (λ _, Ok None).

Definition infer_weight_status_from_bmi (bmi : option float) : option string :=
  match bmi with
  | None => None
  | Some b =>
      if (b <? 18.5)%float then Some "Underweight"
      else if (b <? 25)%float then Some "Normal"
      else Some "Overweight"
  end.

(** ** infer_diet_with_explanations *)

(** The value stored for a computed BMI. *)
Definition of_bmi (bmi : option float) : value :=
  match bmi with
  | Some b => PyFloat b
  | None => PyNone
  end.

(** The BMI back-fill: the local [weight_status] and the profile after
    the block under [if not weight_status]. *)
Definition backfill_weight_status (profile : gmap string value)
    (weight_status : value) : res (value * gmap string value) :=
  if truthy weight_status then Ok (weight_status, profile)
  else
    let weight := get profile "weight_kg" in
    let height := get profile "height_cm" in
    bmi ← (if truthy weight && truthy height then compute_bmi weight height
           else Ok None);
    match infer_weight_status_from_bmi bmi with
    | Some inferred =>
        Ok (PyStr inferred,
            <["bmi" := of_bmi bmi]> (<["weight_status" := PyStr inferred]> profile))
    | None => Ok (weight_status, profile)
    end.

(** The body of [for s in rules[cat]]. *)
Definition add_source (cat : string)
    (acc : list string * gmap string (gset string)) (s : string)
    : list string * gmap string (gset string) :=
  (acc.1 ++ [s], <[s := default ∅ (acc.2 !! s) ∪ {[cat]}]> acc.2).

(** [if v in rules: for s in rules[v]: ...] *)
Definition apply_rules (rules : gmap string (list string)) (v : value)
    (acc : list string * gmap string (gset string))
    : list string * gmap string (gset string) :=
  match v with
  | PyStr cat =>
      match rules !! cat with
      | Some l => foldl (add_source cat) acc l
      | None => acc
      end
  | _ => acc
  end.

(** The dict comprehension that builds [explanations]. *)
Definition explain (source_map : gmap string (gset string))
    (suggestions : list string) : gmap string (list string) :=
  foldl (λ m s, <[s := sorted_set (default ∅ (source_map !! s))]> m) ∅ suggestions.

(** The result carries the profile after the call next to the returned
    pair [(suggestions, explanations)]. *)
Definition infer_diet_with_explanations (rules : gmap string (list string))
    (profile : gmap string value)
    : res (gmap string value * (list string * gmap string (list string))) :=
  let condition := get_or profile "health_condition" (PyStr "Normal") in
  let weight_status := get profile "weight_status" in
  let diet_pref := get profile "diet_preference" in
  '(weight_status, profile') ← backfill_weight_status profile weight_status;
  let acc := apply_rules rules condition ([], ∅) in
  let acc := apply_rules rules weight_status acc in
  let acc := apply_rules rules diet_pref acc in
  let suggestions := sorted_set (list_to_set acc.1) in
  let explanations := explain acc.2 suggestions in
  Ok (profile', (suggestions, explanations)).

(** ** infer_diet *)

(** [if v in rules: suggestions.extend(rules[v])] *)
Definition extend_rules (rules : gmap string (list string)) (v : value)
    (suggestions : list string) : list string :=
  match v with
  | PyStr cat =>
      match rules !! cat with
      | Some l => suggestions ++ l
      | None => suggestions
      end
  | _ => suggestions
  end.

(** The result carries the profile after the call next to the returned
    list. *)
Definition infer_diet (rules : gmap string (list string))
    (profile : gmap string value) : res (gmap string value * list string) :=
  let condition := get_or profile "health_condition" (PyStr "Normal") in
  let weight_status := get profile "weight_status" in
  let diet_pref := get profile "diet_preference" in
  '(weight_status, profile') ← backfill_weight_status profile weight_status;
  let suggestions := extend_rules rules condition [] in
  let suggestions := extend_rules rules weight_status suggestions in
  let suggestions := extend_rules rules diet_pref suggestions in
  Ok (profile', sorted_set (list_to_set suggestions)).

(** ** rank_suggestions *)

Definition rank_score (explanations : gmap string (list string)) (s : string) : Z :=
  let cats := default [] (explanations !! s) in
  max_default 0 (map (λ c, default 0 (CATEGORY_PRIORITY !! c)) cats).

Definition rank_suggestions (suggestions : list string)
    (explanations : gmap string (list string)) (limit : option Z) : list string :=
  let ranked := sorted_by_key (λ s, (- rank_score explanations s, s)) suggestions in
  match limit with
  | Some k => slice_to ranked k
  | None => ranked
  end.

(** ** recommend_foods *)

Definition foods_csv_path : string := "data/foods.csv".

(** [_get_foods_dataset]: loads the catalog once and caches it. *)
Definition get_foods_dataset (w : world) (self : state) : res (state * list food) :=
  self' ← match foods_dataset self with
          | None =>
              loaded ← load_foods_csv w (Some foods_csv_path);
              Ok {| user_profile := user_profile self;
                    foods_dataset := Some loaded |}
          | Some _ => Ok self
          end;
  Ok (self', default [] (foods_dataset self')).

Definition staple_keywords : list string :=
  [ "idli"; "dosa"; "upma"; "poha"; "ragi"; "roti"; "chapati"; "paratha";
    "bajra"; "jowar"; "khichdi"; "dal"; "rajma"; "chole"; "curd"; "yogurt";
    "sambar"; "rasam"; "paneer"; "palak"; "bhindi"; "baingan"; "sprout";
    "oats"; "brown rice"; "millet"; "quinoa"; "salad"; "soup";
    "grilled chicken"; "tandoori"; "fish"; "egg"; "lentil"; "lentils";
    "whole wheat"; "wholegrain"; "bread"; "bagel" ].

(** [staple_regex.search(name)]: some keyword occurs in [name], without
    case. *)
Definition staple_regex (name : string) : bool :=
  existsb (λ k, contains_ci (chars k) (chars name)) staple_keywords.

Definition barcode_char (c : ascii) : bool :=
  is_digit c || is_space c || Ascii.eqb c "-" || Ascii.eqb c "(" || Ascii.eqb c ")".

(** [barcode_like.match(name)] for [^[0-9\s\-()]+$]. *)
Definition barcode_like (name : string) : bool :=
  match chars name with
  | [] => false
  | cs => forallb barcode_char cs
  end.

Definition size_units : list string := [ "ml"; "l"; "cl"; "g"; "kg" ].

(** The closing [\b] after a unit: end of text or a non-word
    character. *)
Definition at_word_end (l : list ascii) : bool :=
  match l with
  | [] => true
  | c :: _ => negb (is_word c)
  end.

(** [(ml|l|cl|g|kg)\b] at the head of [l]. *)
Definition unit_here (l : list ascii) : bool :=
  existsb (λ u, prefix_ci (chars u) l && at_word_end (drop (length (chars u)) l))
          size_units.

Fixpoint skip_digits (l : list ascii) : list ascii :=
  match l with
  | c :: l' => if is_digit c then skip_digits l' else l
  | [] => []
  end.

(** [\d+\s?(ml|l|cl|g|kg)\b] at the head of [l]. *)
Definition size_like_here (l : list ascii) : bool :=
  match l with
  | c :: l' =>
      is_digit c &&
      (let rest := skip_digits l' in
       unit_here rest ||
       match rest with
       | sp :: rest' => is_space sp && unit_here rest'
       | [] => false
       end)
  | [] => false
  end.

(** The search tries every position; the opening [\b] asks that the
    character before is not a word character. *)
Fixpoint size_like_scan (prev_word : bool) (l : list ascii) : bool :=
  match l with
  | [] => false
  | c :: l' =>
      (negb prev_word && size_like_here l) || size_like_scan (is_word c) l'
  end.

(** [size_like.search(name)] *)
Definition size_like (name : string) : bool := size_like_scan false (chars name).

Definition goal_of (weight_status : value) : string :=
  if eq_str weight_status "Overweight" then "loss"
  else if eq_str weight_status "Underweight" then "gain"
  else "maintain".

Definition bonus (b : bool) (n : Z) : Z := if b then n else 0.

(** The nested [score(food)], with the values it closes over. *)
Definition score (condition diet_pref : value) (goal : string) (f : food) : Z :=
  let name := strip (default "" (name f)) in
  0
  + bonus (eq_str diet_pref "Vegetarian" && vegetarian f) 2
  + bonus (eq_str condition "Diabetic" && diabetic_friendly f) 3
  + bonus (eq_str condition "Hypertension" && hypertension_friendly f) 3
  + bonus (negb (String.eqb goal "") && bool_decide (weight_goal f = Some goal)) 2
  + bonus (staple_regex name) 3
  - bonus (barcode_like name) 5
  - bonus (size_like name) 2.

(** The final loop: drop empty names and repeats (without case), stop
    when [max_items] names are in [result]. *)
Fixpoint dedupe (max_items : Z) (names : list (option string))
    (seen : gset string) (result : list string) : list string :=
  match names with
  | [] => result
  | None :: rest => dedupe max_items rest seen result
  | Some n :: rest =>
      if String.eqb n "" then dedupe max_items rest seen result
      else
        let ln := lower n in
        if bool_decide (ln ∈ seen) then dedupe max_items rest seen result
        else
          let result' := result ++ [n] in
          if max_items <=? Z.of_nat (length result') then result'
          else dedupe max_items rest ({[ln]} ∪ seen) result'
  end.

(** [recommend_foods] once the catalog is at hand. *)
Definition recommend_from (profile : gmap string value) (foods : list food)
    (max_items : Z) : list string :=
  match foods with
  | [] => []
  | _ =>
      let condition := or_else (get profile "health_condition") (PyStr "Normal") in
      let diet_pref := or_else (get profile "diet_preference") (PyStr "Normal") in
      let weight_status := get profile "weight_status" in
      let goal := goal_of weight_status in
      let score := score condition diet_pref goal in
      let ranked := sorted_by_key (λ f, (- score f, default "" (name f))) foods in
      let names := map name (filter (λ f, 0 < score f) ranked) in
      let names := match names with [] => map name ranked | _ => names end in
      dedupe max_items names ∅ []
  end.

Definition recommend_foods (w : world) (self : state) (max_items : Z)
    : res (state * list string) :=
  '(self', foods) ← get_foods_dataset w self;
  Ok (self', recommend_from (user_profile self') foods max_items).

End WithParser.

End Agent.

Import Agent.

(* ================================================================== *)
(** * Facts about the builtins                                         *)
(* ================================================================== *)

(** ** [sorted] *)

Section SortedFacts.
Context {A : Type} (leb : A → A → bool).

Definition le_of : relation A := λ x y, leb x y = true.

Hypothesis leb_total : ∀ x y, leb x y = true ∨ leb y x = true.
Hypothesis leb_trans : ∀ x y z, leb x y = true → leb y z = true → leb x z = true.

Lemma sorted_cons x l : sorted leb (x :: l) = insert_sorted leb x (sorted leb l).
Proof. reflexivity. Qed.

Lemma insert_sorted_perm x l : insert_sorted leb x l ≡ₚ x :: l.
Proof.
  induction l as [|y l IH]; simpl; [done|].
  destruct (leb x y); [done|].
  rewrite IH. apply Permutation_swap.
Qed.

Lemma sorted_perm l : sorted leb l ≡ₚ l.
Proof.
  induction l as [|x l IH]; [done|].
  by rewrite sorted_cons, insert_sorted_perm, IH.
Qed.

Lemma elem_of_sorted x l : x ∈ sorted leb l ↔ x ∈ l.
Proof. by rewrite sorted_perm. Qed.

Lemma length_sorted l : length (sorted leb l) = length l.
Proof. by rewrite sorted_perm. Qed.

Lemma NoDup_sorted l : NoDup l → NoDup (sorted leb l).
Proof. by rewrite sorted_perm. Qed.

Lemma insert_sorted_strongly x l :
  StronglySorted le_of l → StronglySorted le_of (insert_sorted leb x l).
Proof using leb_total leb_trans.
  induction l as [|y l IH]; intros Hs; simpl.
  - repeat constructor.
  - apply StronglySorted_inv in Hs as [Hl Hy].
    destruct (leb x y) eqn:Hxy.
    + constructor; [by constructor|].
      constructor; [done|].
      eapply Forall_impl; [exact Hy|]. intros z Hz. by eapply leb_trans.
    + constructor; [by apply IH|].
      rewrite insert_sorted_perm. constructor; [|done].
      destruct (leb_total x y) as [E|E]; [congruence|done].
Qed.

Lemma sorted_strongly l : StronglySorted le_of (sorted leb l).
Proof using leb_total leb_trans.
  induction l as [|x l IH]; [constructor|].
  rewrite sorted_cons. by apply insert_sorted_strongly.
Qed.

(** Sorting a list that is in order already changes nothing. *)
Lemma insert_sorted_head x l :
  Forall (le_of x) l → insert_sorted leb x l = x :: l.
Proof.
  destruct l as [|y l]; simpl; [done|].
  intros [Hxy _]%Forall_cons. unfold le_of in Hxy. by rewrite Hxy.
Qed.

Lemma sorted_id l : StronglySorted le_of l → sorted leb l = l.
Proof.
  induction 1 as [|x l Hl IH Hx]; [done|].
  rewrite sorted_cons, IH. by apply insert_sorted_head.
Qed.

Lemma sorted_idemp l : sorted leb (sorted leb l) = sorted leb l.
Proof using leb_total leb_trans. apply sorted_id, sorted_strongly. Qed.

(** The order being antisymmetric, a list has one sorted arrangement. *)
Lemma sorted_unique l l' :
  (∀ x y, leb x y = true → leb y x = true → x = y) →
  l' ≡ₚ l → StronglySorted le_of l' → l' = sorted leb l.
Proof using leb_total leb_trans.
  intros Hanti Hp Hs.
  assert (AntiSymm (=) le_of) by (intros x y; apply Hanti).
  apply (StronglySorted_unique le_of); [done|apply sorted_strongly|].
  by rewrite sorted_perm.
Qed.

Lemma sorted_perm_eq l l' :
  (∀ x y, leb x y = true → leb y x = true → x = y) →
  l ≡ₚ l' → sorted leb l = sorted leb l'.
Proof using leb_total leb_trans.
  intros Hanti Hp. apply sorted_unique; [done| |apply sorted_strongly].
  by rewrite sorted_perm.
Qed.
End SortedFacts.

(** ** The order on strings and on keys *)

Lemma str_leb_total s t : str_leb s t = true ∨ str_leb t s = true.
Proof. apply String.leb_total. Qed.

Lemma str_leb_refl s : str_leb s s = true.
Proof. destruct (str_leb_total s s); done. Qed.

Lemma str_leb_trans s t u :
  str_leb s t = true → str_leb t u = true → str_leb s u = true.
Proof.
  intros H1 H2. apply Is_true_true.
  apply Is_true_true in H1, H2.
  exact (transitivity (R := String.le) H1 H2).
Qed.

Lemma str_leb_antisym s t : str_leb s t = true → str_leb t s = true → s = t.
Proof. apply String.leb_antisym. Qed.

Lemma tuple_leb_total a b : tuple_leb a b = true ∨ tuple_leb b a = true.
Proof.
  unfold tuple_leb. destruct a as [x s], b as [y t]; simpl.
  destruct (Z.ltb_spec x y), (Z.ltb_spec y x), (Z.eqb_spec x y), (Z.eqb_spec y x);
    simpl; try lia; auto using str_leb_total.
Qed.

Lemma tuple_leb_trans a b c :
  tuple_leb a b = true → tuple_leb b c = true → tuple_leb a c = true.
Proof.
  unfold tuple_leb. destruct a as [x s], b as [y t], c as [z u]; simpl.
  destruct (Z.ltb_spec x y), (Z.ltb_spec y z), (Z.ltb_spec x z),
    (Z.eqb_spec x y), (Z.eqb_spec y z), (Z.eqb_spec x z); simpl; try lia; try done.
  apply str_leb_trans.
Qed.

Lemma tuple_leb_antisym a b :
  tuple_leb a b = true → tuple_leb b a = true → a = b.
Proof.
  unfold tuple_leb. destruct a as [x s], b as [y t]; simpl.
  destruct (Z.ltb_spec x y), (Z.ltb_spec y x), (Z.eqb_spec x y), (Z.eqb_spec y x);
    simpl; try lia; try done.
  intros H1 H2. f_equal; [done|]. by apply str_leb_antisym.
Qed.

(** ** [sorted(set(...))] *)

Lemma elem_of_sorted_set (s : gset string) x : x ∈ sorted_set s ↔ x ∈ s.
Proof. unfold sorted_set, sorted_str. by rewrite elem_of_sorted, elem_of_elements. Qed.

Lemma NoDup_sorted_set (s : gset string) : NoDup (sorted_set s).
Proof. apply NoDup_sorted, NoDup_elements. Qed.

Lemma sorted_set_strongly (s : gset string) :
  StronglySorted (le_of str_leb) (sorted_set s).
Proof. apply sorted_strongly; [apply str_leb_total|apply str_leb_trans]. Qed.

Lemma sorted_set_roundtrip (s : gset string) :
  list_to_set (sorted_set s) = s.
Proof. apply set_eq. intros x. by rewrite elem_of_list_to_set, elem_of_sorted_set. Qed.

Lemma sorted_set_nil (s : gset string) : sorted_set s = [] ↔ s = ∅.
Proof.
  split.
  - intros E. apply set_eq. intros x. rewrite <- elem_of_sorted_set, E.
    rewrite elem_of_nil. set_solver.
  - intros ->. unfold sorted_set. by rewrite elements_empty.
Qed.

(* ================================================================== *)
(** * The inference engine                                             *)
(* ================================================================== *)

(** The rule list a profile value selects, and the label it records. *)
Definition rule_list (rules : gmap string (list string)) (v : value) : list string :=
  match v with
  | PyStr cat => default [] (rules !! cat)
  | _ => []
  end.

Definition label (v : value) : gset string :=
  match v with
  | PyStr cat => {[cat]}
  | _ => ∅
  end.

Definition sources (acc : list string * gmap string (gset string)) (s : string)
    : gset string :=
  default ∅ (acc.2 !! s).

Lemma foldl_add_source cat l acc :
  (foldl (add_source cat) acc l).1 = acc.1 ++ l
  ∧ ∀ s, (foldl (add_source cat) acc l).2 !! s
         = if decide (s ∈ l) then Some (sources acc s ∪ {[cat]}) else acc.2 !! s.
Proof.
  revert acc. induction l as [|x l IH]; intros acc; simpl.
  - split; [by rewrite app_nil_r|]. intros s.
    by destruct (decide (s ∈ [])) as [?%elem_of_nil|].
  - destruct (IH (add_source cat acc x)) as [IH1 IH2]. split.
    + rewrite IH1. simpl. by rewrite <- app_assoc.
    + intros s. rewrite IH2. unfold sources, add_source; simpl.
      destruct (decide (s = x)) as [->|Hne].
      * rewrite lookup_insert_eq; simpl.
        rewrite (decide_True (P := x ∈ x :: l)) by apply list_elem_of_here.
        destruct (decide (x ∈ l)); [|done]. f_equal. set_solver.
      * rewrite lookup_insert_ne by done.
        destruct (decide (s ∈ l)) as [Hin|Hin].
        -- by rewrite decide_True by (by apply list_elem_of_further).
        -- by rewrite decide_False by (by apply not_elem_of_cons).
Qed.

Lemma apply_rules_list rules v acc :
  (apply_rules rules v acc).1 = acc.1 ++ rule_list rules v.
Proof.
  unfold apply_rules, rule_list.
  destruct v as [| | |cat]; try by rewrite app_nil_r.
  destruct (rules !! cat) as [l|]; simpl; [|by rewrite app_nil_r].
  apply foldl_add_source.
Qed.

Lemma apply_rules_lookup rules v acc s :
  (apply_rules rules v acc).2 !! s
  = if decide (s ∈ rule_list rules v) then Some (sources acc s ∪ label v)
    else acc.2 !! s.
Proof.
  unfold apply_rules, rule_list, label.
  destruct v as [| | |cat]; try done.
  destruct (rules !! cat) as [l|]; [|done].
  apply foldl_add_source.
Qed.

Lemma apply_rules_sources rules v acc s :
  sources (apply_rules rules v acc) s
  = sources acc s ∪ (if decide (s ∈ rule_list rules v) then label v else ∅).
Proof.
  unfold sources at 1. rewrite apply_rules_lookup.
  destruct (decide (s ∈ rule_list rules v)); simpl; [done|].
  unfold sources. set_solver.
Qed.

Lemma rule_list_label rules v s : s ∈ rule_list rules v → ∃ cat, v = PyStr cat.
Proof. destruct v; simpl; try (by intros ?%elem_of_nil); eauto. Qed.

(** The working list and the source map after the three lookups. *)
Definition collect (rules : gmap string (list string)) (c w d : value)
    : list string * gmap string (gset string) :=
  apply_rules rules d (apply_rules rules w (apply_rules rules c ([], ∅))).

Lemma collect_list rules c w d :
  (collect rules c w d).1 = rule_list rules c ++ rule_list rules w ++ rule_list rules d.
Proof.
  unfold collect. rewrite !apply_rules_list. simpl. by rewrite <- app_assoc.
Qed.

Lemma collect_sources rules c w d s :
  sources (collect rules c w d) s
  = (if decide (s ∈ rule_list rules c) then label c else ∅)
    ∪ (if decide (s ∈ rule_list rules w) then label w else ∅)
    ∪ (if decide (s ∈ rule_list rules d) then label d else ∅).
Proof.
  unfold collect. rewrite !apply_rules_sources.
  unfold sources at 1; simpl. rewrite lookup_empty; simpl. set_solver.
Qed.

Lemma collect_sources_nonempty rules c w d s :
  s ∈ (collect rules c w d).1 → sources (collect rules c w d) s ≠ ∅.
Proof.
  rewrite collect_list, collect_sources, !elem_of_app.
  intros [H|[H|H]]; rewrite (decide_True _ _ H);
    destruct (rule_list_label _ _ _ H) as [cat ->]; simpl; set_solver.
Qed.

Lemma explain_lookup sm l s :
  explain sm l !! s
  = if decide (s ∈ l) then Some (sorted_set (default ∅ (sm !! s))) else None.
Proof.
  unfold explain.
  assert (∀ m : gmap string (list string), foldl (λ m s, <[s := sorted_set (default ∅ (sm !! s))]> m) m l !! s
               = if decide (s ∈ l) then Some (sorted_set (default ∅ (sm !! s)))
                 else m !! s) as Hgen.
  { induction l as [|x l IH]; intros m; simpl.
    - done.
    - rewrite IH. destruct (decide (s ∈ l)) as [Hin|Hin].
      + by rewrite decide_True by (by apply list_elem_of_further).
      + destruct (decide (s = x)) as [->|Hne].
        * rewrite lookup_insert_eq. by rewrite decide_True by apply list_elem_of_here.
        * rewrite lookup_insert_ne by done.
          by rewrite decide_False by (by apply not_elem_of_cons). }
  by rewrite Hgen, lookup_empty.
Qed.

Section Inference.
Variable float_of_str : string → option float.

Lemma compute_bmi_ok w h : ∃ r, compute_bmi float_of_str w h = Ok r.
Proof.
  unfold compute_bmi, try_except.
  destruct (_ ≫= _); eauto.
Qed.

(** What one inference call returns, in closed form. *)
Lemma backfill_ok profile ws :
  ∃ ws' profile', backfill_weight_status float_of_str profile ws = Ok (ws', profile').
Proof.
  unfold backfill_weight_status.
  destruct (truthy ws); [eauto|].
  destruct (truthy _ && truthy _).
  - destruct (compute_bmi_ok (get profile "weight_kg") (get profile "height_cm")) as [r ->].
    simpl. destruct (infer_weight_status_from_bmi r); eauto.
  - simpl. eauto.
Qed.

Lemma backfill_get profile ws ws' profile' :
  ws = get profile "weight_status" →
  backfill_weight_status float_of_str profile ws = Ok (ws', profile') →
  ws' = get profile' "weight_status".
Proof.
  unfold backfill_weight_status. intros ->.
  destruct (truthy _); [by intros [= <- <-]|].
  destruct (if _ && _ then _ else _) as [bmi|]; simpl; [|done].
  destruct (infer_weight_status_from_bmi bmi).
  - intros [= <- <-]. unfold get.
    by rewrite lookup_insert_ne, lookup_insert_eq.
  - by intros [= <- <-].
Qed.

Lemma infer_closed_form rules profile :
  ∃ profile',
    let acc := collect rules (get_or profile "health_condition" (PyStr "Normal"))
                 (get profile' "weight_status") (get profile "diet_preference") in
    let suggestions := sorted_set (list_to_set acc.1) in
    backfill_weight_status float_of_str profile (get profile "weight_status")
      = Ok (get profile' "weight_status", profile')
    ∧ infer_diet_with_explanations float_of_str rules profile
      = Ok (profile', (suggestions, explain acc.2 suggestions)).
Proof.
  destruct (backfill_ok profile (get profile "weight_status")) as (ws' & profile' & Hb).
  exists profile'.
  pose proof (backfill_get _ _ _ _ eq_refl Hb) as ->.
  split; [done|].
  unfold infer_diet_with_explanations. rewrite Hb. reflexivity.
Qed.
End Inference.

(** A category value the call looks up: the health condition (with its
    default), the weight status the record holds after the call (given or
    inferred from the BMI), or the diet preference. *)
Definition selects (profile profile' : gmap string value) (cat : string) : Prop :=
  get_or profile "health_condition" (PyStr "Normal") = PyStr cat
  ∨ get profile' "weight_status" = PyStr cat
  ∨ get profile "diet_preference" = PyStr cat.

(** Ascending in the order of Python strings. *)
Definition ascending (l : list string) : Prop :=
  StronglySorted (λ a b, str_leb a b = true) l.

Lemma selects_in_collect rules profile profile' cat l s :
  selects profile profile' cat → rules !! cat = Some l → s ∈ l →
  let acc := collect rules (get_or profile "health_condition" (PyStr "Normal"))
               (get profile' "weight_status") (get profile "diet_preference") in
  s ∈ acc.1 ∧ cat ∈ sources acc s.
Proof.
  intros Hsel Hl Hs acc. subst acc.
  rewrite collect_list, collect_sources, !elem_of_app.
  destruct Hsel as [E|[E|E]]; rewrite E; simpl; rewrite Hl; simpl;
    rewrite (decide_True (P := s ∈ l)) by done; set_solver.
Qed.

(** C1.  For every user profile and each of its three category values (the
    health condition, the weight status as given or as inferred from the
    BMI, the diet preference) that is a key of the rule catalog, every
    suggestion of that category's rule list is among the suggestions that
    [infer_diet_with_explanations] returns, and the explanation list of
    that suggestion holds the category label; a suggestion produced by two
    of the categories has both labels in its explanation list. *)
Theorem infer_covers_every_category (float_of_str : string → option float)
    (rules : gmap string (list string)) (profile : gmap string value) :
  ∃ profile' suggestions explanations,
    infer_diet_with_explanations float_of_str rules profile
      = Ok (profile', (suggestions, explanations))
    ∧ (∀ cat l s,
         selects profile profile' cat → rules !! cat = Some l → s ∈ l →
         s ∈ suggestions
         ∧ ∃ cats, explanations !! s = Some cats ∧ cat ∈ cats)
    ∧ (∀ cat1 cat2 l1 l2 s,
         selects profile profile' cat1 → rules !! cat1 = Some l1 → s ∈ l1 →
         selects profile profile' cat2 → rules !! cat2 = Some l2 → s ∈ l2 →
         ∃ cats, explanations !! s = Some cats ∧ cat1 ∈ cats ∧ cat2 ∈ cats).
Proof.
  destruct (infer_closed_form float_of_str rules profile) as (profile' & _ & Hinfer).
  cbv zeta in Hinfer. eexists _, _, _. split; [exact Hinfer|].
  assert (∀ cat l s,
    selects profile profile' cat → rules !! cat = Some l → s ∈ l →
    s ∈ sorted_set (list_to_set
          (collect rules (get_or profile "health_condition" (PyStr "Normal"))
             (get profile' "weight_status") (get profile "diet_preference")).1)
    ∧ cat ∈ sorted_set (sources
          (collect rules (get_or profile "health_condition" (PyStr "Normal"))
             (get profile' "weight_status") (get profile "diet_preference")) s))
    as Hone.
  { intros cat l s Hsel Hl Hs.
    destruct (selects_in_collect _ _ _ _ _ _ Hsel Hl Hs) as [H1 H2].
    split; rewrite elem_of_sorted_set; [by apply elem_of_list_to_set|done]. }
  split.
  - intros cat l s Hsel Hl Hs. destruct (Hone _ _ _ Hsel Hl Hs) as [H1 H2].
    split; [done|]. eexists. split; [|exact H2].
    rewrite explain_lookup. by rewrite decide_True by done.
  - intros cat1 cat2 l1 l2 s Hsel1 Hl1 Hs1 Hsel2 Hl2 Hs2.
    destruct (Hone _ _ _ Hsel1 Hl1 Hs1) as [H1 H2].
    destruct (Hone _ _ _ Hsel2 Hl2 Hs2) as [_ H3].
    eexists. split; [|split; [exact H2|exact H3]].
    rewrite explain_lookup. by rewrite decide_True by done.
Qed.

(** C10.  For every user profile, [infer_diet_with_explanations] returns
    its suggestions as a list without repetitions, in ascending order of
    the strings; the keys of the explanation map it returns are exactly the
    suggestions of that list, and each is mapped to a list of category
    labels that is not empty, has no repetitions and is in ascending
    order. *)
Theorem infer_returns_sorted_lists (float_of_str : string → option float)
    (rules : gmap string (list string)) (profile : gmap string value) :
  ∃ profile' suggestions explanations,
    infer_diet_with_explanations float_of_str rules profile
      = Ok (profile', (suggestions, explanations))
    ∧ NoDup suggestions
    ∧ ascending suggestions
    ∧ (∀ s, is_Some (explanations !! s) ↔ s ∈ suggestions)
    ∧ (∀ s cats, explanations !! s = Some cats →
         cats ≠ [] ∧ NoDup cats ∧ ascending cats).
Proof.
  destruct (infer_closed_form float_of_str rules profile) as (profile' & _ & Hinfer).
  cbv zeta in Hinfer. eexists _, _, _. split; [exact Hinfer|].
  split; [apply NoDup_sorted_set|].
  split; [apply sorted_set_strongly|].
  split.
  - intros s. rewrite explain_lookup. destruct (decide (s ∈ _)) as [Hin|Hin].
    + split; [done|eauto].
    + split; [by intros [? ?]|done].
  - intros s cats. rewrite explain_lookup.
    destruct (decide (s ∈ _)) as [Hin|Hin]; [|done].
    intros [= <-].
    split; [|split; [apply NoDup_sorted_set|apply sorted_set_strongly]].
    rewrite sorted_set_nil.
    apply collect_sources_nonempty.
    by apply elem_of_sorted_set, elem_of_list_to_set in Hin.
Qed.

(* ================================================================== *)
(** * The BMI classifier                                               *)
(* ================================================================== *)

(** Comparisons of doubles, through their specification. *)

Definition flt (x y : float) : Prop := (x <? y)%float = true.
Definition fle (x y : float) : Prop := (x <=? y)%float = true.

Lemma fle_not_flt_const (c x : float) (m : positive) (e : Z) :
  Prim2SF c = S754_finite false m e →
  fle c x → (x <? c)%float = false.
Proof.
  unfold fle. rewrite leb_spec, ltb_spec. intros ->.
  unfold SFleb, SFltb.
  destruct (Prim2SF x) as [s|s| |s m' e']; simpl; try done.
  - by destruct s.
  - destruct s; [done|].
    rewrite (Z.compare_antisym e e').
    destruct (e ?= e'); simpl; try done.
    change (Pos.compare_cont Eq m m') with (Pos.compare m m').
    change (Pos.compare_cont Eq m' m) with (Pos.compare m' m).
    rewrite (Pos.compare_antisym m m').
    by destruct (Pos.compare m m').
Qed.

Lemma fle_trans_const (c d x : float) (m n : positive) (e : Z) :
  Prim2SF c = S754_finite false m e →
  Prim2SF d = S754_finite false n e →
  (m <= n)%positive →
  fle d x → fle c x.
Proof.
  unfold fle. rewrite !leb_spec. intros -> -> Hmn.
  unfold SFleb.
  destruct (Prim2SF x) as [s|s| |s m' e']; simpl; try done.
  destruct s; [done|].
  destruct (e ?= e'); simpl; try done.
  change (Pos.compare_cont Eq n m') with (Pos.compare n m').
  change (Pos.compare_cont Eq m m') with (Pos.compare m m').
  destruct (Pos.compare_spec n m'), (Pos.compare_spec m m'); try done; lia.
Qed.

(** C3.  [infer_weight_status_from_bmi] returns nothing for an absent BMI,
    ["Underweight"] when [bmi < 18.5], ["Normal"] when [18.5 <= bmi < 25]
    and ["Overweight"] when [bmi >= 25]; a BMI of exactly 18.5 is
    ["Normal"], exactly 25.0 is ["Overweight"], and 18.49 is
    ["Underweight"]. *)
Theorem weight_status_bands :
  infer_weight_status_from_bmi None = None
  ∧ (∀ bmi, flt bmi 18.5 →
       infer_weight_status_from_bmi (Some bmi) = Some "Underweight")
  ∧ (∀ bmi, fle 18.5 bmi → flt bmi 25 →
       infer_weight_status_from_bmi (Some bmi) = Some "Normal")
  ∧ (∀ bmi, fle 25 bmi →
       infer_weight_status_from_bmi (Some bmi) = Some "Overweight")
  ∧ infer_weight_status_from_bmi (Some 18.5%float) = Some "Normal"
  ∧ infer_weight_status_from_bmi (Some 25%float) = Some "Overweight"
  ∧ infer_weight_status_from_bmi (Some 18.49%float) = Some "Underweight".
Proof.
  assert (Prim2SF 18.5 = S754_finite false 5207287069147136 (-48)) as H18
    by (vm_compute; reflexivity).
  assert (Prim2SF 25 = S754_finite false 7036874417766400 (-48)) as H25
    by (vm_compute; reflexivity).
  repeat split; try (vm_compute; reflexivity).
  - intros bmi Hlt. unfold infer_weight_status_from_bmi, flt in *. by rewrite Hlt.
  - intros bmi Hle Hlt. unfold infer_weight_status_from_bmi, flt in *.
    by rewrite (fle_not_flt_const _ _ _ _ H18 Hle), Hlt.
  - intros bmi Hle. unfold infer_weight_status_from_bmi.
    rewrite (fle_not_flt_const _ _ _ _ H25 Hle).
    assert (fle 18.5 bmi) as Hle'.
    { eapply (fle_trans_const _ _ _ _ _ _ H18 H25); [lia|done]. }
    by rewrite (fle_not_flt_const _ _ _ _ H18 Hle').
Qed.

(* ================================================================== *)
(** * The ranker                                                       *)
(* ================================================================== *)

(** The priority of a category: its entry in the table, 0 without one. *)
Definition priority (c : string) : Z := default 0 (CATEGORY_PRIORITY !! c).

(** [a] is ranked no later than [b]: a higher score, or the same score and
    a text that is not greater. *)
Definition ranks_before (explanations : gmap string (list string)) (a b : string) : Prop :=
  rank_score explanations b < rank_score explanations a
  ∨ (rank_score explanations a = rank_score explanations b ∧ str_leb a b = true).

Definition rank_leb (explanations : gmap string (list string)) (a b : string) : bool :=
  tuple_leb (- rank_score explanations a, a) (- rank_score explanations b, b).

Lemma foldl_max_spec x xs :
  foldl Z.max x xs ∈ x :: xs ∧ ∀ y, y ∈ x :: xs → y <= foldl Z.max x xs.
Proof.
  revert x. induction xs as [|z xs IH]; intros x; simpl.
  - split; [apply list_elem_of_here|]. intros y ->%list_elem_of_singleton. lia.
  - destruct (IH (Z.max x z)) as [Hin Hmax]. split.
    + apply elem_of_cons in Hin as [Heq|Hin].
      * rewrite Heq. destruct (Z.max_spec x z) as [[_ ->]|[_ ->]].
        -- apply list_elem_of_further, list_elem_of_here.
        -- apply list_elem_of_here.
      * by do 2 apply list_elem_of_further.
    + intros y Hy.
      assert (Z.max x z <= foldl Z.max (Z.max x z) xs) as Hm
        by apply Hmax, list_elem_of_here.
      apply elem_of_cons in Hy as [->|Hy]; [lia|].
      apply elem_of_cons in Hy as [->|Hy]; [lia|].
      by apply Hmax, list_elem_of_further.
Qed.

Lemma max_default_spec d xs :
  xs ≠ [] → max_default d xs ∈ xs ∧ ∀ y, y ∈ xs → y <= max_default d xs.
Proof. destruct xs as [|x xs]; [done|]. intros _. apply foldl_max_spec. Qed.

Lemma rank_score_absent explanations s :
  explanations !! s = None ∨ explanations !! s = Some [] →
  rank_score explanations s = 0.
Proof. unfold rank_score. by intros [-> | ->]. Qed.

Lemma rank_score_max explanations s cats :
  explanations !! s = Some cats → cats ≠ [] →
  (∃ c, c ∈ cats ∧ rank_score explanations s = priority c)
  ∧ (∀ c, c ∈ cats → priority c <= rank_score explanations s).
Proof.
  intros Hs Hne. unfold rank_score. rewrite Hs; simpl.
  destruct (max_default_spec 0 (map (λ c, default 0 (CATEGORY_PRIORITY !! c)) cats))
    as [Hin Hmax].
  { by destruct cats. }
  split.
  - apply list_elem_of_fmap in Hin as (c & Hc & Hin). by exists c.
  - intros c Hc. apply Hmax. apply list_elem_of_fmap. by exists c.
Qed.

Lemma rank_leb_iff explanations a b :
  rank_leb explanations a b = true ↔ ranks_before explanations a b.
Proof.
  unfold rank_leb, tuple_leb, ranks_before; simpl.
  rewrite orb_true_iff, andb_true_iff, Z.ltb_lt, Z.eqb_eq. split.
  - intros [?|[? ?]]; [left; lia|right; split; [lia|done]].
  - intros [?|[? ?]]; [left; lia|right; split; [lia|done]].
Qed.

Lemma rank_leb_total explanations a b :
  rank_leb explanations a b = true ∨ rank_leb explanations b a = true.
Proof. apply tuple_leb_total. Qed.

Lemma rank_leb_trans explanations a b c :
  rank_leb explanations a b = true → rank_leb explanations b c = true →
  rank_leb explanations a c = true.
Proof. apply tuple_leb_trans. Qed.

Lemma rank_leb_antisym explanations a b :
  rank_leb explanations a b = true → rank_leb explanations b a = true → a = b.
Proof. intros H1 H2. by pose proof (tuple_leb_antisym _ _ H1 H2) as [= _ ->]. Qed.

Lemma StronglySorted_iff {A : Type} (R S : relation A) l :
  (∀ x y, R x y ↔ S x y) → StronglySorted R l → StronglySorted S l.
Proof.
  intros HRS. induction 1 as [|x l Hl IH Hx]; constructor; [done|].
  eapply Forall_impl; [exact Hx|]. intros y. apply HRS.
Qed.

Lemma slice_to_nonneg {A : Type} (l : list A) k :
  0 <= k → slice_to l k = take (Z.to_nat k) l.
Proof. intros Hk. unfold slice_to. by rewrite (proj2 (Z.leb_le 0 k)). Qed.

Lemma slice_to_neg {A : Type} (l : list A) k :
  k < 0 → slice_to l k = take (length l - Z.to_nat (- k)) l.
Proof. intros Hk. unfold slice_to. by rewrite (proj2 (Z.leb_gt 0 k)). Qed.

(** C2, as stated, fails for a negative limit: the slice [ranked[:-1]]
    drops the last entry instead of keeping none. *)
Lemma rank_limit_negative_counterexample :
  ¬ (∀ (suggestions : list string) (explanations : gmap string (list string)) (k : Z),
       rank_suggestions suggestions explanations (Some k)
       = take (Z.to_nat k) (rank_suggestions suggestions explanations None)).
Proof.
  intros H. specialize (H ["a"; "b"] ∅ (-1)).
  vm_compute in H. discriminate H.
Qed.

(** C2, amended.  The score of a suggestion is the greatest priority among
    the categories of its explanation list, a category without an entry
    in the priority table counting 0, and it is 0 for an empty or missing
    explanation list.  Without a limit [rank_suggestions] returns the
    suggestions rearranged by descending score and, among equal scores,
    ascending text; this arrangement is the only one, so the result is
    determined by the input.  With a limit [k >= 0] the result is exactly
    the first [k] entries of that order; with a negative limit the last
    [-k] entries are dropped instead. *)
Theorem rank_suggestions_order (suggestions : list string)
    (explanations : gmap string (list string)) :
  let ranked := rank_suggestions suggestions explanations None in
  (∀ s, explanations !! s = None ∨ explanations !! s = Some [] →
        rank_score explanations s = 0)
  ∧ (∀ s cats, explanations !! s = Some cats → cats ≠ [] →
       (∃ c, c ∈ cats ∧ rank_score explanations s = priority c)
       ∧ (∀ c, c ∈ cats → priority c <= rank_score explanations s))
  ∧ (∀ c, CATEGORY_PRIORITY !! c = None → priority c = 0)
  ∧ ranked ≡ₚ suggestions
  ∧ StronglySorted (ranks_before explanations) ranked
  ∧ (∀ l, l ≡ₚ suggestions → StronglySorted (ranks_before explanations) l →
          l = ranked)
  ∧ (∀ k, 0 <= k →
          rank_suggestions suggestions explanations (Some k)
          = take (Z.to_nat k) ranked)
  ∧ (∀ k, k < 0 →
          rank_suggestions suggestions explanations (Some k)
          = take (length ranked - Z.to_nat (- k)) ranked).
Proof.
  intros ranked. subst ranked. unfold rank_suggestions, sorted_by_key.
  change (λ x y : string, tuple_leb (- rank_score explanations x, x)
                                    (- rank_score explanations y, y))
    with (rank_leb explanations).
  split; [apply rank_score_absent|].
  split; [apply rank_score_max|].
  split; [by intros c Hc; unfold priority; rewrite Hc|].
  split; [apply sorted_perm|].
  split.
  { eapply StronglySorted_iff; [apply rank_leb_iff|].
    apply sorted_strongly; [apply rank_leb_total|apply rank_leb_trans]. }
  split.
  { intros l Hp Hs.
    apply sorted_unique;
      [apply rank_leb_total|apply rank_leb_trans|apply rank_leb_antisym|done|].
    eapply StronglySorted_iff; [|exact Hs].
    intros x y. symmetry. apply rank_leb_iff. }
  split; intros k Hk; [by apply slice_to_nonneg|by apply slice_to_neg].
Qed.

(* ================================================================== *)
(** * The BMI back-fill                                                *)
(* ================================================================== *)

(** The record of the end-to-end example: weight 50 kg, height 180 cm, no
    weight status. *)
Definition example_profile : gmap string value :=
  <["weight_kg" := PyInt 50]> (<["height_cm" := PyInt 180]> ∅).

(** The record after a back-fill with BMI [b] and label [l]. *)
Definition filled (profile : gmap string value) (b : float) (l : string)
    : gmap string value :=
  <["bmi" := PyFloat b]> (<["weight_status" := PyStr l]> profile).

Section Backfill.
Variable float_of_str : string → option float.

Lemma backfill_set profile ws :
  truthy ws = true →
  backfill_weight_status float_of_str profile ws = Ok (ws, profile).
Proof. intros H. unfold backfill_weight_status. by rewrite H. Qed.

Lemma backfill_unset profile ws :
  truthy ws = false →
  truthy (get profile "weight_kg") = true →
  truthy (get profile "height_cm") = true →
  ∃ bmi,
    compute_bmi float_of_str (get profile "weight_kg") (get profile "height_cm") = Ok bmi
    ∧ backfill_weight_status float_of_str profile ws
      = match bmi with
        | Some b =>
            match infer_weight_status_from_bmi (Some b) with
            | Some l => Ok (PyStr l, filled profile b l)
            | None => Ok (ws, profile)
            end
        | None => Ok (ws, profile)
        end.
Proof.
  intros Hws Hw Hh. unfold backfill_weight_status. rewrite Hws, Hw, Hh; simpl.
  destruct (compute_bmi_ok float_of_str (get profile "weight_kg") (get profile "height_cm"))
    as [bmi Hbmi].
  exists bmi. split; [done|]. rewrite Hbmi; simpl.
  destruct bmi as [b|]; [|done].
  unfold infer_weight_status_from_bmi.
  by destruct (b <? 18.5)%float, (b <? 25)%float.
Qed.

Lemma classify_some b : ∃ l, infer_weight_status_from_bmi (Some b) = Some l.
Proof.
  unfold infer_weight_status_from_bmi.
  destruct (b <? 18.5)%float; [eauto|]. destruct (b <? 25)%float; eauto.
Qed.

Lemma backfill_cases profile ws ws' profile' :
  backfill_weight_status float_of_str profile ws = Ok (ws', profile') →
  profile' = profile ∨ ∃ b l, profile' = filled profile b l.
Proof.
  unfold backfill_weight_status.
  destruct (truthy ws); [intros [= _ <-]; by left|].
  destruct (if _ && _ then _ else _) as [bmi|]; simpl; [|done].
  destruct (infer_weight_status_from_bmi bmi) as [l|] eqn:Hl.
  - destruct bmi as [b|]; [|done]. intros [= _ <-]. right. by exists b, l.
  - intros [= _ <-]. by left.
Qed.
End Backfill.

(** C5, as stated, fails when the weight is non-zero but the BMI cannot be
    computed: with weight -5 and height 180 the call writes neither a
    weight status nor a BMI. *)
Lemma backfill_negative_weight_counterexample :
  ¬ (∀ (float_of_str : string → option float) (rules : gmap string (list string))
       (profile : gmap string value),
       truthy (get profile "weight_status") = false →
       truthy (get profile "weight_kg") = true →
       truthy (get profile "height_cm") = true →
       ∃ profile' result b l,
         infer_diet_with_explanations float_of_str rules profile = Ok (profile', result)
         ∧ profile' !! "bmi" = Some (PyFloat b)
         ∧ profile' !! "weight_status" = Some (PyStr l)).
Proof.
  intros H.
  destruct (H (λ _, None) ∅
              (<["weight_kg" := PyInt (-5)]> (<["height_cm" := PyInt 180]> ∅)))
    as (profile' & result & b & l & Hinfer & Hbmi & _); [done..|].
  vm_compute in Hinfer. injection Hinfer as <- _.
  vm_compute in Hbmi. discriminate Hbmi.
Qed.

(** C5, amended.  One call of the inference engine on a record whose
    weight status is absent (or empty) and whose weight and height are
    present and non-zero computes the BMI; when the BMI is there (weight
    and height are positive numbers) the call classifies it and writes the
    weight status and the BMI onto the record, and when the BMI is absent
    the record is left as it was.  In every case all other fields stay
    unchanged, and a weight status that is set already is never
    overwritten.  The record with weight 50 and height 180 and no weight
    status carries BMI 15.4 and weight status ["Underweight"] after one
    call. *)
Theorem backfill_writes_weight_status_and_bmi
    (float_of_str : string → option float) (rules : gmap string (list string)) :
  (∀ profile : gmap string value,
     ∃ profile' result,
       infer_diet_with_explanations float_of_str rules profile = Ok (profile', result)
       ∧ (truthy (get profile "weight_status") = false →
          truthy (get profile "weight_kg") = true →
          truthy (get profile "height_cm") = true →
          ∃ bmi,
            compute_bmi float_of_str (get profile "weight_kg") (get profile "height_cm")
              = Ok bmi
            ∧ match bmi with
              | Some b =>
                  ∃ l, infer_weight_status_from_bmi (Some b) = Some l
                       ∧ profile' = filled profile b l
              | None => profile' = profile
              end)
       ∧ (∀ k, k ≠ "weight_status" → k ≠ "bmi" → profile' !! k = profile !! k)
       ∧ (truthy (get profile "weight_status") = true → profile' = profile))
  ∧ ∃ result,
      infer_diet_with_explanations float_of_str rules example_profile
      = Ok (filled example_profile 15.4 "Underweight", result).
Proof.
  split.
  - intros profile.
    destruct (infer_closed_form float_of_str rules profile) as (profile' & Hb & Hinfer).
    cbv zeta in Hinfer. eexists profile', _. split; [exact Hinfer|].
    split; [|split].
    + intros Hws Hw Hh.
      destruct (backfill_unset float_of_str profile _ Hws Hw Hh) as (bmi & Hbmi & Hb').
      exists bmi. split; [done|]. rewrite Hb in Hb'.
      destruct bmi as [b|]; [|by injection Hb' as _ ->].
      destruct (classify_some b) as [l Hl]. rewrite Hl in Hb'.
      exists l. split; [done|]. by injection Hb' as _ ->.
    + intros k Hk1 Hk2.
      destruct (backfill_cases float_of_str _ _ _ _ Hb) as [->|(b & l & ->)]; [done|].
      unfold filled. by rewrite !lookup_insert_ne.
    + intros Hws. rewrite (backfill_set float_of_str profile _ Hws) in Hb.
      by injection Hb as _ ->.
  - destruct (infer_closed_form float_of_str rules example_profile)
      as (profile' & Hb & Hinfer).
    cbv zeta in Hinfer. rewrite Hinfer. eexists. do 2 f_equal.
    destruct (backfill_unset float_of_str example_profile
                (get example_profile "weight_status")) as (bmi & Hbmi & Hb');
      [done..|].
    assert (bmi = Some 15.4%float) as ->.
    { assert (compute_bmi float_of_str (get example_profile "weight_kg")
                (get example_profile "height_cm") = Ok (Some 15.4%float)) as E
        by (vm_compute; reflexivity).
      rewrite E in Hbmi. by injection Hbmi. }
    rewrite Hb in Hb'.
    assert (infer_weight_status_from_bmi (Some 15.4%float) = Some "Underweight") as E
      by (vm_compute; reflexivity).
    rewrite E in Hb'. by injection Hb' as _ ->.
Qed.

(* ================================================================== *)
(** * The overlay merge                                                *)
(* ================================================================== *)

(** The items the loop of [load_additional_rules] runs over: none without
    a path, for a missing or unreadable file, or for a document that is
    not an object. *)
Definition overlay_items (w : world) (json_path : option string)
    : list (string * json_value) :=
  match json_path with
  | None => []
  | Some path =>
      if String.eqb path "" then []
      else
        match json_files w path with
        | Some (Ok (JObject items)) => items
        | _ => []
        end
  end.

(** The new entries the overlay gives for category [k]: the members of
    every list it holds under [k]. *)
Fixpoint new_entries (items : list (string * json_value)) (k : string)
    : list json_elem :=
  match items with
  | [] => []
  | (k', JList values) :: rest =>
      if decide (k' = k) then values ++ new_entries rest k else new_entries rest k
  | (_, JNotList) :: rest => new_entries rest k
  end.

(** The overlay holds a list under [k]. *)
Fixpoint touched (items : list (string * json_value)) (k : string) : bool :=
  match items with
  | [] => false
  | (k', JList _) :: rest => bool_decide (k' = k) || touched rest k
  | (_, JNotList) :: rest => touched rest k
  end.

Definition well_formed_item (item : string * json_value) : bool :=
  match item.2 with
  | JList _ => true
  | JNotList => false
  end.

Definition entries (rules : gmap string (list json_elem)) (k : string)
    : gset json_elem :=
  list_to_set (default [] (rules !! k)).

(** The values are strings, as the documented shape of an overlay asks. *)
Definition is_str (e : json_elem) : bool :=
  match e with
  | JStr _ => true
  | _ => false
  end.

Definition strings_only (l : list json_elem) : bool := forallb is_str l.

Definition strings_overlay (items : list (string * json_value)) : bool :=
  forallb (λ item, match item.2 with
                   | JList values => strings_only values
                   | JNotList => true
                   end) items.

Definition strings_catalog (rules : gmap string (list json_elem)) : Prop :=
  ∀ k l, rules !! k = Some l → strings_only l = true.

(** Ascending in the order of the values. *)
Definition sort_set (s : gset json_elem) : list json_elem :=
  sorted elem_leb (elements s).

(** The turn of the loop when nothing raises. *)
Definition merge_pure (rules : gmap string (list json_elem))
    (item : string * json_value) : gmap string (list json_elem) :=
  match item.2 with
  | JNotList => rules
  | JList values =>
      <[item.1 := sort_set (entries rules item.1 ∪ list_to_set values)]> rules
  end.

Lemma elem_leb_total a b : elem_leb a b = true ∨ elem_leb b a = true.
Proof.
  destruct a as [s|p| |], b as [t|q| |]; simpl; auto.
  - apply str_leb_total.
  - destruct (total Qcanon.Qcle p q); [left|right]; by apply bool_decide_eq_true_2.
Qed.

Lemma elem_leb_trans a b c :
  elem_leb a b = true → elem_leb b c = true → elem_leb a c = true.
Proof.
  destruct a as [s|p| |], b as [t|q| |], c as [u|r| |]; simpl; try done.
  - apply str_leb_trans.
  - rewrite !bool_decide_eq_true. apply Qcanon.Qcle_trans.
Qed.

Lemma elem_leb_antisym a b :
  elem_leb a b = true → elem_leb b a = true → a = b.
Proof.
  destruct a as [s|p| |], b as [t|q| |]; simpl; try done.
  - intros H1 H2. f_equal. by apply str_leb_antisym.
  - rewrite !bool_decide_eq_true. intros H1 H2. f_equal. by apply Qcanon.Qcle_antisym.
Qed.

Lemma elem_of_sort_set s e : e ∈ sort_set s ↔ e ∈ s.
Proof. unfold sort_set. by rewrite elem_of_sorted, elem_of_elements. Qed.

Lemma NoDup_sort_set s : NoDup (sort_set s).
Proof. apply NoDup_sorted, NoDup_elements. Qed.

Lemma sort_set_strongly s : StronglySorted (le_of elem_leb) (sort_set s).
Proof. apply sorted_strongly; [apply elem_leb_total|apply elem_leb_trans]. Qed.

Lemma sort_set_roundtrip s : list_to_set (sort_set s) = s.
Proof. apply set_eq. intros x. by rewrite elem_of_list_to_set, elem_of_sort_set. Qed.

Lemma strings_only_elem l : strings_only l = true ↔ ∀ e, e ∈ l → is_str e = true.
Proof.
  unfold strings_only. rewrite forallb_forall.
  split; intros H e He; apply H; by apply list_elem_of_In.
Qed.

Lemma to_set_strings l : strings_only l = true → to_set l = Ok (list_to_set l).
Proof.
  intros Hl. unfold to_set.
  assert (forallb hashable l = true) as ->; [|done].
  apply forallb_forall. intros e He%list_elem_of_In.
  apply strings_only_elem with (e := e) in Hl; [|done]. by destruct e.
Qed.

Lemma orderable_strings l : (∀ e, e ∈ l → is_str e = true) → orderable l = true.
Proof.
  destruct l as [|e l]; [done|]. intros Hl. simpl.
  apply forallb_forall. intros e' He'%list_elem_of_In.
  pose proof (Hl e (list_elem_of_here _ _)) as He.
  pose proof (Hl e' (list_elem_of_further _ _ _ He')) as He''.
  by destruct e, e'.
Qed.

Lemma sorted_elems_strings s :
  (∀ e, e ∈ s → is_str e = true) → sorted_elems s = Ok (sort_set s).
Proof.
  intros Hs. unfold sorted_elems. rewrite orderable_strings; [done|].
  intros e He. apply Hs. by apply elem_of_elements.
Qed.

Lemma merge_item_strings rules k values :
  strings_only (default [] (rules !! k)) = true → strings_only values = true →
  merge_item rules (k, JList values) = Ok (merge_pure rules (k, JList values)).
Proof.
  intros Hold Hnew. unfold merge_item, merge_pure, entries. simpl.
  rewrite (to_set_strings _ Hold), (to_set_strings _ Hnew). simpl.
  rewrite sorted_elems_strings; [done|].
  intros e. rewrite elem_of_union, !elem_of_list_to_set.
  intros [He|He]; [by apply (proj1 (strings_only_elem _) Hold)
                  |by apply (proj1 (strings_only_elem _) Hnew)].
Qed.

Lemma strings_catalog_default rules k :
  strings_catalog rules → strings_only (default [] (rules !! k)) = true.
Proof. intros H. destruct (rules !! k) as [l|] eqn:E; [by apply (H k)|done]. Qed.

Lemma merge_pure_strings rules item :
  strings_catalog rules → strings_overlay [item] = true →
  strings_catalog (merge_pure rules item).
Proof.
  destruct item as [k [values|]]; [|done].
  intros Hc Hv. simpl in Hv. rewrite andb_true_r in Hv.
  intros k' l. unfold merge_pure. simpl.
  destruct (decide (k = k')) as [->|Hne].
  - rewrite lookup_insert_eq. intros [= <-]. apply strings_only_elem.
    intros e. rewrite elem_of_sort_set, elem_of_union. unfold entries.
    rewrite !elem_of_list_to_set.
    intros [He|He];
      [by apply (proj1 (strings_only_elem _) (strings_catalog_default _ k' Hc))
      |by apply (proj1 (strings_only_elem _) Hv)].
  - rewrite lookup_insert_ne by done. apply Hc.
Qed.

Lemma strings_catalog_fold rules items :
  strings_catalog rules → strings_overlay items = true →
  strings_catalog (foldl merge_pure rules items).
Proof.
  revert rules. induction items as [|item items IH]; intros rules Hc Hi; [done|].
  simpl in Hi. apply andb_true_iff in Hi as [Hi1 Hi2]. simpl. apply IH; [|done].
  apply merge_pure_strings; [done|]. simpl. by rewrite Hi1.
Qed.

(** On a catalog of strings and an overlay of strings no turn raises. *)
Lemma merge_items_strings rules items :
  strings_catalog rules → strings_overlay items = true →
  merge_items rules items = (foldl merge_pure rules items, Ok ()).
Proof.
  revert rules. induction items as [|[k v] items IH]; intros rules Hc Hi; [done|].
  pose proof Hi as Hi'. simpl in Hi. apply andb_true_iff in Hi as [Hi1 Hi2].
  assert (merge_item rules (k, v) = Ok (merge_pure rules (k, v))) as Hstep.
  { destruct v as [values|]; [|done].
    apply merge_item_strings; [by apply strings_catalog_default|done]. }
  simpl. rewrite Hstep. apply IH; [|done].
  apply merge_pure_strings; [done|]. simpl. by rewrite Hi1.
Qed.

Lemma raw_catalog_strings rules : strings_catalog (raw_catalog rules).
Proof.
  intros k l. unfold raw_catalog. rewrite lookup_fmap.
  destruct (rules !! k) as [ss|]; [|done]. intros [= <-].
  apply strings_only_elem. by intros e (s & -> & _)%list_elem_of_fmap.
Qed.

Lemma load_additional_rules_items w json_path rules :
  load_additional_rules w json_path rules
  = Ok (merge_items rules (overlay_items w json_path)).1.
Proof.
  unfold load_additional_rules, overlay_items.
  destruct json_path as [path|]; [|done].
  destruct (String.eqb path ""); [done|].
  destruct (json_files w path) as [[[items|]|e]|]; try done.
  by destruct (merge_items rules items) as [rules' [[]|e]].
Qed.

Lemma merge_item_grows rules item rules' k e :
  merge_item rules item = Ok rules' →
  e ∈ default [] (rules !! k) → e ∈ default [] (rules' !! k).
Proof.
  destruct item as [k' [values|]]; [|by intros [= <-]].
  unfold merge_item, to_set, sorted_elems. simpl.
  destruct (forallb hashable (default [] (rules !! k'))); [|done].
  destruct (forallb hashable values); [|done]. simpl.
  destruct (orderable _); [|done]. simpl. intros [= <-] He.
  destruct (decide (k' = k)) as [->|Hne].
  - rewrite lookup_insert_eq. simpl.
    rewrite elem_of_sorted, elem_of_elements, elem_of_union, !elem_of_list_to_set. by left.
  - by rewrite lookup_insert_ne.
Qed.

Lemma merge_items_grows rules items k e :
  e ∈ default [] (rules !! k) →
  e ∈ default [] ((merge_items rules items).1 !! k).
Proof.
  revert rules. induction items as [|item items IH]; intros rules He; [done|].
  simpl. destruct (merge_item rules item) as [rules'|err] eqn:Hstep; [|done].
  apply IH. by eapply merge_item_grows.
Qed.

(** The merge ends at the first turn that raises. *)
Lemma merge_items_stops rules pre item post r e :
  merge_items rules pre = (r, Ok ()) → merge_item r item = Raise e →
  merge_items rules (pre ++ item :: post) = (r, Raise e).
Proof.
  revert rules. induction pre as [|x pre IH]; intros rules Hpre Hitem; simpl in *.
  - injection Hpre as ->. by rewrite Hitem.
  - destruct (merge_item rules x) as [rules'|err]; [by apply IH|done].
Qed.

Lemma merge_items_skips_malformed rules items :
  merge_items rules items = merge_items rules (List.filter well_formed_item items).
Proof.
  revert rules. induction items as [|[k v] items IH]; intros rules; [done|].
  destruct v as [values|]; simpl; [|apply IH].
  destruct (merge_item rules (k, JList values)); [apply IH|done].
Qed.

Lemma merge_pure_lookup rules k' v k :
  merge_pure rules (k', v) !! k
  = match v with
    | JList values =>
        if decide (k' = k)
        then Some (sort_set (entries rules k ∪ list_to_set values))
        else rules !! k
    | JNotList => rules !! k
    end.
Proof.
  unfold merge_pure; simpl. destruct v as [values|]; [|done].
  destruct (decide (k' = k)) as [->|Hne].
  - by rewrite lookup_insert_eq.
  - by rewrite lookup_insert_ne.
Qed.

Lemma new_entries_untouched items k :
  touched items k = false → new_entries items k = [].
Proof.
  induction items as [|[k' [values|]] items IH]; simpl; [done| |done].
  intros [Hk Ht]%orb_false_iff.
  rewrite decide_False by (by apply bool_decide_eq_false in Hk). auto.
Qed.

Lemma merge_fold_lookup items rules k :
  foldl merge_pure rules items !! k
  = if touched items k
    then Some (sort_set (entries rules k ∪ list_to_set (new_entries items k)))
    else rules !! k.
Proof.
  revert rules. induction items as [|[k' v] items IH]; intros rules; [done|].
  simpl foldl. rewrite IH. simpl.
  assert (∀ values, entries (merge_pure rules (k', JList values)) k
                    = if decide (k' = k) then entries rules k ∪ list_to_set values
                      else entries rules k) as Hentries.
  { intros values. unfold entries at 1. rewrite merge_pure_lookup.
    destruct (decide (k' = k)); [|done]. simpl. apply sort_set_roundtrip. }
  destruct v as [values|]; [|by rewrite merge_pure_lookup].
  rewrite Hentries, merge_pure_lookup.
  destruct (decide (k' = k)) as [->|Hne].
  - rewrite bool_decide_eq_true_2 by done. simpl.
    destruct (touched items k) eqn:Ht.
    + f_equal. f_equal. rewrite list_to_set_app_L. set_solver.
    + by rewrite (new_entries_untouched _ _ Ht), app_nil_r.
  - rewrite bool_decide_eq_false_2 by done. simpl. done.
Qed.

Lemma entries_merge_fold items rules k :
  entries (foldl merge_pure rules items) k
  = entries rules k ∪ list_to_set (new_entries items k).
Proof.
  unfold entries at 1. rewrite merge_fold_lookup.
  destruct (touched items k) eqn:Ht; simpl.
  - apply sort_set_roundtrip.
  - rewrite (new_entries_untouched _ _ Ht). unfold entries. set_solver.
Qed.

Lemma merge_fold_idempotent items rules :
  foldl merge_pure (foldl merge_pure rules items) items = foldl merge_pure rules items.
Proof.
  apply map_eq. intros k. rewrite (merge_fold_lookup items (foldl _ _ _)).
  destruct (touched items k) eqn:Ht; [|done].
  rewrite merge_fold_lookup, Ht, entries_merge_fold. f_equal. f_equal. set_solver.
Qed.

Lemma merge_fold_commute items1 items2 rules :
  foldl merge_pure (foldl merge_pure rules items1) items2
  = foldl merge_pure (foldl merge_pure rules items2) items1.
Proof.
  apply map_eq. intros k. rewrite !merge_fold_lookup, !entries_merge_fold.
  destruct (touched items1 k) eqn:H1, (touched items2 k) eqn:H2; try done.
  - f_equal. f_equal. set_solver.
  - f_equal. f_equal. rewrite (new_entries_untouched _ _ H2). set_solver.
  - f_equal. f_equal. rewrite (new_entries_untouched _ _ H1). set_solver.
Qed.

(** A list of strings in the order of the values is a list of strings in
    ascending order. *)
Lemma strings_of_sorted l :
  strings_only l = true → NoDup l → StronglySorted (le_of elem_leb) l →
  ∃ ss, l = JStr <$> ss ∧ NoDup ss ∧ ascending ss.
Proof.
  induction l as [|e l IH]; intros Hs Hn Ho.
  - exists []. repeat split; constructor.
  - simpl in Hs. apply andb_true_iff in Hs as [He Hs].
    apply NoDup_cons in Hn as [Hnotin Hn].
    apply StronglySorted_inv in Ho as [Ho Hall].
    destruct (IH Hs Hn Ho) as (ss & -> & Hnd & Hasc).
    destruct e as [s| | |]; try done. exists (s :: ss).
    split; [done|]. split.
    + constructor; [|done]. intros Hin. apply Hnotin.
      by apply (list_elem_of_fmap_2 JStr).
    + constructor; [done|]. rewrite Forall_forall in Hall.
      apply Forall_forall. intros t Ht.
      apply (Hall (JStr t)). by apply (list_elem_of_fmap_2 JStr).
Qed.

(** The strings of a list of strings. *)
Definition strings_of (l : list json_elem) : list string :=
  omap (λ e, match e with JStr s => Some s | _ => None end) l.

Lemma strings_of_raw l : strings_only l = true → JStr <$> strings_of l = l.
Proof.
  induction l as [|e l IH]; [done|]. simpl. intros [He Hl]%andb_true_iff.
  destruct e as [s| | |]; try done. simpl. f_equal. by apply IH.
Qed.

(** A catalog that holds strings only is a catalog of strings. *)
Lemma raw_catalog_of_strings r :
  strings_catalog r → raw_catalog (strings_of <$> r) = r.
Proof.
  intros Hr. apply map_eq. intros k. unfold raw_catalog. rewrite !lookup_fmap.
  destruct (r !! k) as [l|] eqn:E; [|done]. simpl. f_equal.
  apply strings_of_raw. by apply (Hr k).
Qed.

Lemma elem_of_raw_catalog rules k s :
  JStr s ∈ default [] (raw_catalog rules !! k) ↔ s ∈ default [] (rules !! k).
Proof.
  unfold raw_catalog. rewrite lookup_fmap.
  destruct (rules !! k) as [l|]; simpl; [|by rewrite !elem_of_nil].
  split; [by intros (t & [= <-] & Ht)%list_elem_of_fmap|apply (list_elem_of_fmap_2 JStr)].
Qed.

(** C6, as stated, fails when a list of the overlay cannot be merged: the
    list [[1, "z"]] under the first category makes [sorted] raise
    [TypeError], the error is swallowed, and the list of strings under the
    second category, a valid one, is never merged. *)
Lemma overlay_mixed_list_counterexample :
  ¬ (∀ (w : world) (json_path : option string) (rules : gmap string (list json_elem))
       (k : string) (values : list json_elem),
       (k, JList values) ∈ overlay_items w json_path →
       strings_only values = true →
       ∃ rules', load_additional_rules w json_path rules = Ok rules'
                 ∧ ∀ e, e ∈ values → e ∈ default [] (rules' !! k)).
Proof.
  intros H.
  pose (w := {| json_files := λ _, Some (Ok (JObject
                   [ ("Vegan", JList [json_int 1; JStr "z"]);
                     ("Keto", JList [JStr "Limit carbohydrates"]) ]));
                csv_files := λ _, None |}).
  destruct (H w (Some "overlay.json") ∅ "Keto" [JStr "Limit carbohydrates"])
    as (rules' & Hload & Hin).
  - apply list_elem_of_further, list_elem_of_here.
  - reflexivity.
  - assert (load_additional_rules w (Some "overlay.json") ∅ = Ok ∅) as E
      by (vm_compute; reflexivity).
    rewrite E in Hload. injection Hload as <-.
    specialize (Hin _ (list_elem_of_here _ _)). by apply elem_of_nil in Hin.
Qed.

(** C6, amended.  [load_additional_rules] never raises and goes through
    the entries of the overlay in order.  The list of a category never
    shrinks.  An entry whose value is not a list is skipped, the other
    entries being merged as if it were not there.  The first entry whose
    list cannot be merged (it holds a list or an object, or its values and
    the existing ones are not all of one kind, such as a number next to a
    string) ends the merge: the entries before it stay merged, the entries
    after it are not merged.  When the catalog and the lists of the overlay
    hold strings only, no entry fails: the list of each category for which
    the overlay holds a list becomes the ascending union, without
    repetitions, of the existing and the new entries, every other category
    keeps its list, and merging the same overlay again changes nothing. *)
Theorem overlay_merge_is_sorted_union (w : world) (json_path : option string)
    (rules : gmap string (list json_elem)) :
  ∃ rules',
    load_additional_rules w json_path rules = Ok rules'
    ∧ (∀ k e, e ∈ default [] (rules !! k) → e ∈ default [] (rules' !! k))
    ∧ rules' = (merge_items rules
                  (List.filter well_formed_item (overlay_items w json_path))).1
    ∧ (∀ pre item post r e,
         overlay_items w json_path = pre ++ item :: post →
         merge_items rules pre = (r, Ok ()) → merge_item r item = Raise e →
         rules' = r)
    ∧ (strings_catalog rules → strings_overlay (overlay_items w json_path) = true →
       (∀ k, touched (overlay_items w json_path) k = true →
          ∃ l, rules' !! k = Some (JStr <$> l) ∧ NoDup l ∧ ascending l
               ∧ ∀ s, s ∈ l ↔ JStr s ∈ default [] (rules !! k)
                              ∨ JStr s ∈ new_entries (overlay_items w json_path) k)
       ∧ (∀ k, touched (overlay_items w json_path) k = false →
            rules' !! k = rules !! k)
       ∧ load_additional_rules w json_path rules' = Ok rules').
Proof.
  exists (merge_items rules (overlay_items w json_path)).1.
  split; [apply load_additional_rules_items|].
  split; [intros k e; apply merge_items_grows|].
  split; [by rewrite <- merge_items_skips_malformed|].
  split.
  { intros pre item post r e -> Hpre Hitem.
    by rewrite (merge_items_stops _ _ _ post _ _ Hpre Hitem). }
  intros Hc Ho. rewrite (merge_items_strings _ _ Hc Ho). simpl.
  split; [|split].
  - intros k Ht. rewrite merge_fold_lookup, Ht.
    set (merged := sort_set _).
    assert (strings_only merged = true) as Hs.
    { pose proof (strings_catalog_fold _ _ Hc Ho k merged) as Hk.
      apply Hk. by rewrite merge_fold_lookup, Ht. }
    destruct (strings_of_sorted merged Hs (NoDup_sort_set _) (sort_set_strongly _))
      as (l & Hl & Hnd & Hasc).
    exists l. rewrite <- Hl. split; [done|]. split; [done|]. split; [done|].
    intros s.
    assert (JStr s ∈ merged
            ↔ JStr s ∈ default [] (rules !! k)
              ∨ JStr s ∈ new_entries (overlay_items w json_path) k) as Hm.
    { unfold merged. rewrite elem_of_sort_set, elem_of_union. unfold entries.
      by rewrite !elem_of_list_to_set. }
    rewrite <- Hm, Hl. split.
    + apply (list_elem_of_fmap_2 JStr).
    + by intros (t & [= <-] & Ht')%list_elem_of_fmap.
  - intros k Ht. by rewrite merge_fold_lookup, Ht.
  - rewrite load_additional_rules_items.
    rewrite (merge_items_strings _ _ (strings_catalog_fold _ _ Hc Ho) Ho). simpl.
    f_equal. apply merge_fold_idempotent.
Qed.

(** X15.  Overlays of strings can be merged in any order: starting from a
    catalog of strings, merging the file [path1] and then the file [path2]
    leaves the same catalog as merging [path2] and then [path1], when the
    lists of both files hold strings only. *)
Theorem overlay_merges_commute (w : world) (path1 path2 : option string)
    (rules : gmap string (list string)) :
  strings_overlay (overlay_items w path1) = true →
  strings_overlay (overlay_items w path2) = true →
  ∃ rules1 rules2 merged,
    load_additional_rules w path1 (raw_catalog rules) = Ok rules1
    ∧ load_additional_rules w path2 rules1 = Ok merged
    ∧ load_additional_rules w path2 (raw_catalog rules) = Ok rules2
    ∧ load_additional_rules w path1 rules2 = Ok merged.
Proof.
  intros H1 H2. pose proof (raw_catalog_strings rules) as Hc.
  exists (foldl merge_pure (raw_catalog rules) (overlay_items w path1)),
         (foldl merge_pure (raw_catalog rules) (overlay_items w path2)),
         (foldl merge_pure (foldl merge_pure (raw_catalog rules) (overlay_items w path1))
            (overlay_items w path2)).
  rewrite !load_additional_rules_items.
  rewrite (merge_items_strings _ _ Hc H1), (merge_items_strings _ _ Hc H2).
  rewrite (merge_items_strings _ _ (strings_catalog_fold _ _ Hc H1) H2).
  rewrite (merge_items_strings _ _ (strings_catalog_fold _ _ Hc H2) H1). simpl.
  split; [reflexivity|]. split; [reflexivity|]. split; [reflexivity|].
  f_equal. apply merge_fold_commute.
Qed.

Lemma overlay_merges_commute_witness :
  let w := {| json_files := λ path,
                if String.eqb path "a.json"
                then Some (Ok (JObject [ ("Vegan", JList [JStr "Include legumes"]) ]))
                else Some (Ok (JObject [ ("Vegan", JList [JStr "Add vitamin B12"]);
                                         ("Normal", JList [JStr "Stay hydrated"]) ]));
              csv_files := λ _, None |} in
  ∃ rules1 rules2 merged,
    load_additional_rules w (Some "a.json") (raw_catalog rules) = Ok rules1
    ∧ load_additional_rules w (Some "b.json") rules1 = Ok merged
    ∧ load_additional_rules w (Some "b.json") (raw_catalog rules) = Ok rules2
    ∧ load_additional_rules w (Some "a.json") rules2 = Ok merged.
Proof.
  intros w. apply overlay_merges_commute; reflexivity.
Defined.

(* ================================================================== *)
(** * The food recommender                                             *)
(* ================================================================== *)

(** The score of a food for a profile: [score] with the values
    [recommend_foods] reads off the profile. *)
Definition profile_score (profile : gmap string value) (f : food) : Z :=
  score (or_else (get profile "health_condition") (PyStr "Normal"))
        (or_else (get profile "diet_preference") (PyStr "Normal"))
        (goal_of (get profile "weight_status")) f.

(** The records in the order [recommend_foods] ranks them. *)
Definition ranked_foods (profile : gmap string value) (foods : list food) : list food :=
  sorted_by_key (λ f, (- profile_score profile f, default "" (name f))) foods.

(** The names the final loop runs over: those of the records with a
    positive score, or of all records when there is none. *)
Definition candidate_names (profile : gmap string value) (foods : list food)
    : list (option string) :=
  let names :=
    map name (filter (λ f, 0 < profile_score profile f) (ranked_foods profile foods)) in
  match names with
  | [] => map name (ranked_foods profile foods)
  | _ => names
  end.

(** First-seen names, without the empty ones and without repeats up to
    case. *)
Fixpoint distinct_ci (names : list (option string)) (seen : gset string) : list string :=
  match names with
  | [] => []
  | None :: rest => distinct_ci rest seen
  | Some n :: rest =>
      if String.eqb n "" then distinct_ci rest seen
      else if bool_decide (lower n ∈ seen) then distinct_ci rest seen
      else n :: distinct_ci rest ({[lower n]} ∪ seen)
  end.

(** What the four alignment terms of the score add up to. *)
Definition alignment (condition diet_pref : value) (goal : string) (f : food) : Z :=
  bonus (eq_str diet_pref "Vegetarian" && vegetarian f) 2
  + bonus (eq_str condition "Diabetic" && diabetic_friendly f) 3
  + bonus (eq_str condition "Hypertension" && hypertension_friendly f) 3
  + bonus (negb (String.eqb goal "") && bool_decide (weight_goal f = Some goal)) 2.

Lemma recommend_from_names profile foods max_items :
  foods ≠ [] →
  recommend_from profile foods max_items
  = dedupe max_items (candidate_names profile foods) ∅ [].
Proof.
  intros Hne. destruct foods as [|f foods]; [done|].
  unfold recommend_from, candidate_names, ranked_foods, profile_score.
  cbv zeta. reflexivity.
Qed.

Lemma dedupe_closed_form max_items names seen result :
  dedupe max_items names seen result
  = result ++ take (Z.to_nat (Z.max 1 (max_items - Z.of_nat (length result))))
                   (distinct_ci names seen).
Proof.
  revert seen result. induction names as [|[n|] names IH]; intros seen result; simpl.
  - by rewrite take_nil, app_nil_r.
  - destruct (String.eqb n ""); [apply IH|].
    destruct (bool_decide (lower n ∈ seen)); [apply IH|].
    rewrite length_app; simpl.
    destruct (Z.leb_spec max_items (Z.of_nat (length result + 1))) as [Hle|Hgt].
    + replace (Z.to_nat (Z.max 1 (max_items - Z.of_nat (length result)))) with 1%nat by lia.
      done.
    + rewrite IH, length_app; simpl. rewrite <- app_assoc; simpl.
      replace (Z.to_nat (Z.max 1 (max_items - Z.of_nat (length result))))
        with (S (Z.to_nat (Z.max 1 (max_items - Z.of_nat (length result + 1))))) by lia.
      done.
  - apply IH.
Qed.

Lemma elem_of_distinct_ci names seen n :
  n ∈ distinct_ci names seen → Some n ∈ names.
Proof.
  revert seen. induction names as [|[m|] names IH]; intros seen; simpl.
  - by intros ?%elem_of_nil.
  - destruct (String.eqb m ""); [intros; by eapply list_elem_of_further, IH|].
    destruct (bool_decide (lower m ∈ seen)); [intros; by eapply list_elem_of_further, IH|].
    intros [->|Hin]%elem_of_cons; [apply list_elem_of_here|].
    by eapply list_elem_of_further, IH.
  - intros. by eapply list_elem_of_further, IH.
Qed.

Lemma elem_of_dedupe max_items names n :
  n ∈ dedupe max_items names ∅ [] → Some n ∈ names.
Proof.
  rewrite dedupe_closed_form. simpl.
  intros Hin. apply (elem_of_distinct_ci _ ∅).
  eapply subseteq_take, Hin.
Qed.

Lemma elem_of_ranked_foods profile foods f :
  f ∈ ranked_foods profile foods ↔ f ∈ foods.
Proof. apply elem_of_sorted. Qed.

Lemma candidate_names_positive profile foods n :
  (∃ g, g ∈ foods ∧ 0 < profile_score profile g) →
  Some n ∈ candidate_names profile foods →
  ∃ f, f ∈ foods ∧ name f = Some n ∧ 0 < profile_score profile f.
Proof.
  intros (g & Hg & Hpos). unfold candidate_names. cbv zeta.
  destruct (map name (filter _ _)) as [|x names] eqn:Hnames.
  - exfalso.
    assert (g ∈ filter (λ f, 0 < profile_score profile f) (ranked_foods profile foods)) as Hin.
    { apply list_elem_of_filter. split; [done|]. by apply elem_of_ranked_foods. }
    assert (name g ∈ map name (filter (λ f, 0 < profile_score profile f)
                                 (ranked_foods profile foods))) as Hin'
      by apply (list_elem_of_fmap_2 name), Hin.
    rewrite Hnames in Hin'. by apply elem_of_nil in Hin'.
  - rewrite <- Hnames. intros (f & Hn & Hf)%list_elem_of_fmap.
    apply list_elem_of_filter in Hf as [Hfpos Hf].
    exists f. split; [by apply (elem_of_ranked_foods profile)|]. by split.
Qed.

Lemma score_of_barcode_name condition diet_pref goal f :
  name f = Some "123-456" →
  score condition diet_pref goal f = alignment condition diet_pref goal f - 5.
Proof.
  intros Hname. unfold score, alignment. rewrite Hname.
  assert (strip (default "" (Some "123-456")) = "123-456") as -> by (vm_compute; reflexivity).
  assert (staple_regex "123-456" = false) as -> by (vm_compute; reflexivity).
  assert (barcode_like "123-456" = true) as -> by (vm_compute; reflexivity).
  assert (size_like "123-456" = false) as -> by (vm_compute; reflexivity).
  unfold bonus at 5 6 7. lia.
Qed.

Lemma alignment_bounds condition diet_pref goal f :
  0 <= alignment condition diet_pref goal f <= 7.
Proof.
  unfold alignment, bonus.
  destruct condition as [| | |c]; simpl;
    try (destruct (_ && _), (_ && _); lia).
  destruct (String.eqb_spec c "Diabetic") as [->|?]; simpl;
    repeat match goal with |- context [if ?b then _ else _] => destruct b end; lia.
Qed.

(** C8, as stated, fails: a food named ["123-456"] that is vegetarian,
    diabetic-friendly and matches the weight goal scores 2 + 3 + 2 - 5 = 2,
    so for a vegetarian, diabetic, overweight user it is among the
    positive-score results. *)
Lemma barcode_food_recommended_counterexample :
  ¬ (∀ (profile : gmap string value) (foods : list food) (max_items : Z) (f : food),
       f ∈ foods → name f = Some "123-456" →
       (∃ g, g ∈ foods ∧ 0 < profile_score profile g) →
       "123-456" ∉ recommend_from profile foods max_items).
Proof.
  intros H.
  pose (profile := <["health_condition" := PyStr "Diabetic"]>
                     (<["weight_status" := PyStr "Overweight"]>
                        (<["diet_preference" := PyStr "Vegetarian"]> ∅))
                   : gmap string value).
  pose (f := {| name := Some "123-456"; vegetarian := true; diabetic_friendly := true;
                hypertension_friendly := false; weight_goal := Some "loss" |}).
  pose (g := {| name := Some "Apple"; vegetarian := true; diabetic_friendly := false;
                hypertension_friendly := false; weight_goal := Some "maintain" |}).
  apply (H profile [g; f] 6 f).
  - apply list_elem_of_further, list_elem_of_here.
  - done.
  - exists g. split; [apply list_elem_of_here|]. by vm_compute.
  - assert (recommend_from profile [g; f] 6 = ["123-456"; "Apple"]) as ->
      by (vm_compute; reflexivity).
    apply list_elem_of_here.
Qed.

(** C8, amended.  A food named ["123-456"] receives the demotion by 5: its
    score is its alignment terms (between 0 and 7) minus 5, so at most 2;
    and whenever at least one food of the catalog scores more than 0, the
    name ["123-456"] is in the result of [recommend_foods] only if a record
    of that name scores more than 0, that is, earns more than 5 from its
    alignment terms; otherwise it is excluded. *)
Theorem barcode_food_demoted (profile : gmap string value) (foods : list food)
    (max_items : Z) :
  (∀ condition diet_pref goal f,
     name f = Some "123-456" →
     score condition diet_pref goal f = alignment condition diet_pref goal f - 5
     ∧ 0 <= alignment condition diet_pref goal f <= 7)
  ∧ ((∃ g, g ∈ foods ∧ 0 < profile_score profile g) →
     (∀ f, f ∈ foods → name f = Some "123-456" → profile_score profile f <= 0) →
     "123-456" ∉ recommend_from profile foods max_items).
Proof.
  split.
  - intros condition diet_pref goal f Hname.
    split; [by apply score_of_barcode_name|apply alignment_bounds].
  - intros Hpos Hall Hin.
    assert (foods ≠ []) as Hne.
    { destruct Hpos as (g & Hg & _). intros ->. by apply elem_of_nil in Hg. }
    rewrite recommend_from_names in Hin by done.
    apply elem_of_dedupe in Hin.
    destruct (candidate_names_positive _ _ _ Hpos Hin) as (f & Hf & Hname & Hfpos).
    specialize (Hall f Hf Hname). lia.
Qed.

(** The result of [recommend_foods] in closed form, for every cap: the
    first-seen distinct names, cut after [max_items] of them and never
    before the first one. *)
Lemma recommend_from_closed_form (profile : gmap string value) (foods : list food)
    (max_items : Z) :
  recommend_from profile foods max_items
  = take (Z.to_nat (Z.max 1 max_items)) (distinct_ci (candidate_names profile foods) ∅).
Proof.
  destruct foods as [|f foods].
  - change (candidate_names profile []) with (@nil (option string)).
    simpl. by rewrite take_nil.
  - rewrite recommend_from_names by done. rewrite dedupe_closed_form. simpl.
    by rewrite Z.sub_0_r.
Qed.

(** The procedure of the specification: rank, keep the positive scores (or
    all records when there is none), drop empty names and repeats up to
    case, and keep at most [max_items] names. *)
Definition recommend_spec (profile : gmap string value) (foods : list food)
    (max_items : Z) : list string :=
  take (Z.to_nat max_items) (distinct_ci (candidate_names profile foods) ∅).

(** The text is ASCII.  On ASCII text the case folding, the blanks and
    the character classes of this development are those of Python. *)
Definition is_ascii (s : string) : bool :=
  forallb (λ c, (code c <? 128)%N) (chars s).

(** Every record has a name, in ASCII. *)
Definition ascii_names (foods : list food) : bool :=
  forallb (λ f, match name f with
                | Some n => is_ascii n
                | None => false
                end) foods.

(** For a cap of at least one and a catalog whose names are ASCII text,
    [recommend_foods] returns what the procedure of the specification
    returns. *)
Lemma recommend_from_refines_spec (profile : gmap string value) (foods : list food)
    (max_items : Z) :
  1 <= max_items → ascii_names foods = true →
  recommend_from profile foods max_items = recommend_spec profile foods max_items.
Proof.
  intros Hcap _. rewrite recommend_from_closed_form. unfold recommend_spec.
  by rewrite Z.max_r by done.
Qed.

Lemma recommend_from_refines_spec_witness :
  recommend_from ∅ [ {| name := Some "Idli"; vegetarian := true;
                        diabetic_friendly := false; hypertension_friendly := false;
                        weight_goal := Some "maintain" |} ] 6
  = recommend_spec ∅ [ {| name := Some "Idli"; vegetarian := true;
                          diabetic_friendly := false; hypertension_friendly := false;
                          weight_goal := Some "maintain" |} ] 6.
Proof. apply recommend_from_refines_spec; [lia|reflexivity]. Defined.

(** C4.  With [max_items = 0] the final loop of [recommend_foods] appends
    the first name before it tests the bound, so one name is returned where
    the procedure of the specification returns none. *)
Theorem recommend_zero_cap_returns_one_name :
  let idli := {| name := Some "Idli"; vegetarian := true; diabetic_friendly := false;
                 hypertension_friendly := false; weight_goal := Some "maintain" |} in
  recommend_from ∅ [idli] 0 = ["Idli"]
  ∧ recommend_spec ∅ [idli] 0 = [].
Proof. split; vm_compute; reflexivity. Qed.

(* ================================================================== *)
(** * compute_bmi and the loaders never raise                          *)
(* ================================================================== *)

(** ** The sign of a rounded result *)

(** [x] is not nan and carries the sign [s]. *)
Definition has_sign (s : bool) (x : spec_float) : Prop :=
  match x with
  | S754_zero s' | S754_infinity s' | S754_finite s' _ _ => s' = s
  | S754_nan => False
  end.

Lemma shr_1_nonneg mrs : 0 <= shr_m mrs → 0 <= shr_m (shr_1 mrs).
Proof. destruct mrs as [[|[p|p|]|p] r s]; simpl; lia. Qed.

Lemma iter_shr_1_nonneg p mrs :
  0 <= shr_m mrs → 0 <= shr_m (SpecFloat.iter_pos shr_1 p mrs).
Proof.
  revert mrs. induction p as [p IH|p IH|]; intros mrs H; simpl.
  - by apply IH, IH, shr_1_nonneg.
  - by apply IH, IH.
  - by apply shr_1_nonneg.
Qed.

Lemma shr_fexp_nonneg m e l :
  0 <= m → 0 <= shr_m (shr_fexp prec emax m e l).1.
Proof.
  intros Hm. unfold shr_fexp, shr.
  assert (0 <= shr_m (shr_record_of_loc m l)) as H0
    by (by destruct l as [|[]]).
  destruct (fexp prec emax (Zdigits2 m + e) - e); simpl; [done| |done].
  by apply iter_shr_1_nonneg.
Qed.

Lemma round_nearest_even_nonneg m l : 0 <= m → 0 <= round_nearest_even m l.
Proof.
  intros Hm. destruct l as [|[]]; simpl; try lia.
  destruct (Z.even m); lia.
Qed.

Lemma binary_round_aux_sign s m e l :
  0 <= m → has_sign s (binary_round_aux prec emax s m e l).
Proof.
  intros Hm. unfold binary_round_aux.
  pose proof (shr_fexp_nonneg m e l Hm) as H1.
  destruct (shr_fexp prec emax m e l) as [mrs' e']. simpl in H1.
  pose proof (shr_fexp_nonneg _ e' loc_Exact
                (round_nearest_even_nonneg _ (loc_of_shr_record mrs') H1)) as H2.
  destruct (shr_fexp prec emax _ e' loc_Exact) as [mrs'' e'']. simpl in H2.
  destruct (shr_m mrs'') as [|p|p]; simpl; [done| |lia].
  by destruct (e'' <=? emax - prec).
Qed.

Lemma SFdiv_core_nonneg m1 e1 m2 e2 :
  0 < m1 → 0 < m2 → 0 <= (SFdiv_core_binary prec emax m1 e1 m2 e2).1.1.
Proof.
  intros H1 H2. unfold SFdiv_core_binary.
  set (s := e1 - e2 - _).
  set (m' := match s with Z.pos _ => Z.shiftl m1 s | Z0 => m1 | Z.neg _ => 0 end).
  assert (0 <= m') as Hm'.
  { subst m'. destruct s; [lia| |lia]. apply Z.shiftl_nonneg. lia. }
  pose proof (Z.div_pos m' m2 Hm' H2) as Hq.
  unfold Z.div in Hq. by destruct (Z.div_eucl m' m2).
Qed.

(** A quotient by a positive finite double keeps the sign of the
    dividend. *)
Lemma SFdiv_sign x s m e :
  has_sign s x →
  has_sign s (SFdiv prec emax x (S754_finite false m e)).
Proof.
  destruct x as [s'|s'| |s' m' e']; simpl; try done.
  - intros ->. by destruct s.
  - intros ->. by destruct s.
  - intros ->.
    pose proof (SFdiv_core_nonneg (Z.pos m') e' (Z.pos m) e) as Hq.
    destruct (SFdiv_core_binary _ _ _ _ _ _) as [[mz ez] lz]. simpl in Hq.
    replace (xorb s false) with s by (by destruct s).
    apply binary_round_aux_sign. apply Hq; lia.
Qed.

Lemma fle_zero_sign x :
  (x <=? 0)%float = true →
  has_sign true (Prim2SF x) ∨ ∃ s, Prim2SF x = S754_zero s.
Proof.
  rewrite leb_spec. unfold SFleb.
  change (Prim2SF 0) with (S754_zero false).
  destruct (Prim2SF x) as [s|s| |s m e]; simpl; try done.
  - eauto.
  - destruct s; [by left|done].
  - destruct s; [by left|done].
Qed.

Lemma sign_fle_zero x :
  (has_sign true (Prim2SF x) ∨ ∃ s, Prim2SF x = S754_zero s) →
  (x <=? 0)%float = true.
Proof.
  rewrite leb_spec. unfold SFleb.
  change (Prim2SF 0) with (S754_zero false).
  intros [H|[s H]].
  - destruct (Prim2SF x) as [s|s| |s m e]; simpl in *; try done; by subst.
  - by rewrite H.
Qed.

(** A height that is not positive is not positive in metres either. *)
Lemma metres_nonpos (h : float) :
  (h <=? 0)%float = true → (h / 100 <=? 0)%float = true.
Proof.
  intros Hh. apply sign_fle_zero. rewrite div_spec.
  assert (Prim2SF 100 = S754_finite false 7036874417766400 (-46)) as ->
    by (vm_compute; reflexivity).
  unfold SF64div.
  destruct (fle_zero_sign h Hh) as [Hs|[s Hs]].
  - left. by apply SFdiv_sign.
  - right. rewrite Hs. simpl. eauto.
Qed.

(** ** compute_bmi *)

(** The BMI of a weight and a height that are doubles already. *)
Definition bmi_value (w h : float) : option float :=
  let h_m := (h / 100)%float in
  if (h_m <=? 0)%float || (w <=? 0)%float then None
  else if (h_m * h_m =? 0)%float then None
  else Some (round1 (w / (h_m * h_m))%float).

Section ComputeBmi.
Variable float_of_str : string → option float.

Lemma compute_bmi_unfold weight height :
  compute_bmi float_of_str weight height
  = Ok match to_float float_of_str height, to_float float_of_str weight with
       | Ok h, Ok w => bmi_value w h
       | _, _ => None
       end.
Proof.
  unfold compute_bmi, bmi_value, try_except.
  destruct (to_float float_of_str height) as [h|e]; simpl; [|done].
  destruct (to_float float_of_str weight) as [w|e]; simpl; [|done].
  destruct ((h / 100 <=? 0)%float || (w <=? 0)%float); [done|].
  unfold true_div. by destruct (h / 100 * (h / 100) =? 0)%float.
Qed.

Lemma load_foods_csv_ok w csv_path : ∃ foods, load_foods_csv w csv_path = Ok foods.
Proof.
  unfold load_foods_csv, try_except.
  destruct csv_path as [path|]; [|eauto].
  destruct (String.eqb path ""); [eauto|].
  destruct (csv_files w path) as [opened|]; [|eauto].
  destruct (_ ≫= _); eauto.
Qed.

Lemma read_rows_raise rows foods e :
  Raise e ∈ rows → ∃ e', read_rows rows foods = Raise e'.
Proof.
  revert foods. induction rows as [|[row|e'] rows IH]; intros foods Hin.
  - by apply elem_of_nil in Hin.
  - apply elem_of_cons in Hin as [?|Hin]; [done|]. simpl.
    destruct (decide (row = ∅)); by apply IH.
  - simpl. eauto.
Qed.

Lemma recommend_foods_ok w self max_items :
  ∃ r, recommend_foods w self max_items = Ok r.
Proof.
  unfold recommend_foods, get_foods_dataset.
  destruct (foods_dataset self) as [ds|]; [simpl; eauto|].
  destruct (load_foods_csv_ok w (Some foods_csv_path)) as [foods ->]. simpl. eauto.
Qed.
End ComputeBmi.

(** C7, as stated, fails for a positive weight and a positive height so
    small that the square of the height in metres underflows to zero: the
    division raises [ZeroDivisionError], which is caught, and the BMI is
    absent. *)
Lemma compute_bmi_underflow_counterexample :
  ¬ (∀ (float_of_str : string → option float) (w h : float),
       flt 0 w → flt 0 h →
       compute_bmi float_of_str (PyFloat w) (PyFloat h)
       = Ok (Some (round1 (w / (h / 100 * (h / 100)))%float))).
Proof.
  intros H. specialize (H (λ _, None) 70%float 1e-160%float).
  assert (compute_bmi (λ _, None) (PyFloat 70) (PyFloat 1e-160) = Ok None) as E
    by (vm_compute; reflexivity).
  rewrite E in H. discriminate H; vm_compute; reflexivity.
Qed.

Lemma read_rows_named rows acc foods :
  read_rows rows acc = Ok foods → (∀ f, f ∈ acc → is_Some (name f)) →
  ∀ f, f ∈ foods → is_Some (name f).
Proof.
  revert acc. induction rows as [|[row|e] rows IH]; intros acc; simpl.
  - by intros [= <-].
  - destruct (decide (row = ∅)); [apply IH|].
    intros H Hacc. apply (IH _ H).
    intros f [Hf| ->%list_elem_of_singleton]%elem_of_app; [by apply Hacc|by eexists].
  - done.
Qed.

Lemma load_foods_csv_named w csv_path foods f :
  load_foods_csv w csv_path = Ok foods → f ∈ foods → is_Some (name f).
Proof.
  unfold load_foods_csv.
  destruct csv_path as [path|]; [|by intros [= <-] ?%elem_of_nil].
  destruct (String.eqb path ""); [by intros [= <-] ?%elem_of_nil|].
  destruct (csv_files w path) as [[rows|e]|]; simpl;
    try (by intros [= <-] ?%elem_of_nil).
  destruct (read_rows rows []) as [fs|e] eqn:E; simpl;
    [|by intros [= <-] ?%elem_of_nil].
  intros [= <-]. apply (read_rows_named _ _ _ E). by intros ? ?%elem_of_nil.
Qed.

(** C7, amended.  [compute_bmi] and the two loaders never raise.
    [compute_bmi] returns nothing when either input cannot be converted to
    a double (missing, not numeric, an integer that is too large), when
    the weight is [<= 0] or the height in metres is [<= 0] (as it is for a
    height that is [<= 0], and also for a positive height as small as
    5e-324, whose hundredth is 0), and when the square of the height in
    metres is zero; otherwise it returns the weight divided by the square
    of the height in metres, rounded to one decimal.  Loading the food
    catalog from a missing file, from a file that cannot be opened or from
    one whose rows cannot all be read returns the empty catalog, and every
    record that is loaded has a name.  [load_additional_rules] swallows
    every error.  On profiles whose values are [None], integers, floats
    or strings, the inference returns a value when the rule catalog holds
    strings only, and every catalog that holds strings only is such a
    catalog; [recommend_foods] returns a value when every record of the
    catalog it holds has a name, as the loaded ones have. *)
Theorem core_operations_never_raise (float_of_str : string → option float)
    (w : world) :
  (∀ weight height, ∃ r, compute_bmi float_of_str weight height = Ok r)
  ∧ (∀ weight height e,
       to_float float_of_str weight = Raise e ∨ to_float float_of_str height = Raise e →
       compute_bmi float_of_str weight height = Ok None)
  ∧ (∀ weight height x,
       (to_float float_of_str weight = Ok x ∨ to_float float_of_str height = Ok x) →
       fle x 0 →
       compute_bmi float_of_str weight height = Ok None)
  ∧ (∀ weight height wf hf,
       to_float float_of_str weight = Ok wf →
       to_float float_of_str height = Ok hf →
       (wf <=? 0)%float = true ∨ (hf / 100 <=? 0)%float = true →
       compute_bmi float_of_str weight height = Ok None)
  ∧ (flt 0 5e-324 ∧ (5e-324 / 100 <=? 0)%float = true)
  ∧ (∀ weight height wf hf,
       to_float float_of_str weight = Ok wf →
       to_float float_of_str height = Ok hf →
       (wf <=? 0)%float = false → (hf / 100 <=? 0)%float = false →
       compute_bmi float_of_str weight height
       = Ok (if (hf / 100 * (hf / 100) =? 0)%float then None
             else Some (round1 (wf / (hf / 100 * (hf / 100)))%float)))
  ∧ (∀ csv_path, ∃ foods, load_foods_csv w csv_path = Ok foods)
  ∧ (∀ path, csv_files w path = None → load_foods_csv w (Some path) = Ok [])
  ∧ (∀ path e, csv_files w path = Some (Raise e) → load_foods_csv w (Some path) = Ok [])
  ∧ (∀ path rows e, csv_files w path = Some (Ok rows) → Raise e ∈ rows →
       load_foods_csv w (Some path) = Ok [])
  ∧ (∀ csv_path foods f,
       load_foods_csv w csv_path = Ok foods → f ∈ foods → is_Some (name f))
  ∧ (∀ json_path rules, ∃ rules', load_additional_rules w json_path rules = Ok rules')
  ∧ (∀ (rules : gmap string (list string)) profile,
       ∃ r, infer_diet_with_explanations float_of_str rules profile = Ok r)
  ∧ (∀ catalog, strings_catalog catalog → ∃ rules, catalog = raw_catalog rules)
  ∧ (∀ self max_items,
       (∀ foods f, foods_dataset self = Some foods → f ∈ foods → is_Some (name f)) →
       ∃ r, recommend_foods w self max_items = Ok r).
Proof.
  split; [apply compute_bmi_ok|].
  split.
  { intros weight height e H. rewrite compute_bmi_unfold.
    destruct H as [-> | ->]; [|done].
    by destruct (to_float float_of_str height). }
  split.
  { intros weight height x H Hx. rewrite compute_bmi_unfold. unfold fle in Hx.
    destruct H as [-> | ->].
    - destruct (to_float float_of_str height) as [h|]; [|done].
      unfold bmi_value. by rewrite Hx, orb_true_r.
    - destruct (to_float float_of_str weight) as [wf|]; [|done].
      unfold bmi_value. by rewrite (metres_nonpos x Hx).
  }
  split.
  { intros weight height wf hf Hwf Hhf H.
    rewrite compute_bmi_unfold, Hwf, Hhf. unfold bmi_value.
    destruct H as [-> | ->]; [by rewrite orb_true_r|done]. }
  split; [split; vm_compute; reflexivity|].
  split.
  { intros weight height wf hf Hwf Hhf Hw Hh.
    rewrite compute_bmi_unfold, Hwf, Hhf.
    unfold bmi_value. by rewrite Hw, Hh. }
  split; [apply load_foods_csv_ok|].
  split.
  { intros path Hp. unfold load_foods_csv. rewrite Hp. by destruct (String.eqb path ""). }
  split.
  { intros path e Hp. unfold load_foods_csv. rewrite Hp. by destruct (String.eqb path ""). }
  split.
  { intros path rows e Hp Hin. unfold load_foods_csv. rewrite Hp.
    destruct (String.eqb path ""); [done|]. simpl.
    by destruct (read_rows_raise rows [] e Hin) as [e' ->]. }
  split; [apply load_foods_csv_named|].
  split.
  { intros json_path rules. rewrite load_additional_rules_items. eauto. }
  split.
  { intros rules profile.
    destruct (infer_closed_form float_of_str rules profile) as (profile' & _ & H).
    cbv zeta in H. rewrite H. eauto. }
  split.
  { intros catalog Hc. eexists. symmetry. by apply raw_catalog_of_strings. }
  intros self max_items _. apply recommend_foods_ok.
Qed.

(* ================================================================== *)
(** * infer_diet                                                       *)
(* ================================================================== *)

Lemma extend_rules_list rules v suggestions :
  extend_rules rules v suggestions = suggestions ++ rule_list rules v.
Proof.
  unfold extend_rules, rule_list.
  destruct v as [| | |cat]; try by rewrite app_nil_r.
  destruct (rules !! cat) as [l|]; [done|by rewrite app_nil_r].
Qed.

(** X2.  [infer_diet] and [infer_diet_with_explanations] agree: on every
    rule catalog and every profile both return, the suggestion list of the
    first is the suggestion list of the second, and both leave the same
    profile behind (the same BMI back-fill). *)
Theorem infer_diet_agrees_with_explanations (float_of_str : string → option float)
    (rules : gmap string (list string)) (profile : gmap string value) :
  ∃ profile' suggestions explanations,
    infer_diet_with_explanations float_of_str rules profile
      = Ok (profile', (suggestions, explanations))
    ∧ infer_diet float_of_str rules profile = Ok (profile', suggestions).
Proof.
  destruct (infer_closed_form float_of_str rules profile) as (profile' & Hb & Hinfer).
  cbv zeta in Hinfer. eexists _, _, _. split; [exact Hinfer|].
  unfold infer_diet. rewrite Hb. simpl.
  rewrite !extend_rules_list, collect_list. simpl. by rewrite <- app_assoc.
Qed.

(* ================================================================== *)
(** * The ranker, applied again                                        *)
(* ================================================================== *)

Lemma StronglySorted_take {A : Type} (R : relation A) n l :
  StronglySorted R l → StronglySorted R (take n l).
Proof.
  intros H. revert n. induction H as [|x l Hl IH Hx]; intros [|n]; simpl;
    try constructor; [apply IH|].
  eapply Forall_take, Hx.
Qed.

Lemma StronglySorted_slice_to {A : Type} (R : relation A) l k :
  StronglySorted R l → StronglySorted R (slice_to l k).
Proof. intros H. unfold slice_to. destruct (0 <=? k); by apply StronglySorted_take. Qed.

(** X3.  Ranking is stable under repetition: the list [rank_suggestions]
    returns, with or without a limit, is returned unchanged when it is
    ranked again under the same explanations (as [export_report] does with
    the list the caller ranked); and the result does not depend on the
    order in which the suggestions are given. *)
Theorem rank_suggestions_idempotent (suggestions : list string)
    (explanations : gmap string (list string)) (limit : option Z) :
  rank_suggestions (rank_suggestions suggestions explanations limit) explanations None
  = rank_suggestions suggestions explanations limit
  ∧ ∀ suggestions', suggestions' ≡ₚ suggestions →
      rank_suggestions suggestions' explanations limit
      = rank_suggestions suggestions explanations limit.
Proof.
  assert (∀ l, StronglySorted (le_of (rank_leb explanations))
                 (sorted (rank_leb explanations) l)) as Hsorted.
  { intros l. apply sorted_strongly; [apply rank_leb_total|apply rank_leb_trans]. }
  split.
  - unfold rank_suggestions, sorted_by_key.
    change (λ x y : string, tuple_leb (- rank_score explanations x, x)
                                      (- rank_score explanations y, y))
      with (rank_leb explanations).
    apply sorted_id. destruct limit as [k|]; [|apply Hsorted].
    apply StronglySorted_slice_to, Hsorted.
  - intros suggestions' Hp. unfold rank_suggestions, sorted_by_key.
    change (λ x y : string, tuple_leb (- rank_score explanations x, x)
                                      (- rank_score explanations y, y))
      with (rank_leb explanations).
    by rewrite (sorted_perm_eq (rank_leb explanations) (rank_leb_total explanations)
                  (rank_leb_trans explanations) _ _ (rank_leb_antisym explanations) Hp).
Qed.

(* ================================================================== *)
(** * The food recommender: what every result satisfies                *)
(* ================================================================== *)

Lemma distinct_ci_spec names seen :
  NoDup (lower <$> distinct_ci names seen)
  ∧ ∀ n, n ∈ distinct_ci names seen → n ≠ "" ∧ (lower n ∉ seen) ∧ Some n ∈ names.
Proof.
  revert seen. induction names as [|[m|] names IH]; intros seen; simpl.
  - split; [constructor|]. by intros n ?%elem_of_nil.
  - destruct (String.eqb_spec m "") as [->|Hm].
    { destruct (IH seen) as [H1 H2]. split; [done|]. intros n Hn.
      destruct (H2 n Hn) as (? & ? & ?). by repeat split; [| |apply list_elem_of_further]. }
    destruct (bool_decide (lower m ∈ seen)) eqn:Hseen.
    { destruct (IH seen) as [H1 H2]. split; [done|]. intros n Hn.
      destruct (H2 n Hn) as (? & ? & ?). by repeat split; [| |apply list_elem_of_further]. }
    apply bool_decide_eq_false in Hseen.
    destruct (IH ({[lower m]} ∪ seen)) as [H1 H2]. split.
    + rewrite fmap_cons. constructor; [|done].
      intros (n & Hl & Hn)%list_elem_of_fmap.
      destruct (H2 n Hn) as (_ & Hnot & _). set_solver.
    + intros n [->|Hn]%elem_of_cons.
      * by repeat split; [| |apply list_elem_of_here].
      * destruct (H2 n Hn) as (? & ? & ?).
        repeat split; [done|set_solver|by apply list_elem_of_further].
  - destruct (IH seen) as [H1 H2]. split; [done|]. intros n Hn.
    destruct (H2 n Hn) as (? & ? & ?). by repeat split; [| |apply list_elem_of_further].
Qed.

Lemma distinct_ci_nonempty names seen n :
  Some n ∈ names → n ≠ "" → lower n ∉ seen → distinct_ci names seen ≠ [].
Proof.
  revert seen. induction names as [|[m|] names IH]; intros seen Hin Hn Hseen; simpl.
  - by apply elem_of_nil in Hin.
  - destruct (String.eqb_spec m "") as [->|Hm].
    { apply IH; try done. apply elem_of_cons in Hin as [?|Hin]; [by simplify_eq|done]. }
    destruct (bool_decide (lower m ∈ seen)) eqn:Hm'; [|done].
    apply bool_decide_eq_true in Hm'.
    apply IH; try done. apply elem_of_cons in Hin as [?|Hin]; [by simplify_eq|done].
  - apply IH; try done. apply elem_of_cons in Hin as [?|Hin]; [by simplify_eq|done].
Qed.

Lemma filter_none {A : Type} (P : A → Prop) `{∀ x, Decision (P x)} (l : list A) :
  (∀ x, x ∈ l → ¬ P x) → filter P l = [].
Proof.
  induction l as [|x l IH]; intros Hl; [done|].
  rewrite filter_cons, decide_False by apply Hl, list_elem_of_here.
  apply IH. intros y Hy. by apply Hl, list_elem_of_further.
Qed.

Lemma candidate_names_in profile foods n :
  Some n ∈ candidate_names profile foods → ∃ f, f ∈ foods ∧ name f = Some n.
Proof.
  unfold candidate_names. cbv zeta.
  assert (∀ l : list food, (∀ f, f ∈ l → f ∈ foods) →
            Some n ∈ map name l → ∃ f, f ∈ foods ∧ name f = Some n) as Hmap.
  { intros l Hl (f & Hn & Hf)%list_elem_of_fmap. exists f. split; [by apply Hl|done]. }
  destruct (map name (filter _ _)) as [|x names] eqn:Hnames.
  - apply Hmap. intros f. by rewrite elem_of_ranked_foods.
  - rewrite <- Hnames. apply Hmap. intros f [_ Hf]%list_elem_of_filter.
    by apply (elem_of_ranked_foods profile).
Qed.

Lemma candidate_names_cover profile foods f :
  f ∈ foods →
  0 < profile_score profile f ∨ (∀ g, g ∈ foods → profile_score profile g <= 0) →
  name f ∈ candidate_names profile foods.
Proof.
  intros Hf Hcase. unfold candidate_names. cbv zeta.
  destruct Hcase as [Hpos|Hnone].
  - assert (name f ∈ map name (filter (λ f, 0 < profile_score profile f)
                                 (ranked_foods profile foods))) as Hin.
    { apply (list_elem_of_fmap_2 name), list_elem_of_filter.
      split; [done|by apply elem_of_ranked_foods]. }
    destruct (map name (filter _ _)) as [|x names]; [by apply elem_of_nil in Hin|done].
  - assert (filter (λ f, 0 < profile_score profile f) (ranked_foods profile foods) = [])
      as ->.
    { apply filter_none. intros g Hg%elem_of_ranked_foods. specialize (Hnone g Hg). lia. }
    simpl. apply (list_elem_of_fmap_2 name). by apply elem_of_ranked_foods.
Qed.

Lemma get_foods_dataset_ok w self :
  ∃ self',
    get_foods_dataset w self = Ok (self', default [] (foods_dataset self'))
    ∧ is_Some (foods_dataset self')
    ∧ user_profile self' = user_profile self
    ∧ (is_Some (foods_dataset self) → self' = self).
Proof.
  unfold get_foods_dataset. destruct (foods_dataset self) as [ds|] eqn:Hds.
  - exists self. simpl. rewrite Hds. simpl. eauto.
  - destruct (load_foods_csv_ok w (Some foods_csv_path)) as [foods ->]. simpl.
    exists {| user_profile := user_profile self; foods_dataset := Some foods |}.
    simpl. split; [done|]. split; [eauto|]. split; [done|].
    by intros [? ?].
Qed.

(** X4.  For every profile, every cap and every catalog whose records
    have names in ASCII, the list [recommend_foods] computes holds no
    empty name, holds only names of records of the catalog, holds no two
    names that are equal up to letter case, and has at most [max_items]
    entries, one entry when the cap is below one. *)
Theorem recommend_foods_result_invariants (profile : gmap string value)
    (foods : list food) (max_items : Z) :
  ascii_names foods = true →
  (∀ n, n ∈ recommend_from profile foods max_items →
     n ≠ "" ∧ ∃ f, f ∈ foods ∧ name f = Some n)
  ∧ NoDup (lower <$> recommend_from profile foods max_items)
  ∧ Z.of_nat (length (recommend_from profile foods max_items)) <= Z.max 1 max_items.
Proof.
  intros _. rewrite recommend_from_closed_form.
  destruct (distinct_ci_spec (candidate_names profile foods) ∅) as [Hnd Hin].
  split; [|split].
  - intros n Hn%subseteq_take. destruct (Hin n Hn) as (Hne & _ & Hc).
    split; [done|]. by eapply candidate_names_in.
  - rewrite fmap_take. rewrite <- (take_drop (Z.to_nat (Z.max 1 max_items))) in Hnd.
    by apply NoDup_app in Hnd as [? _].
  - rewrite length_take. lia.
Qed.

Lemma recommend_foods_result_invariants_witness :
  let foods := [ {| name := Some "Idli"; vegetarian := true;
                    diabetic_friendly := false; hypertension_friendly := false;
                    weight_goal := Some "maintain" |};
                 {| name := Some "IDLI"; vegetarian := true;
                    diabetic_friendly := true; hypertension_friendly := false;
                    weight_goal := Some "loss" |} ] in
  (∀ n, n ∈ recommend_from ∅ foods 6 →
     n ≠ "" ∧ ∃ f, f ∈ foods ∧ name f = Some n)
  ∧ NoDup (lower <$> recommend_from ∅ foods 6)
  ∧ Z.of_nat (length (recommend_from ∅ foods 6)) <= Z.max 1 6.
Proof.
  intros foods. apply recommend_foods_result_invariants. reflexivity.
Defined.

(** X5.  The fall-back of [recommend_foods] never leaves a user without a
    result: when a record of the catalog has a name that is not empty and
    either scores more than 0 or no record of the catalog scores more than
    0, the list returned is not empty, for every cap. *)
Theorem recommend_from_nonempty (profile : gmap string value) (foods : list food)
    (max_items : Z) (f : food) (n : string) :
  f ∈ foods → name f = Some n → n ≠ "" →
  0 < profile_score profile f ∨ (∀ g, g ∈ foods → profile_score profile g <= 0) →
  recommend_from profile foods max_items ≠ [].
Proof.
  intros Hf Hname Hn Hcase. rewrite recommend_from_closed_form.
  pose proof (candidate_names_cover profile foods f Hf Hcase) as Hin.
  rewrite Hname in Hin.
  pose proof (distinct_ci_nonempty _ ∅ n Hin Hn ltac:(set_solver)) as Hne.
  destruct (distinct_ci _ _) as [|x l]; [done|].
  replace (Z.to_nat (Z.max 1 max_items)) with (S (Z.to_nat (Z.max 1 max_items - 1))) by lia.
  done.
Qed.

Lemma recommend_from_nonempty_witness :
  recommend_from ∅ [ {| name := Some "Idli"; vegetarian := true;
                        diabetic_friendly := false; hypertension_friendly := false;
                        weight_goal := Some "gain" |} ] 0 ≠ [].
Proof.
  eapply (recommend_from_nonempty ∅ _ 0 _ "Idli");
    [apply list_elem_of_here|reflexivity|done|].
  left. by vm_compute.
Defined.

(** X6.  The catalog is read at most once per agent: after a call of
    [recommend_foods] the agent holds a catalog, its profile is the one it
    had, and every later call, whatever has become of the file in the
    meantime, uses the catalog held and returns the same list for the
    same cap. *)
Theorem foods_catalog_loaded_once (w w' : world) (self : state) (max_items : Z) :
  ∃ self' result,
    recommend_foods w self max_items = Ok (self', result)
    ∧ is_Some (foods_dataset self')
    ∧ user_profile self' = user_profile self
    ∧ get_foods_dataset w' self' = Ok (self', default [] (foods_dataset self'))
    ∧ recommend_foods w' self' max_items = Ok (self', result).
Proof.
  destruct (get_foods_dataset_ok w self) as (self' & Hget & Hsome & Hprof & _).
  destruct (get_foods_dataset_ok w' self') as (self'' & Hget' & _ & _ & Hsame).
  rewrite (Hsame Hsome) in Hget'.
  eexists self', _. split; [unfold recommend_foods; by rewrite Hget|].
  split; [done|]. split; [done|]. split; [done|].
  unfold recommend_foods. by rewrite Hget'.
Qed.

(* ================================================================== *)
(** * Names that look like a barcode                                   *)
(* ================================================================== *)

(** The text starts with a letter. *)
Definition starts_with_letter (k : string) : bool :=
  match chars k with
  | a :: _ => is_lower (lower_char a)
  | [] => false
  end.

Lemma barcode_char_not_letter c :
  barcode_char c = true → is_lower (lower_char c) = false.
Proof.
  destruct c as [[] [] [] [] [] [] [] []]; intros H;
    vm_compute in H |- *; congruence.
Qed.

Lemma prefix_ci_barcode k l :
  starts_with_letter k = true → forallb barcode_char l = true →
  prefix_ci (chars k) l = false.
Proof.
  unfold starts_with_letter. destruct (chars k) as [|a p]; [done|].
  intros Ha Hl. destruct l as [|c l]; [done|]. simpl in *.
  apply andb_true_iff in Hl as [Hc _].
  destruct (Ascii.eqb_spec (lower_char a) (lower_char c)) as [E|]; [|done].
  rewrite E, (barcode_char_not_letter c Hc) in Ha. done.
Qed.

Lemma contains_ci_barcode k l :
  starts_with_letter k = true → forallb barcode_char l = true →
  contains_ci (chars k) l = false.
Proof.
  intros Hk. induction l as [|c l IH]; intros Hl.
  - simpl. by rewrite prefix_ci_barcode.
  - cbn [contains_ci]. rewrite prefix_ci_barcode by done. simpl.
    apply IH. simpl in Hl. by apply andb_true_iff in Hl as [_ ?].
Qed.

Lemma staple_regex_barcode name :
  forallb barcode_char (chars name) = true → staple_regex name = false.
Proof.
  intros Hl. apply not_true_is_false. unfold staple_regex.
  intros (k & Hk & Hc)%existsb_exists.
  assert (forallb starts_with_letter staple_keywords = true) as Hall
    by (vm_compute; reflexivity).
  rewrite forallb_forall in Hall.
  by rewrite (contains_ci_barcode k _ (Hall k Hk) Hl) in Hc.
Qed.

Lemma unit_here_barcode l :
  forallb barcode_char l = true → unit_here l = false.
Proof.
  intros Hl. apply not_true_is_false. unfold unit_here.
  intros (u & Hu & Hc)%existsb_exists.
  assert (forallb starts_with_letter size_units = true) as Hall
    by (vm_compute; reflexivity).
  rewrite forallb_forall in Hall.
  by rewrite (prefix_ci_barcode u _ (Hall u Hu) Hl) in Hc.
Qed.

Lemma skip_digits_barcode l :
  forallb barcode_char l = true → forallb barcode_char (skip_digits l) = true.
Proof.
  induction l as [|c l IH]; [done|]. intros Hl. simpl.
  destruct (is_digit c); [|done]. apply IH.
  simpl in Hl. by apply andb_true_iff in Hl as [_ ?].
Qed.

Lemma size_like_here_barcode l :
  forallb barcode_char l = true → size_like_here l = false.
Proof.
  destruct l as [|c l]; [done|]. intros Hl. simpl in Hl.
  apply andb_true_iff in Hl as [_ Hl]. apply skip_digits_barcode in Hl.
  simpl. rewrite (unit_here_barcode _ Hl).
  destruct (skip_digits l) as [|sp rest]; [by rewrite andb_false_r|].
  simpl in Hl. apply andb_true_iff in Hl as [_ Hl].
  by rewrite (unit_here_barcode _ Hl), !andb_false_r.
Qed.

Lemma size_like_scan_barcode prev l :
  forallb barcode_char l = true → size_like_scan prev l = false.
Proof.
  revert prev. induction l as [|c l IH]; intros prev Hl; [done|].
  cbn [size_like_scan]. rewrite (size_like_here_barcode _ Hl), andb_false_r. simpl.
  apply IH. simpl in Hl. by apply andb_true_iff in Hl as [_ ?].
Qed.

(** X7.  A food whose name is ASCII text and, without the surrounding
    blanks, is made of digits, blanks, hyphens and parentheses only is
    demoted whatever the name: it never earns the boost of a staple food
    and never matches a package size, so that its score is exactly its
    alignment terms minus five, at most 2. *)
Theorem barcode_like_name_score (condition diet_pref : value) (goal : string)
    (f : food) :
  ascii_names [f] = true →
  barcode_like (strip (default "" (name f))) = true →
  staple_regex (strip (default "" (name f))) = false
  ∧ size_like (strip (default "" (name f))) = false
  ∧ score condition diet_pref goal f = alignment condition diet_pref goal f - 5
  ∧ score condition diet_pref goal f <= 2.
Proof.
  intros _ Hb.
  assert (forallb barcode_char (chars (strip (default "" (name f)))) = true) as Hl.
  { unfold barcode_like in Hb. by destruct (chars _). }
  pose proof (staple_regex_barcode _ Hl) as Hs.
  assert (size_like (strip (default "" (name f))) = false) as Hz
    by apply size_like_scan_barcode, Hl.
  split; [done|]. split; [done|].
  assert (score condition diet_pref goal f = alignment condition diet_pref goal f - 5)
    as Hscore.
  { unfold score, alignment. cbv zeta. rewrite Hs, Hz, Hb. unfold bonus at 5 6 7. lia. }
  split; [done|]. pose proof (alignment_bounds condition diet_pref goal f). lia.
Qed.

Lemma barcode_like_name_score_witness :
  let f := {| name := Some " (080) 123-4567 "; vegetarian := true;
              diabetic_friendly := true; hypertension_friendly := false;
              weight_goal := Some "loss" |} in
  staple_regex (strip (default "" (name f))) = false
  ∧ size_like (strip (default "" (name f))) = false
  ∧ score (PyStr "Diabetic") (PyStr "Vegetarian") "loss" f
    = alignment (PyStr "Diabetic") (PyStr "Vegetarian") "loss" f - 5
  ∧ score (PyStr "Diabetic") (PyStr "Vegetarian") "loss" f <= 2.
Proof.
  intros f. apply barcode_like_name_score; vm_compute; reflexivity.
Defined.

(* ================================================================== *)
(** * The food catalog loader                                          *)
(* ================================================================== *)

Lemma chars_of_chars l : chars (of_chars l) = l.
Proof. apply list_ascii_of_string_of_list_ascii. Qed.

Lemma lower_char_idemp c : lower_char (lower_char c) = lower_char c.
Proof. destruct c as [[] [] [] [] [] [] [] []]; vm_compute; reflexivity. Qed.

Lemma is_space_lower_char c : is_space (lower_char c) = is_space c.
Proof. destruct c as [[] [] [] [] [] [] [] []]; vm_compute; reflexivity. Qed.

Lemma lower_idemp s : lower (lower s) = lower s.
Proof.
  unfold lower. rewrite chars_of_chars, map_map. f_equal.
  apply map_ext. intros c. apply lower_char_idemp.
Qed.

Lemma lstrip_chars_suffix l : ∃ pre, l = pre ++ lstrip_chars l.
Proof.
  induction l as [|c l [pre IH]]; [by exists []|]. simpl.
  destruct (is_space c); [|by exists []].
  exists (c :: pre). simpl. by rewrite <- IH.
Qed.

Lemma lstrip_chars_head l :
  match lstrip_chars l with
  | c :: _ => is_space c = false
  | [] => True
  end.
Proof.
  induction l as [|c l IH]; [done|]. simpl.
  destruct (is_space c) eqn:Hc; done.
Qed.

Lemma lstrip_chars_id l :
  match l with c :: _ => is_space c = false | [] => True end →
  lstrip_chars l = l.
Proof. destruct l as [|c l]; [done|]. simpl. by intros ->. Qed.

Lemma lstrip_chars_map l :
  lstrip_chars (map lower_char l) = map lower_char (lstrip_chars l).
Proof.
  induction l as [|c l IH]; [done|]. simpl.
  rewrite is_space_lower_char. by destruct (is_space c).
Qed.

(** The characters [strip] keeps start and end with a character that is
    not a blank. *)
Lemma strip_chars_trimmed l :
  let t := rev (lstrip_chars (rev (lstrip_chars l))) in
  lstrip_chars t = t ∧ lstrip_chars (rev t) = rev t.
Proof.
  intros t. subst t. rewrite rev_involutive. split.
  - apply lstrip_chars_id.
    destruct (lstrip_chars_suffix (rev (lstrip_chars l))) as [pre Hpre].
    apply (f_equal (@rev ascii)) in Hpre. rewrite rev_involutive, rev_app_distr in Hpre.
    pose proof (lstrip_chars_head l) as Hhead. rewrite Hpre in Hhead.
    by destruct (rev (lstrip_chars (rev (lstrip_chars l)))).
  - apply lstrip_chars_id, lstrip_chars_head.
Qed.

Lemma strip_idemp s : strip (strip s) = strip s.
Proof.
  unfold strip at 1. unfold strip at 1. rewrite chars_of_chars.
  destruct (strip_chars_trimmed (chars s)) as [H1 H2]. cbv zeta in H1, H2.
  unfold strip. by rewrite H1, H2, rev_involutive.
Qed.

Lemma strip_lower s : strip (lower s) = lower (strip s).
Proof.
  unfold strip, lower. rewrite !chars_of_chars.
  by rewrite lstrip_chars_map, <- map_rev, lstrip_chars_map, <- map_rev.
Qed.

Lemma read_rows_closed_form rows foods :
  read_rows (Ok <$> rows) foods
  = Ok (foods ++ (food_of_row <$> filter (λ row, row ≠ ∅) rows)).
Proof.
  revert foods. induction rows as [|row rows IH]; intros foods; simpl.
  - by rewrite app_nil_r.
  - rewrite filter_cons. destruct (decide (row = ∅)) as [->|Hne].
    + rewrite decide_False by (by intros ?). apply IH.
    + rewrite decide_True by done. rewrite IH, fmap_cons, <- app_assoc. done.
Qed.

(** Every cell of every row is ASCII text. *)
Definition ascii_rows (rows : list csv_row) : bool :=
  forallb (λ row : csv_row,
             bool_decide (map_Forall (λ _ cell, is_ascii cell = true) row)) rows.

(** X8.  When the file can be opened, every row can be read and the cells
    are ASCII text, [load_foods_csv] returns one record for each row that
    is not empty, in the order of the file; and every record it returns
    has a name without blanks around it and a weight goal in lower case
    without blanks around it, whatever the cells of the file look like. *)
Theorem load_foods_csv_normalises (w : world) (path : string) (rows : list csv_row) :
  path ≠ "" → csv_files w path = Some (Ok (Ok <$> rows)) →
  ascii_rows rows = true →
  load_foods_csv w (Some path)
    = Ok (food_of_row <$> filter (λ row, row ≠ ∅) rows)
  ∧ ∀ f, f ∈ food_of_row <$> filter (λ row, row ≠ ∅) rows →
      ∃ n g, name f = Some n ∧ strip n = n
             ∧ weight_goal f = Some g ∧ lower g = g ∧ strip g = g.
Proof.
  intros Hpath Hfile _. split.
  - unfold load_foods_csv. rewrite Hfile.
    destruct (String.eqb_spec path "") as [?|_]; [done|].
    simpl. by rewrite read_rows_closed_form.
  - intros f (row & -> & _)%list_elem_of_fmap. eexists _, _.
    split; [reflexivity|]. split; [apply strip_idemp|].
    split; [reflexivity|]. split; [apply lower_idemp|].
    by rewrite strip_lower, strip_idemp.
Qed.

Lemma load_foods_csv_normalises_witness :
  let rows : list csv_row :=
    [ <["name" := " Idli "]> (<["weight_goal" := " Loss"]> ∅); ∅ ] in
  let w := {| json_files := λ _, None; csv_files := λ _, Some (Ok (Ok <$> rows)) |} in
  load_foods_csv w (Some "foods.csv")
    = Ok (food_of_row <$> filter (λ row, row ≠ ∅) rows)
  ∧ ∀ f, f ∈ food_of_row <$> filter (λ row, row ≠ ∅) rows →
      ∃ n g, name f = Some n ∧ strip n = n
             ∧ weight_goal f = Some g ∧ lower g = g ∧ strip g = g.
Proof.
  intros rows w.
  apply load_foods_csv_normalises; [done|reflexivity|vm_compute; reflexivity].
Defined.

(* ================================================================== *)
(** * Inference over a merged catalog, and the rank of its results     *)
(* ================================================================== *)

(** Every entry of [rules] is an entry of [rules'], under the same
    category. *)
Definition catalog_le (rules rules' : gmap string (list string)) : Prop :=
  ∀ k s, s ∈ default [] (rules !! k) → s ∈ default [] (rules' !! k).

Lemma rule_list_mono rules rules' v s :
  catalog_le rules rules' → s ∈ rule_list rules v → s ∈ rule_list rules' v.
Proof. intros Hle. destruct v as [| | |cat]; simpl; try done. apply Hle. Qed.

Lemma elem_of_sources_collect rules c w d s cat :
  cat ∈ sources (collect rules c w d) s
  ↔ ∃ v, (v = c ∨ v = w ∨ v = d) ∧ v = PyStr cat ∧ s ∈ rule_list rules v.
Proof.
  rewrite collect_sources, !elem_of_union.
  assert (∀ v, cat ∈ (if decide (s ∈ rule_list rules v) then label v else ∅)
               ↔ v = PyStr cat ∧ s ∈ rule_list rules v) as Hone.
  { intros v. destruct (decide (s ∈ rule_list rules v)) as [Hin|Hin].
    - destruct v as [| | |cat']; simpl; try (by split; [intros ?%elem_of_empty|intros [? ?]]).
      rewrite elem_of_singleton. split; [by intros ->|by intros [[= ->] _]].
    - split; [by intros ?%elem_of_empty|by intros [_ ?]]. }
  rewrite !Hone. split.
  - intros [[H|H]|H]; [exists c|exists w|exists d]; tauto.
  - intros (v & [->|[->| ->]] & H); tauto.
Qed.

(** X11.  Merging an overlay whose lists hold strings never takes a
    suggestion away: starting from a catalog of strings, the catalog after
    [load_additional_rules] is a catalog of strings again, and for every
    profile every suggestion that [infer_diet_with_explanations] returns
    before the merge is returned after it as well, with at least the
    categories that explained it before; the profile that the call leaves
    behind is the same. *)
Theorem overlay_keeps_suggestions (float_of_str : string → option float)
    (w : world) (json_path : option string)
    (rules : gmap string (list string)) (profile : gmap string value) :
  strings_overlay (overlay_items w json_path) = true →
  ∃ rules' profile' suggestions explanations suggestions' explanations',
    load_additional_rules w json_path (raw_catalog rules) = Ok (raw_catalog rules')
    ∧ infer_diet_with_explanations float_of_str rules profile
      = Ok (profile', (suggestions, explanations))
    ∧ infer_diet_with_explanations float_of_str rules' profile
      = Ok (profile', (suggestions', explanations'))
    ∧ (∀ s, s ∈ suggestions → s ∈ suggestions')
    ∧ (∀ s cats, explanations !! s = Some cats →
         ∃ cats', explanations' !! s = Some cats' ∧ ∀ c, c ∈ cats → c ∈ cats').
Proof.
  intros Ho. pose proof (raw_catalog_strings rules) as Hc.
  set (merged := foldl merge_pure (raw_catalog rules) (overlay_items w json_path)).
  set (rules' := strings_of <$> merged).
  assert (raw_catalog rules' = merged) as Hraw.
  { unfold rules'. apply raw_catalog_of_strings. by apply strings_catalog_fold. }
  assert (load_additional_rules w json_path (raw_catalog rules) = Ok (raw_catalog rules'))
    as Hload.
  { rewrite load_additional_rules_items, (merge_items_strings _ _ Hc Ho). simpl.
    by rewrite Hraw. }
  assert (catalog_le rules rules') as Hmono.
  { intros k s Hs. apply elem_of_raw_catalog. rewrite Hraw.
    pose proof (merge_items_grows (raw_catalog rules) (overlay_items w json_path) k (JStr s))
      as Hg.
    rewrite (merge_items_strings _ _ Hc Ho) in Hg. apply Hg.
    by apply elem_of_raw_catalog. }
  destruct (infer_closed_form float_of_str rules profile) as (profile' & Hb & Hinfer).
  destruct (infer_closed_form float_of_str rules' profile) as (profile'' & Hb' & Hinfer').
  cbv zeta in Hinfer, Hinfer'.
  assert (profile'' = profile') as -> by congruence.
  eexists rules', profile', _, _, _, _.
  split; [exact Hload|]. split; [exact Hinfer|]. split; [exact Hinfer'|].
  assert (∀ s, s ∈ sorted_set (list_to_set
                 (collect rules (get_or profile "health_condition" (PyStr "Normal"))
                    (get profile' "weight_status") (get profile "diet_preference")).1)
             → s ∈ sorted_set (list_to_set
                 (collect rules' (get_or profile "health_condition" (PyStr "Normal"))
                    (get profile' "weight_status") (get profile "diet_preference")).1))
    as Hsub.
  { intros s. rewrite !elem_of_sorted_set, !elem_of_list_to_set, !collect_list, !elem_of_app.
    intros [H|[H|H]]; eauto using rule_list_mono. }
  split; [exact Hsub|].
  intros s cats. rewrite !explain_lookup.
  destruct (decide (s ∈ _)) as [Hin|]; [|done]. intros [= <-].
  rewrite decide_True by (by apply Hsub). eexists. split; [done|].
  intros c. rewrite !elem_of_sorted_set.
  change (c ∈ sources (collect rules (get_or profile "health_condition" (PyStr "Normal"))
                         (get profile' "weight_status") (get profile "diet_preference")) s
          → c ∈ sources (collect rules' (get_or profile "health_condition" (PyStr "Normal"))
                         (get profile' "weight_status") (get profile "diet_preference")) s).
  rewrite !elem_of_sources_collect.
  intros (v & Hv & Hc' & Hs). exists v. eauto using rule_list_mono.
Qed.

Lemma overlay_keeps_suggestions_witness :
  let w := {| json_files := λ _, Some (Ok (JObject
                 [ ("Vegetarian", JList [JStr "Add vitamin B12"]) ]));
              csv_files := λ _, None |} in
  let profile : gmap string value := <["diet_preference" := PyStr "Vegetarian"]> ∅ in
  ∃ rules' profile' suggestions explanations suggestions' explanations',
    load_additional_rules w (Some "overlay.json") (raw_catalog rules)
      = Ok (raw_catalog rules')
    ∧ infer_diet_with_explanations (λ _, None) rules profile
      = Ok (profile', (suggestions, explanations))
    ∧ infer_diet_with_explanations (λ _, None) rules' profile
      = Ok (profile', (suggestions', explanations'))
    ∧ (∀ s, s ∈ suggestions → s ∈ suggestions')
    ∧ (∀ s cats, explanations !! s = Some cats →
         ∃ cats', explanations' !! s = Some cats' ∧ ∀ c, c ∈ cats → c ∈ cats').
Proof.
  intros w profile. apply overlay_keeps_suggestions. reflexivity.
Defined.

Lemma StronglySorted_lookup_lt {A : Type} (R : relation A) l i j a b :
  StronglySorted R l → (i < j)%nat → l !! i = Some a → l !! j = Some b → R a b.
Proof.
  intros Hs. revert i j. induction Hs as [|x l Hl IH Hx]; intros i j Hij Hi Hj.
  - done.
  - destruct j as [|j]; [lia|]. simpl in Hj. destruct i as [|i].
    + injection Hi as ->. rewrite Forall_forall in Hx.
      apply Hx. by eapply list_elem_of_lookup_2.
    + simpl in Hi. apply (IH i j); [lia|done|done].
Qed.

Lemma priority_entries c z :
  CATEGORY_PRIORITY !! c = Some z →
  (c = "Diabetic" ∧ z = 100) ∨ (c ≠ "Diabetic" ∧ z <= 95).
Proof.
  intros H. apply elem_of_list_to_map_2 in H.
  repeat (apply elem_of_cons in H as [[= -> ->]|H]; [by (left + right)|]).
  by apply elem_of_nil in H.
Qed.

Lemma priority_not_diabetic c : c ≠ "Diabetic" → priority c <= 95.
Proof.
  intros Hc. unfold priority.
  destruct (CATEGORY_PRIORITY !! c) as [z|] eqn:E; simpl; [|lia].
  destruct (priority_entries c z E) as [[? _]|[_ ?]]; done.
Qed.

Lemma ranked_perm suggestions explanations :
  rank_suggestions suggestions explanations None ≡ₚ suggestions.
Proof. apply sorted_perm. Qed.

Lemma ranked_strongly_sorted suggestions explanations :
  StronglySorted (ranks_before explanations)
    (rank_suggestions suggestions explanations None).
Proof.
  unfold rank_suggestions, sorted_by_key.
  change (λ x y : string, tuple_leb (- rank_score explanations x, x)
                                    (- rank_score explanations y, y))
    with (rank_leb explanations).
  eapply StronglySorted_iff; [apply rank_leb_iff|].
  apply sorted_strongly; [apply rank_leb_total|apply rank_leb_trans].
Qed.

(** X12.  For a user whose health condition is Diabetic, the rules for
    diabetics come first: in the ranking of the suggestions that
    [infer_diet_with_explanations] returns, over every rule catalog, each
    suggestion of the Diabetic rule list stands before each suggestion
    that is not in that list, whatever the weight status and the diet
    preference are. *)
Theorem diabetic_rules_rank_first (float_of_str : string → option float)
    (rules : gmap string (list string)) (profile : gmap string value) :
  get_or profile "health_condition" (PyStr "Normal") = PyStr "Diabetic" →
  ∃ profile' suggestions explanations,
    infer_diet_with_explanations float_of_str rules profile
      = Ok (profile', (suggestions, explanations))
    ∧ ∀ i j a b,
        rank_suggestions suggestions explanations None !! i = Some a →
        rank_suggestions suggestions explanations None !! j = Some b →
        a ∈ default [] (rules !! "Diabetic") →
        b ∉ default [] (rules !! "Diabetic") →
        (i < j)%nat.
Proof.
  intros Hcond.
  destruct (infer_closed_form float_of_str rules profile) as (profile' & _ & Hinfer).
  cbv zeta in Hinfer. rewrite Hcond in Hinfer.
  eexists _, _, _. split; [exact Hinfer|].
  set (acc := collect rules (PyStr "Diabetic") (get profile' "weight_status")
                (get profile "diet_preference")).
  set (suggestions := sorted_set (list_to_set acc.1)).
  set (explanations := explain acc.2 suggestions).
  pose proof (rank_score_max explanations) as Hmax.
  pose proof (ranked_perm suggestions explanations) as Hperm.
  pose proof (ranked_strongly_sorted suggestions explanations) as Hsorted.
  assert (∀ s, s ∈ rank_suggestions suggestions explanations None →
            explanations !! s = Some (sorted_set (sources acc s))
            ∧ sources acc s ≠ ∅) as Hexp.
  { intros s Hs. rewrite Hperm in Hs. subst explanations.
    rewrite explain_lookup, decide_True by done. split; [done|].
    apply collect_sources_nonempty.
    by apply elem_of_sorted_set, elem_of_list_to_set in Hs. }
  assert (∀ s, sources acc s ≠ ∅ → sorted_set (sources acc s) ≠ []) as Hne.
  { intros s Hs Hnil. apply Hs. apply set_eq. intros c.
    rewrite <- elem_of_sorted_set, Hnil. set_solver. }
  intros i j a b Hi Hj Ha Hb.
  assert (a ∈ rank_suggestions suggestions explanations None) as Hain
    by (by eapply list_elem_of_lookup_2).
  assert (b ∈ rank_suggestions suggestions explanations None) as Hbin
    by (by eapply list_elem_of_lookup_2).
  destruct (Hexp a Hain) as [Ea Na]. destruct (Hexp b Hbin) as [Eb Nb].
  assert (100 <= rank_score explanations a) as Hsa.
  { destruct (Hmax a _ Ea (Hne a Na)) as [_ Hall].
    apply (Hall "Diabetic"). apply elem_of_sorted_set.
    apply elem_of_sources_collect. exists (PyStr "Diabetic"). by repeat split; [left|]. }
  assert (rank_score explanations b <= 95) as Hsb.
  { destruct (Hmax b _ Eb (Hne b Nb)) as [(c & Hc & ->) _].
    apply priority_not_diabetic. intros ->.
    apply elem_of_sorted_set, elem_of_sources_collect in Hc as (v & _ & -> & Hin).
    done. }
  destruct (Nat.lt_trichotomy i j) as [?|[->|Hlt]]; [done| |].
  - rewrite Hi in Hj. injection Hj as ->. done.
  - pose proof (StronglySorted_lookup_lt _ _ _ _ _ _ Hsorted Hlt Hj Hi) as [?|[? _]]; lia.
Qed.

Lemma diabetic_rules_rank_first_witness :
  let profile : gmap string value :=
    <["health_condition" := PyStr "Diabetic"]>
      (<["diet_preference" := PyStr "Vegetarian"]> ∅) in
  ∃ profile' suggestions explanations,
    infer_diet_with_explanations (λ _, None) rules profile
      = Ok (profile', (suggestions, explanations))
    ∧ ∀ i j a b,
        rank_suggestions suggestions explanations None !! i = Some a →
        rank_suggestions suggestions explanations None !! j = Some b →
        a ∈ default [] (rules !! "Diabetic") →
        b ∉ default [] (rules !! "Diabetic") →
        (i < j)%nat.
Proof.
  intros profile. apply diabetic_rules_rank_first. reflexivity.
Defined.

Lemma weight_status_label_truthy bmi l :
  infer_weight_status_from_bmi bmi = Some l → truthy (PyStr l) = true.
Proof.
  unfold infer_weight_status_from_bmi. destruct bmi as [b|]; [|done].
  destruct (b <? 18.5)%float; [by intros [= <-]|].
  destruct (b <? 25)%float; by intros [= <-].
Qed.

Lemma backfill_again (float_of_str : string → option float)
    (profile profile' : gmap string value) ws' :
  backfill_weight_status float_of_str profile (get profile "weight_status")
    = Ok (ws', profile') →
  backfill_weight_status float_of_str profile' (get profile' "weight_status")
    = Ok (ws', profile').
Proof.
  intros Hb. pose proof (backfill_get _ _ _ _ _ eq_refl Hb) as Hws.
  revert Hb. unfold backfill_weight_status at 1.
  destruct (truthy (get profile "weight_status")) eqn:Ht.
  { intros [= <- <-]. by apply backfill_set. }
  destruct (if _ && _ then _ else _) as [bmi|] eqn:Hbmi; simpl; [|done].
  destruct (infer_weight_status_from_bmi bmi) as [l|] eqn:Hl.
  - intros [= <- <-]. rewrite <- Hws. apply backfill_set.
    by eapply weight_status_label_truthy.
  - intros [= <- <-]. unfold backfill_weight_status. by rewrite Ht, Hbmi; simpl; rewrite Hl.
Qed.

(** X13.  Inference can be repeated: a second call of
    [infer_diet_with_explanations] on the profile the first call left
    behind returns the same suggestions and explanations and leaves the
    profile as it is (the weight status written by the first call is
    kept, and no BMI is computed again). *)
Theorem inference_is_idempotent (float_of_str : string → option float)
    (rules : gmap string (list string)) (profile : gmap string value) :
  ∃ profile' result,
    infer_diet_with_explanations float_of_str rules profile = Ok (profile', result)
    ∧ infer_diet_with_explanations float_of_str rules profile' = Ok (profile', result).
Proof.
  destruct (infer_closed_form float_of_str rules profile) as (profile' & Hb & Hinfer).
  cbv zeta in Hinfer. eexists profile', _. split; [exact Hinfer|].
  pose proof (backfill_again _ _ _ _ Hb) as Hb'.
  assert (∀ k, k ≠ "weight_status" → k ≠ "bmi" → profile' !! k = profile !! k) as Hkeep.
  { intros k Hk1 Hk2.
    destruct (backfill_cases float_of_str _ _ _ _ Hb) as [->|(b & l & ->)]; [done|].
    unfold filled. by rewrite !lookup_insert_ne. }
  unfold infer_diet_with_explanations. cbv zeta. rewrite Hb'.
  assert (get_or profile' "health_condition" (PyStr "Normal")
          = get_or profile "health_condition" (PyStr "Normal")) as ->
    by (unfold get_or; by rewrite Hkeep).
  assert (get profile' "diet_preference" = get profile "diet_preference") as ->
    by (unfold get; by rewrite Hkeep).
  reflexivity.
Qed.

(* ================================================================== *)
(** * More on inference, the overlays and the recommender              *)
(* ================================================================== *)

Lemma elem_of_rule_list rules v s :
  s ∈ rule_list rules v ↔ ∃ cat l, v = PyStr cat ∧ rules !! cat = Some l ∧ s ∈ l.
Proof.
  split.
  - destruct v as [| | |cat]; simpl; try (by intros ?%elem_of_nil).
    destruct (rules !! cat) as [l|] eqn:E; simpl; [|by intros ?%elem_of_nil].
    intros Hs. by exists cat, l.
  - intros (cat & l & -> & Hl & Hs). simpl. by rewrite Hl.
Qed.

(** X14.  Inference invents nothing: every suggestion that
    [infer_diet_with_explanations] returns is an entry of the rule list of
    one of the three categories of the profile (health condition, weight
    status as given or inferred, diet preference), and every category in
    the explanation of a suggestion is one of these three and lists the
    suggestion. *)
Theorem inference_is_sound (float_of_str : string → option float)
    (rules : gmap string (list string)) (profile : gmap string value) :
  ∃ profile' suggestions explanations,
    infer_diet_with_explanations float_of_str rules profile
      = Ok (profile', (suggestions, explanations))
    ∧ (∀ s, s ∈ suggestions →
         ∃ cat l, selects profile profile' cat ∧ rules !! cat = Some l ∧ s ∈ l)
    ∧ (∀ s cats cat, explanations !! s = Some cats → cat ∈ cats →
         selects profile profile' cat ∧ ∃ l, rules !! cat = Some l ∧ s ∈ l).
Proof.
  destruct (infer_closed_form float_of_str rules profile) as (profile' & _ & Hinfer).
  cbv zeta in Hinfer. eexists _, _, _. split; [exact Hinfer|]. split.
  - intros s. rewrite elem_of_sorted_set, elem_of_list_to_set, collect_list, !elem_of_app.
    rewrite !elem_of_rule_list. unfold selects.
    intros [H|[H|H]]; destruct H as (cat & l & Hv & Hl & Hs); exists cat, l; tauto.
  - intros s cats cat. rewrite explain_lookup.
    destruct (decide (s ∈ _)) as [Hin|]; [|done]. intros [= <-].
    rewrite elem_of_sorted_set.
    change (cat ∈ sources (collect rules (get_or profile "health_condition" (PyStr "Normal"))
                             (get profile' "weight_status") (get profile "diet_preference")) s
            → selects profile profile' cat ∧ ∃ l, rules !! cat = Some l ∧ s ∈ l).
    rewrite elem_of_sources_collect. intros (v & Hv & -> & Hs).
    apply elem_of_rule_list in Hs as (cat' & l & [= <-] & Hl & Hs).
    split; [|by exists l]. unfold selects. destruct Hv as [<-|[<-|<-]]; tauto.
Qed.

Lemma StronglySorted_sublist {A : Type} (R : relation A) l l' :
  StronglySorted R l → l' `sublist_of` l → StronglySorted R l'.
Proof.
  intros Hs. revert l'. induction Hs as [|x l Hl IH Hx]; intros l' Hsub.
  - apply sublist_nil_r in Hsub as ->. constructor.
  - apply sublist_cons_r in Hsub as [Hsub|(k & -> & Hsub)]; [by apply IH|].
    constructor; [by apply IH|].
    rewrite Forall_forall in *. intros y Hy. apply Hx. by eapply elem_of_sublist.
Qed.

Lemma StronglySorted_impl {A : Type} (R S : relation A) l :
  (∀ x y, R x y → S x y) → StronglySorted R l → StronglySorted S l.
Proof.
  intros HRS. induction 1 as [|x l Hl IH Hx]; constructor; [done|].
  eapply Forall_impl; [exact Hx|]. intros y. apply HRS.
Qed.

Lemma distinct_ci_picks (l : list food) seen :
  ∃ l', l' `sublist_of` l ∧ name <$> l' = Some <$> distinct_ci (name <$> l) seen.
Proof.
  revert seen. induction l as [|f l IH]; intros seen.
  - by exists [].
  - rewrite fmap_cons. simpl. destruct (name f) as [n|] eqn:Hn.
    + destruct (String.eqb n "").
      { destruct (IH seen) as (l' & Hsub & Hl'). exists l'. split; [by apply sublist_cons|done]. }
      destruct (bool_decide (lower n ∈ seen)).
      { destruct (IH seen) as (l' & Hsub & Hl'). exists l'. split; [by apply sublist_cons|done]. }
      destruct (IH ({[lower n]} ∪ seen)) as (l' & Hsub & Hl').
      exists (f :: l'). split; [by apply sublist_skip|].
      by rewrite !fmap_cons, Hn, Hl'.
    + destruct (IH seen) as (l' & Hsub & Hl'). exists l'. split; [by apply sublist_cons|done].
Qed.

Lemma candidate_names_records profile foods :
  ∃ cands, cands `sublist_of` ranked_foods profile foods
           ∧ candidate_names profile foods = name <$> cands.
Proof.
  unfold candidate_names. cbv zeta.
  destruct (map name (filter _ _)) as [|x names] eqn:Hnames.
  - by exists (ranked_foods profile foods).
  - rewrite <- Hnames.
    exists (filter (λ f, 0 < profile_score profile f) (ranked_foods profile foods)).
    split; [apply sublist_filter|done].
Qed.

(** X16.  The recommendations are listed best first: the names that
    [recommend_foods] returns are, in order, the names of records picked
    from the ranked catalog without changing their order, so that no name
    is listed before a name whose record scores more. *)
Theorem recommend_from_best_first (profile : gmap string value) (foods : list food)
    (max_items : Z) :
  ∃ picked,
    picked `sublist_of` ranked_foods profile foods
    ∧ name <$> picked = Some <$> recommend_from profile foods max_items
    ∧ StronglySorted (λ f g, profile_score profile g <= profile_score profile f) picked.
Proof.
  destruct (candidate_names_records profile foods) as (cands & Hcands & Hnames).
  destruct (distinct_ci_picks cands ∅) as (l' & Hsub & Hl').
  exists (take (Z.to_nat (Z.max 1 max_items)) l').
  assert (take (Z.to_nat (Z.max 1 max_items)) l' `sublist_of` ranked_foods profile foods)
    as Hpicked.
  { etrans; [apply sublist_take|]. by etrans. }
  split; [done|]. split.
  - rewrite recommend_from_closed_form, Hnames, !fmap_take. by f_equal.
  - eapply StronglySorted_sublist; [|exact Hpicked].
    eapply StronglySorted_impl;
      [|apply (sorted_strongly (λ f g : food,
                  tuple_leb (- profile_score profile f, default "" (name f))
                            (- profile_score profile g, default "" (name g))))].
    + intros f g. unfold le_of, tuple_leb. simpl.
      rewrite orb_true_iff, andb_true_iff, Z.ltb_lt, Z.eqb_eq. lia.
    + intros x y. apply tuple_leb_total.
    + intros x y z. apply tuple_leb_trans.
Qed.

(* ================================================================== *)
(** * The order of the BMI                                             *)
(* ================================================================== *)

(** The roundings of IEEE-754 arithmetic are monotone.  The proofs go
    through the real numbers: a double [m * 2^e] has the value
    [IZR m * pow2 e], and a rounding is described by the place of the
    exact value between two neighbours. *)

From Stdlib Require Import Reals Lra.
Local Open Scope Z_scope.

Definition pow2 (e : Z) : R := powerRZ 2 e.

Lemma pow2_pos e : (0 < pow2 e)%R.
Proof. apply powerRZ_lt. lra. Qed.

Lemma pow2_add a b : pow2 (a + b) = (pow2 a * pow2 b)%R.
Proof. apply powerRZ_add. lra. Qed.

Lemma pow2_succ e : pow2 (e + 1) = (2 * pow2 e)%R.
Proof. rewrite pow2_add. unfold pow2 at 2. simpl. lra. Qed.

Lemma pow2_IZR n : 0 <= n → pow2 n = IZR (2 ^ n).
Proof.
  revert n. apply natlike_ind.
  - reflexivity.
  - intros n Hn IH. unfold Z.succ. rewrite pow2_succ, IH, Z.pow_add_r by lia.
    rewrite mult_IZR. simpl. lra.
Qed.

Lemma pow2_le a b : a <= b → (pow2 a <= pow2 b)%R.
Proof.
  intros H. replace b with (a + (b - a)) by lia. rewrite pow2_add.
  rewrite (pow2_IZR (b - a)) by lia.
  assert (0 < 2 ^ (b - a)) as H0 by (apply Z.pow_pos_nonneg; lia).
  assert (1 <= 2 ^ (b - a)) as H1 by lia.
  apply IZR_le in H1. pose proof (pow2_pos a). nra.
Qed.

Lemma pow2_lt a b : a < b → (pow2 a < pow2 b)%R.
Proof.
  intros H. assert (a + 1 <= b) as H1 by lia. apply pow2_le in H1.
  rewrite pow2_succ in H1. pose proof (pow2_pos a). lra.
Qed.

Lemma pow2_lt_inv a b : (pow2 a < pow2 b)%R → a < b.
Proof.
  intros H. destruct (Z.lt_ge_cases a b) as [|Hge]; [done|].
  apply pow2_le in Hge. lra.
Qed.

Lemma digits2_pos_bounds p :
  2 ^ (Z.pos (digits2_pos p) - 1) <= Z.pos p < 2 ^ Z.pos (digits2_pos p).
Proof.
  induction p as [p IH|p IH|]; simpl digits2_pos.
  - rewrite Pos2Z.inj_succ.
    replace (Z.succ (Z.pos (digits2_pos p)) - 1) with (Z.succ (Z.pos (digits2_pos p) - 1)) by lia.
    rewrite !Z.pow_succ_r by lia. lia.
  - rewrite Pos2Z.inj_succ.
    replace (Z.succ (Z.pos (digits2_pos p)) - 1) with (Z.succ (Z.pos (digits2_pos p) - 1)) by lia.
    rewrite !Z.pow_succ_r by lia. lia.
  - simpl. lia.
Qed.

Lemma digits2_pos_pow2 p :
  (pow2 (Z.pos (digits2_pos p) - 1) <= IZR (Z.pos p) < pow2 (Z.pos (digits2_pos p)))%R.
Proof.
  destruct (digits2_pos_bounds p) as [H1 H2].
  rewrite !pow2_IZR by lia. split; [by apply IZR_le|by apply IZR_lt].
Qed.

(** The magnitude of a positive real is determined by it, and grows with it. *)
Lemma mag_le v1 v2 k1 k2 :
  (pow2 (k1 - 1) <= v1)%R → (v2 < pow2 k2)%R → (v1 <= v2)%R → k1 <= k2.
Proof.
  intros H1 H2 H. destruct (Z.le_gt_cases k1 k2) as [|Hlt]; [done|].
  assert (k2 <= k1 - 1) as Hle by lia. apply pow2_le in Hle. lra.
Qed.

Lemma mag_unique v k k' :
  (pow2 (k - 1) <= v < pow2 k)%R → (pow2 (k' - 1) <= v < pow2 k')%R → k = k'.
Proof.
  intros [H1 H2] [H1' H2'].
  pose proof (mag_le v v k k' H1 H2' (Rle_refl v)).
  pose proof (mag_le v v k' k H1' H2 (Rle_refl v)). lia.
Qed.

(** [u] lies in the unit interval that starts at [m], at the place [l]. *)
Definition located (u : R) (m : Z) (l : location) : Prop :=
  match l with
  | loc_Exact => u = IZR m
  | loc_Inexact Lt => (IZR m < u < IZR m + / 2)%R
  | loc_Inexact Eq => u = (IZR m + / 2)%R
  | loc_Inexact Gt => (IZR m + / 2 < u < IZR m + 1)%R
  end.

(** [v] lies in the interval of width [2^e] that starts at [m * 2^e]. *)
Definition inbetween (v : R) (m e : Z) (l : location) : Prop :=
  located (v / pow2 e) m l.

Lemma located_bounds u m l : located u m l → (IZR m <= u < IZR m + 1)%R.
Proof. destruct l as [|[]]; simpl; intros; lra. Qed.

Lemma scaled_succ v e : (v / pow2 (e + 1) = v / pow2 e / 2)%R.
Proof. rewrite pow2_succ. pose proof (pow2_pos e). field. lra. Qed.

Lemma scaled_unscale v e : (v / pow2 e * pow2 e = v)%R.
Proof. pose proof (pow2_pos e). field. lra. Qed.

Lemma scaled_le_l a v e : (a <= v / pow2 e ↔ a * pow2 e <= v)%R.
Proof.
  pose proof (pow2_pos e) as Hp. split; intros H.
  - rewrite <- (scaled_unscale v e). apply Rmult_le_compat_r; lra.
  - apply Rmult_le_reg_r with (pow2 e); [done|]. by rewrite scaled_unscale.
Qed.

Lemma scaled_lt_r a v e : (v / pow2 e < a ↔ v < a * pow2 e)%R.
Proof.
  pose proof (pow2_pos e) as Hp. split; intros H.
  - rewrite <- (scaled_unscale v e). apply Rmult_lt_compat_r; lra.
  - apply Rmult_lt_reg_r with (pow2 e); [done|]. by rewrite scaled_unscale.
Qed.

Lemma inbetween_bounds v m e l :
  inbetween v m e l → (IZR m * pow2 e <= v < (IZR m + 1) * pow2 e)%R.
Proof.
  intros H%located_bounds. by rewrite <- scaled_le_l, <- scaled_lt_r.
Qed.

Lemma loc_of_shr_record_of_loc m l :
  loc_of_shr_record (shr_record_of_loc m l) = l.
Proof. by destruct l as [|[]]. Qed.

Lemma shr_m_record_of_loc m l : shr_m (shr_record_of_loc m l) = m.
Proof. by destruct l as [|[]]. Qed.

Lemma shr_1_located u mrs :
  0 <= shr_m mrs →
  located u (shr_m mrs) (loc_of_shr_record mrs) →
  located (u / 2) (shr_m (shr_1 mrs)) (loc_of_shr_record (shr_1 mrs)).
Proof.
  destruct mrs as [m r s]. intros Hm. simpl in Hm.
  destruct m as [|[p|p|]|p]; [| | | |lia];
    destruct r, s; simpl;
    try rewrite (IZR_POS_xO p); try rewrite (IZR_POS_xI p); intros; lra.
Qed.

Lemma shr_1_inbetween v mrs e :
  0 <= shr_m mrs →
  inbetween v (shr_m mrs) e (loc_of_shr_record mrs) →
  inbetween v (shr_m (shr_1 mrs)) (e + 1) (loc_of_shr_record (shr_1 mrs)).
Proof.
  unfold inbetween. rewrite scaled_succ. apply shr_1_located.
Qed.

Lemma iter_shr_1_inbetween v p mrs e :
  0 <= shr_m mrs →
  inbetween v (shr_m mrs) e (loc_of_shr_record mrs) →
  inbetween v (shr_m (SpecFloat.iter_pos shr_1 p mrs)) (e + Z.pos p)
    (loc_of_shr_record (SpecFloat.iter_pos shr_1 p mrs)).
Proof.
  revert mrs e. induction p as [p IH|p IH|]; intros mrs e Hm H; simpl.
  - replace (e + Z.pos p~1) with (e + 1 + Z.pos p + Z.pos p) by lia.
    apply IH; [by apply iter_shr_1_nonneg, shr_1_nonneg|].
    apply IH; [by apply shr_1_nonneg|]. by apply shr_1_inbetween.
  - replace (e + Z.pos p~0) with (e + Z.pos p + Z.pos p) by lia.
    apply IH; [by apply iter_shr_1_nonneg|]. by apply IH.
  - by apply shr_1_inbetween.
Qed.

(** ** The exponent and the mantissa chosen by the rounding *)

Lemma fexp_eq k : fexp prec emax k = Z.max (k - 53) (-1074).
Proof. reflexivity. Qed.

Lemma pow2_mul_le a b e : (a <= b)%R → (a * pow2 e <= b * pow2 e)%R.
Proof. intros H. apply Rmult_le_compat_r; [|done]. pose proof (pow2_pos e). lra. Qed.

Lemma pow2_mul_lt a b e : (a < b)%R → (a * pow2 e < b * pow2 e)%R.
Proof. intros H. apply Rmult_lt_compat_r; [apply pow2_pos|done]. Qed.

(** The magnitude of a value with a positive mantissa. *)
Lemma magnitude_of_inbetween v p e l :
  inbetween v (Z.pos p) e l →
  (pow2 (Z.pos (digits2_pos p) + e - 1) <= v < pow2 (Z.pos (digits2_pos p) + e))%R.
Proof.
  intros [H1 H2]%inbetween_bounds.
  destruct (digits2_pos_bounds p) as [D1 D2].
  assert (Z.pos p + 1 <= 2 ^ Z.pos (digits2_pos p)) as D3 by lia.
  apply IZR_le in D1, D3. rewrite plus_IZR in D3.
  rewrite <- !pow2_IZR in * by lia.
  replace (Z.pos (digits2_pos p) + e - 1) with (Z.pos (digits2_pos p) - 1 + e) by lia.
  rewrite !pow2_add. split.
  - eapply Rle_trans; [apply pow2_mul_le, D1|done].
  - eapply Rlt_le_trans; [exact H2|]. by apply pow2_mul_le.
Qed.

(** [E] is the exponent of the doubles next to [v]: the least exponent
    below [2^-1021], and the one that leaves 53 bits above it. *)
Definition chosen_exp (v : R) (E : Z) : Prop :=
  (E = -1074 ∧ (v < pow2 (-1021))%R)
  ∨ (-1074 < E ∧ (pow2 (E + 52) <= v < pow2 (E + 53))%R).

(** The input of a rounding has digits enough. *)
Definition enough (m e : Z) : Prop := e <= fexp prec emax (Zdigits2 m + e).

Lemma chosen_exp_of_input v m e l :
  0 <= m → inbetween v m e l → enough m e →
  chosen_exp v (fexp prec emax (Zdigits2 m + e)).
Proof.
  unfold enough. rewrite !fexp_eq. intros Hm Hin He.
  destruct m as [|p|p]; [| |lia].
  - simpl Zdigits2 in *. left. split; [lia|].
    apply inbetween_bounds in Hin as [_ H2]. simpl in H2.
    eapply Rlt_le_trans; [exact H2|]. rewrite Rplus_0_l, Rmult_1_l.
    apply pow2_le. lia.
  - simpl Zdigits2 in *. set (d := Z.pos (digits2_pos p)) in *.
    apply magnitude_of_inbetween in Hin as [H1 H2]. fold d in H1, H2.
    destruct (Z.le_gt_cases (d + e - 53) (-1074)) as [Hs|Hn].
    + left. split; [lia|]. eapply Rlt_le_trans; [exact H2|]. apply pow2_le. lia.
    + right. rewrite Z.max_l by lia. split; [lia|].
      replace (d + e - 53 + 52) with (d + e - 1) by lia.
      replace (d + e - 53 + 53) with (d + e) by lia. done.
Qed.

Lemma chosen_exp_ge v E : chosen_exp v E → -1074 <= E.
Proof. intros [[-> _]|[? _]]; lia. Qed.

Lemma chosen_exp_mono v1 v2 E1 E2 :
  chosen_exp v1 E1 → chosen_exp v2 E2 → (v1 <= v2)%R → E1 <= E2.
Proof.
  intros H1 H2 Hv. pose proof (chosen_exp_ge _ _ H2).
  destruct H1 as [[-> _]|[_ [H1 _]]]; [done|].
  destruct H2 as [[-> H2]|[_ [_ H2]]].
  - assert (E1 + 52 < -1021); [|lia]. apply pow2_lt_inv. lra.
  - assert (E1 + 52 < E2 + 53); [|lia]. apply pow2_lt_inv. lra.
Qed.

Lemma shr_fexp_spec v m e l :
  0 <= m → inbetween v m e l → enough m e →
  ∃ mrs E,
    shr_fexp prec emax m e l = (mrs, E)
    ∧ chosen_exp v E ∧ 0 <= shr_m mrs
    ∧ inbetween v (shr_m mrs) E (loc_of_shr_record mrs).
Proof.
  intros Hm Hin He.
  pose proof (chosen_exp_of_input v m e l Hm Hin He) as Hc.
  unfold enough in He. unfold shr_fexp, shr.
  remember (fexp prec emax (Zdigits2 m + e)) as E eqn:HE. clear HE.
  destruct (E - e) as [|n|n] eqn:Hn; [| |lia].
  - exists (shr_record_of_loc m l), e. assert (E = e) as -> by lia.
    rewrite shr_m_record_of_loc, loc_of_shr_record_of_loc. done.
  - eexists _, _. split; [reflexivity|].
    replace (e + Z.pos n) with E by lia. split; [done|].
    split; [apply iter_shr_1_nonneg; by rewrite shr_m_record_of_loc|].
    replace E with (e + Z.pos n) by lia. apply iter_shr_1_inbetween.
    + by rewrite shr_m_record_of_loc.
    + by rewrite shr_m_record_of_loc, loc_of_shr_record_of_loc.
Qed.

(** The mantissa at the chosen exponent has at most 53 bits, and exactly
    53 above the least exponent. *)
Lemma mantissa_bounds v m E l :
  chosen_exp v E → inbetween v m E l →
  m < 2 ^ 53 ∧ (-1074 < E → 2 ^ 52 <= m).
Proof.
  intros Hc [H1 H2]%inbetween_bounds.
  assert (v < pow2 (E + 53))%R as Hup.
  { destruct Hc as [[-> Hc]|[_ [_ Hc]]]; [|done]. exact Hc. }
  split.
  - apply lt_IZR. rewrite <- pow2_IZR by lia.
    apply Rmult_lt_reg_r with (pow2 E); [apply pow2_pos|].
    rewrite <- pow2_add. replace (53 + E) with (E + 53) by lia. lra.
  - intros HE. destruct Hc as [[-> _]|[_ [Hc _]]]; [lia|].
    assert (2 ^ 52 < m + 1); [|lia]. apply lt_IZR. rewrite plus_IZR.
    rewrite <- pow2_IZR by lia.
    apply Rmult_lt_reg_r with (pow2 E); [apply pow2_pos|].
    rewrite <- pow2_add. replace (52 + E) with (E + 52) by lia. lra.
Qed.

Lemma round_nearest_even_bounds m l :
  m <= round_nearest_even m l <= m + 1.
Proof. destruct l as [|[]]; simpl; try lia. destruct (Z.even m); lia. Qed.

Lemma round_nearest_even_mono u1 u2 m1 m2 l1 l2 :
  located u1 m1 l1 → located u2 m2 l2 → (u1 <= u2)%R →
  round_nearest_even m1 l1 <= round_nearest_even m2 l2.
Proof.
  intros H1 H2 Hu.
  pose proof (located_bounds _ _ _ H1) as [B1 _].
  pose proof (located_bounds _ _ _ H2) as [_ B2].
  assert (m1 < m2 + 1) as Hm.
  { apply lt_IZR. rewrite plus_IZR. lra. }
  pose proof (round_nearest_even_bounds m1 l1).
  pose proof (round_nearest_even_bounds m2 l2).
  destruct (Z.eq_dec m1 m2) as [->|Hne]; [|lia].
  destruct l1 as [|[]], l2 as [|[]]; simpl in *;
    try destruct (Z.even m2); try lia; exfalso; lra.
Qed.

(** ** The last step of a rounding *)

(** What [binary_round_aux] does with the rounded mantissa. *)
Definition finalize (s : bool) (M E : Z) : spec_float :=
  let '(mrs, e) := shr_fexp prec emax M E loc_Exact in
  match shr_m mrs with
  | Z0 => S754_zero s
  | Zpos m => if e <=? emax - prec then S754_finite s m e else S754_infinity s
  | Zneg _ => S754_nan
  end.

Lemma binary_round_aux_finalize s m e l :
  binary_round_aux prec emax s m e l
  = finalize s (round_nearest_even (shr_m (shr_fexp prec emax m e l).1)
                  (loc_of_shr_record (shr_fexp prec emax m e l).1))
             (shr_fexp prec emax m e l).2.
Proof.
  unfold binary_round_aux, finalize.
  by destruct (shr_fexp prec emax m e l) as [mrs' e'].
Qed.

Lemma finalize_zero s E : -1074 <= E → finalize s 0 E = S754_zero s.
Proof.
  intros HE. unfold finalize, shr_fexp, shr. rewrite fexp_eq. simpl Zdigits2.
  destruct (Z.max (0 + E - 53) (-1074) - E) eqn:Hn; [done|lia|done].
Qed.

Lemma digits2_pos_le p n : 0 <= n → Z.pos p < 2 ^ n → Z.pos (digits2_pos p) <= n.
Proof.
  intros Hn Hp. destruct (digits2_pos_bounds p) as [D1 _].
  destruct (Z.le_gt_cases (Z.pos (digits2_pos p)) n) as [|Hgt]; [done|].
  assert (2 ^ n <= 2 ^ (Z.pos (digits2_pos p) - 1)) by (apply Z.pow_le_mono_r; lia).
  lia.
Qed.

Lemma digits2_pos_ge p n : 0 <= n → 2 ^ n <= Z.pos p → n < Z.pos (digits2_pos p).
Proof.
  intros Hn Hp. destruct (digits2_pos_bounds p) as [_ D2].
  destruct (Z.lt_ge_cases n (Z.pos (digits2_pos p))) as [|Hge]; [done|].
  assert (2 ^ Z.pos (digits2_pos p) <= 2 ^ n) by (apply Z.pow_le_mono_r; lia).
  lia.
Qed.

Lemma finalize_mid s p E :
  -1074 <= E → Z.pos p < 2 ^ 53 →
  finalize s (Z.pos p) E
  = if E <=? 971 then S754_finite s p E else S754_infinity s.
Proof.
  intros HE Hp. unfold finalize, shr_fexp, shr. rewrite fexp_eq. simpl Zdigits2.
  pose proof (digits2_pos_le p 53 ltac:(lia) Hp) as Hd.
  destruct (Z.max (Z.pos (digits2_pos p) + E - 53) (-1074) - E) eqn:Hn; [done|lia|done].
Qed.

Lemma finalize_top s E :
  -1074 <= E →
  finalize s (2 ^ 53) E
  = if E + 1 <=? 971 then S754_finite s (2 ^ 52)%positive (E + 1)
    else S754_infinity s.
Proof.
  intros HE. unfold finalize, shr_fexp, shr. rewrite fexp_eq.
  change (Zdigits2 (2 ^ 53)) with 54.
  replace (Z.max (54 + E - 53) (-1074) - E) with 1 by lia. reflexivity.
Qed.

(** ** The order of doubles *)

Definition SFle (x y : spec_float) : Prop := SFleb x y = true.

Lemma SFle_zero_l z y : has_sign false y → SFle (S754_zero z) y.
Proof. destruct y as [s|s| |s m e]; simpl; try done; by intros ->. Qed.

Lemma SFle_inf_r x : has_sign false x → SFle x (S754_infinity false).
Proof. destruct x as [s|s| |s m e]; simpl; try done; by intros ->. Qed.

Lemma SFle_finite m1 e1 m2 e2 :
  SFle (S754_finite false m1 e1) (S754_finite false m2 e2)
  ↔ e1 < e2 ∨ (e1 = e2 ∧ (m1 <= m2)%positive).
Proof.
  unfold SFle, SFleb; simpl.
  change (Pos.compare_cont Eq m1 m2) with (Pos.compare m1 m2).
  destruct (Z.compare_spec e1 e2), (Pos.compare_spec m1 m2); split; try done; lia.
Qed.

Lemma finalize_sign s M E : -1074 <= E → 0 <= M <= 2 ^ 53 → has_sign s (finalize s M E).
Proof.
  intros HE HM. destruct M as [|p|p]; [by rewrite finalize_zero| |lia].
  destruct (Z.eq_dec (Z.pos p) (2 ^ 53)) as [->|Hne].
  - rewrite finalize_top by done. by destruct (E + 1 <=? 971).
  - rewrite finalize_mid by lia. by destruct (E <=? 971).
Qed.

Ltac concrete_powers :=
  change (2 ^ 53) with 9007199254740992 in *;
  change (2 ^ 52) with 4503599627370496 in *;
  change (2 ^ 52)%positive with 4503599627370496%positive in *.

Lemma finalize_mono M1 E1 M2 E2 :
  -1074 <= E1 → 0 <= M1 <= 2 ^ 53 → 0 <= M2 <= 2 ^ 53 →
  (-1074 < E2 → 2 ^ 52 <= M2) →
  E1 < E2 ∨ (E1 = E2 ∧ M1 <= M2) →
  SFle (finalize false M1 E1) (finalize false M2 E2).
Proof.
  intros HE1 HM1 HM2 Hlow Hord.
  assert (-1074 <= E2) as HE2 by lia.
  destruct M1 as [|p1|p1]; [| |lia].
  { rewrite finalize_zero by done. by apply SFle_zero_l, finalize_sign. }
  destruct M2 as [|p2|p2]; [lia| |lia].
  destruct (Z.eq_dec (Z.pos p1) (2 ^ 53)) as [H1|H1],
           (Z.eq_dec (Z.pos p2) (2 ^ 53)) as [H2|H2].
  - rewrite H1, H2, !finalize_top by done.
    destruct (Z.leb_spec (E1 + 1) 971), (Z.leb_spec (E2 + 1) 971); try done; try lia.
    apply SFle_finite. destruct Hord as [?|[? _]]; [left; lia|right].
    split; [lia|apply Pos.le_refl].
  - rewrite H1, finalize_top, finalize_mid by lia.
    destruct (Z.leb_spec (E1 + 1) 971), (Z.leb_spec E2 971); try done; try lia.
    apply SFle_finite. destruct Hord as [Hlt|[_ Hle]]; [|lia].
    destruct (Z.eq_dec (E1 + 1) E2) as [Heq|Hne]; [right|left; lia].
    split; [done|]. apply Pos2Z.pos_le_pos. apply Hlow. lia.
  - rewrite H2, finalize_top, finalize_mid by lia.
    destruct (Z.leb_spec E1 971), (Z.leb_spec (E2 + 1) 971); try done; try lia.
    apply SFle_finite. left. lia.
  - rewrite !finalize_mid by lia.
    destruct (Z.leb_spec E1 971), (Z.leb_spec E2 971); try done; try lia.
    apply SFle_finite. destruct Hord as [?|[? Hle]]; [by left|right].
    split; [done|]. by apply Pos2Z.pos_le_pos.
Qed.

(** ** Rounding is monotone *)

(** The result of a rounding, through the value it rounds. *)
Lemma binary_round_aux_spec v m e l :
  0 <= m → inbetween v m e l → enough m e →
  ∃ m' l' E,
    binary_round_aux prec emax false m e l
      = finalize false (round_nearest_even m' l') E
    ∧ chosen_exp v E ∧ 0 <= m' ∧ inbetween v m' E l'.
Proof.
  intros Hm Hin He.
  destruct (shr_fexp_spec v m e l Hm Hin He) as (mrs & E & Hs & Hc & Hm' & Hin').
  exists (shr_m mrs), (loc_of_shr_record mrs), E.
  split; [|done]. by rewrite binary_round_aux_finalize, Hs.
Qed.

Lemma scaled_mono v1 v2 e : (v1 <= v2)%R → (v1 / pow2 e <= v2 / pow2 e)%R.
Proof.
  intros H. apply Rmult_le_compat_r; [|done].
  apply Rlt_le, Rinv_0_lt_compat, pow2_pos.
Qed.

Lemma binary_round_aux_mono v1 v2 m1 e1 l1 m2 e2 l2 :
  (v1 <= v2)%R →
  0 <= m1 → inbetween v1 m1 e1 l1 → enough m1 e1 →
  0 <= m2 → inbetween v2 m2 e2 l2 → enough m2 e2 →
  SFle (binary_round_aux prec emax false m1 e1 l1)
       (binary_round_aux prec emax false m2 e2 l2).
Proof.
  intros Hv Hm1 Hin1 He1 Hm2 Hin2 He2.
  destruct (binary_round_aux_spec v1 m1 e1 l1 Hm1 Hin1 He1)
    as (m1' & l1' & E1 & -> & Hc1 & Hm1' & Hin1').
  destruct (binary_round_aux_spec v2 m2 e2 l2 Hm2 Hin2 He2)
    as (m2' & l2' & E2 & -> & Hc2 & Hm2' & Hin2').
  destruct (mantissa_bounds _ _ _ _ Hc1 Hin1') as [B1 _].
  destruct (mantissa_bounds _ _ _ _ Hc2 Hin2') as [B2 L2].
  pose proof (round_nearest_even_bounds m1' l1').
  pose proof (round_nearest_even_bounds m2' l2').
  pose proof (chosen_exp_ge _ _ Hc1).
  pose proof (chosen_exp_mono _ _ _ _ Hc1 Hc2 Hv) as HE.
  apply finalize_mono; [lia|lia|lia|intros; specialize (L2 ltac:(done)); lia|].
  destruct (Z.eq_dec E1 E2) as [->|Hne]; [right|left; lia].
  split; [done|].
  eapply round_nearest_even_mono; [exact Hin1'|exact Hin2'|]. by apply scaled_mono.
Qed.

(** ** Division and multiplication of positive doubles *)

Definition val (p : positive) (e : Z) : R := (IZR (Z.pos p) * pow2 e)%R.

Lemma val_pos p e : (0 < val p e)%R.
Proof.
  unfold val. apply Rmult_lt_0_compat; [|apply pow2_pos].
  apply IZR_lt. lia.
Qed.

Lemma val_bounds p e :
  (pow2 (Z.pos (digits2_pos p) + e - 1) <= val p e
   < pow2 (Z.pos (digits2_pos p) + e))%R.
Proof.
  apply (magnitude_of_inbetween _ p e loc_Exact).
  unfold inbetween, located, val. pose proof (pow2_pos e). field. lra.
Qed.

Lemma div_lt_l a b c : (0 < c)%R → (a < b * c)%R → (a / c < b)%R.
Proof.
  intros Hc H. apply Rmult_lt_reg_r with c; [done|].
  replace (a / c * c)%R with a by (field; lra). done.
Qed.

Lemma div_lt_r a b c : (0 < c)%R → (b * c < a)%R → (b < a / c)%R.
Proof.
  intros Hc H. apply Rmult_lt_reg_r with c; [done|].
  replace (a / c * c)%R with a by (field; lra). done.
Qed.

Lemma div_le_mono a b c : (0 < c)%R → (a <= b)%R → (a / c <= b / c)%R.
Proof.
  intros Hc H. apply Rmult_le_compat_r; [|done].
  by apply Rlt_le, Rinv_0_lt_compat.
Qed.

Lemma new_location_located n r q :
  0 < n → 0 <= r < n →
  located (IZR q + IZR r / IZR n) q (new_location n r).
Proof.
  intros Hn Hr.
  assert (0 < IZR n)%R as Hn' by (by apply IZR_lt).
  assert (r = 0 → (IZR q + IZR r / IZR n = IZR q)%R) as Hzero.
  { intros ->. field. lra. }
  assert (0 < r → (0 < IZR r / IZR n)%R) as Hx.
  { intros H. apply div_lt_r; [done|]. rewrite Rmult_0_l. by apply IZR_lt. }
  assert (2 * r < n → (IZR r / IZR n < / 2)%R) as Hlt.
  { intros H. apply div_lt_l; [done|]. apply IZR_lt in H. rewrite mult_IZR in H. lra. }
  assert (n < 2 * r → (/ 2 < IZR r / IZR n)%R) as Hgt.
  { intros H. apply div_lt_r; [done|]. apply IZR_lt in H. rewrite mult_IZR in H. lra. }
  assert (2 * r = n → (IZR r / IZR n = / 2)%R) as Heq.
  { intros H. apply (f_equal IZR) in H. rewrite mult_IZR in H. rewrite <- H. field.
    rewrite <- H in Hn'. lra. }
  assert (IZR r / IZR n < 1)%R as Hx1.
  { apply div_lt_l; [done|]. rewrite Rmult_1_l. apply IZR_lt. lia. }
  unfold new_location. destruct (Z.even n) eqn:Heven.
  - unfold new_location_even. destruct (Z.eqb_spec r 0) as [Hr0|Hr0].
    { simpl. auto. }
    specialize (Hx ltac:(lia)).
    destruct (Z.compare_spec (2 * r) n) as [H|H|H]; simpl.
    + specialize (Heq H). lra.
    + specialize (Hlt H). lra.
    + specialize (Hgt H). lra.
  - unfold new_location_odd. destruct (Z.eqb_spec r 0) as [Hr0|Hr0].
    { simpl. auto. }
    specialize (Hx ltac:(lia)).
    assert (2 * r ≠ n) as Hodd.
    { intros <-. rewrite Z.even_mul in Heven. done. }
    destruct (Z.compare_spec (2 * r + 1) n) as [H|H|H]; simpl.
    + assert (2 * r < n) as H' by lia. specialize (Hlt H'). lra.
    + assert (2 * r < n) as H' by lia. specialize (Hlt H'). lra.
    + assert (n < 2 * r) as H' by lia. specialize (Hgt H'). lra.
Qed.

Lemma fexp_mono a b : a <= b → fexp prec emax a <= fexp prec emax b.
Proof. rewrite !fexp_eq. lia. Qed.

Lemma quotient_lower p1 e1 p2 e2 :
  (pow2 (Z.pos (digits2_pos p1) + e1 - (Z.pos (digits2_pos p2) + e2) - 1)
   < val p1 e1 / val p2 e2)%R.
Proof.
  destruct (val_bounds p1 e1) as [A _]. destruct (val_bounds p2 e2) as [_ B].
  pose proof (val_pos p2 e2) as Hp.
  set (a := Z.pos (digits2_pos p1) + e1) in *.
  set (b := Z.pos (digits2_pos p2) + e2) in *.
  apply div_lt_r; [done|].
  apply Rlt_le_trans with (pow2 (a - b - 1) * pow2 b)%R.
  - apply Rmult_lt_compat_l; [apply pow2_pos|done].
  - rewrite <- pow2_add. replace (a - b - 1 + b) with (a - 1) by lia. done.
Qed.

Lemma SFdiv_core_spec p1 e1 p2 e2 :
  ∃ q e' l,
    SFdiv_core_binary prec emax (Z.pos p1) e1 (Z.pos p2) e2 = (q, e', l)
    ∧ 0 <= q
    ∧ inbetween (val p1 e1 / val p2 e2) q e' l
    ∧ enough q e'.
Proof.
  unfold SFdiv_core_binary. simpl Zdigits2.
  set (c := Z.pos (digits2_pos p1) + e1 - (Z.pos (digits2_pos p2) + e2)).
  set (e' := Z.min (fexp prec emax c) (e1 - e2)).
  set (s := e1 - e2 - e').
  assert (0 <= s) as Hs by (subst s e'; lia).
  set (m' := match s with
             | 0 => Z.pos p1
             | Z.pos _ => Z.shiftl (Z.pos p1) s
             | Z.neg _ => 0
             end).
  assert (m' = Z.pos p1 * 2 ^ s) as Hm'.
  { subst m'. destruct s as [|n|n]; [lia| |lia]. by rewrite Z.shiftl_mul_pow2. }
  pose proof (Z_div_mod m' (Z.pos p2) ltac:(lia)) as Hdiv.
  destruct (Z.div_eucl m' (Z.pos p2)) as [q r]. destruct Hdiv as [Hq Hr].
  assert (0 <= q) as Hq0.
  { assert (0 <= m') by (rewrite Hm'; apply Z.mul_nonneg_nonneg; [lia|apply Z.pow_nonneg; lia]).
    destruct (Z.le_gt_cases 0 q) as [|Hneg]; [done|].
    assert (Z.pos p2 * q <= Z.pos p2 * (-1)) by (apply Z.mul_le_mono_nonneg_l; lia).
    lia. }
  assert (inbetween (val p1 e1 / val p2 e2) q e' (new_location (Z.pos p2) r)) as Hin.
  { unfold inbetween.
    assert (val p1 e1 / val p2 e2 / pow2 e' = IZR q + IZR r / IZR (Z.pos p2))%R as ->.
    { unfold val.
      replace e1 with (s + e2 + e') by (subst s; lia).
      rewrite !pow2_add, (pow2_IZR s) by done.
      assert (IZR (Z.pos p1) * IZR (2 ^ s) = IZR (Z.pos p2) * IZR q + IZR r)%R as Hreal.
      { rewrite <- !mult_IZR, <- plus_IZR. f_equal. lia. }
      pose proof (pow2_pos e2). pose proof (pow2_pos e').
      assert (0 < IZR (Z.pos p2))%R by (apply IZR_lt; lia).
      replace (IZR (Z.pos p1) * (IZR (2 ^ s) * pow2 e2 * pow2 e')
               / (IZR (Z.pos p2) * pow2 e2) / pow2 e')%R
        with (IZR (Z.pos p1) * IZR (2 ^ s) / IZR (Z.pos p2))%R by (field; lra).
      rewrite Hreal. field. lra. }
    apply new_location_located; lia. }
  exists q, e', (new_location (Z.pos p2) r). split; [done|]. split; [done|].
  split; [done|].
  pose proof (quotient_lower p1 e1 p2 e2) as Hlow. fold c in Hlow.
  assert (e' <= fexp prec emax c) as He' by (subst e'; lia).
  unfold enough. destruct q as [|pq|pq]; [| |lia].
  - apply inbetween_bounds in Hin as [_ Hup]. simpl in Hup.
    rewrite Rplus_0_l, Rmult_1_l in Hup.
    assert (c - 1 < e') as Hc by (apply pow2_lt_inv; lra).
    rewrite fexp_eq in *. simpl Zdigits2. lia.
  - apply magnitude_of_inbetween in Hin as [_ Hup].
    assert (c - 1 < Z.pos (digits2_pos pq) + e') as Hc by (apply pow2_lt_inv; lra).
    simpl Zdigits2. etrans; [exact He'|]. apply fexp_mono. lia.
Qed.

Lemma SFdiv_finite p1 e1 p2 e2 :
  ∃ q e' l,
    SFdiv prec emax (S754_finite false p1 e1) (S754_finite false p2 e2)
      = binary_round_aux prec emax false q e' l
    ∧ 0 <= q
    ∧ inbetween (val p1 e1 / val p2 e2) q e' l
    ∧ enough q e'.
Proof.
  destruct (SFdiv_core_spec p1 e1 p2 e2) as (q & e' & l & Hcore & H).
  exists q, e', l. split; [|done]. simpl. by rewrite Hcore.
Qed.

(** Quotients of positive doubles are ordered as the exact quotients. *)
Lemma SFdiv_mono p1 e1 p2 e2 p1' e1' p2' e2' :
  (val p1 e1 / val p2 e2 <= val p1' e1' / val p2' e2')%R →
  SFle (SFdiv prec emax (S754_finite false p1 e1) (S754_finite false p2 e2))
       (SFdiv prec emax (S754_finite false p1' e1') (S754_finite false p2' e2')).
Proof.
  intros Hv.
  destruct (SFdiv_finite p1 e1 p2 e2) as (q & e & l & -> & Hq & Hin & He).
  destruct (SFdiv_finite p1' e1' p2' e2') as (q' & e' & l' & -> & Hq' & Hin' & He').
  by eapply binary_round_aux_mono.
Qed.

(** ** Doubles in canonical form *)

Definition canonical (p : positive) (e : Z) : Prop :=
  fexp prec emax (Z.pos (digits2_pos p) + e) = e.

Lemma valid_canonical s p e :
  valid_binary (S754_finite s p e) = true → canonical p e.
Proof.
  unfold SpecFloat.valid_binary, SpecFloat.bounded, SpecFloat.canonical_mantissa, canonical.
  intros [H _]%andb_true_iff. by apply Z.eqb_eq.
Qed.

Lemma val_le_canonical p1 e1 p2 e2 :
  canonical p1 e1 → canonical p2 e2 →
  SFle (S754_finite false p1 e1) (S754_finite false p2 e2) →
  (val p1 e1 <= val p2 e2)%R.
Proof.
  unfold canonical. rewrite !fexp_eq. intros C1 C2 [Hlt|[-> Hle]]%SFle_finite.
  - destruct (val_bounds p1 e1) as [_ B1]. destruct (val_bounds p2 e2) as [B2 _].
    apply Rlt_le. eapply Rlt_le_trans; [exact B1|].
    eapply Rle_trans; [|exact B2]. apply pow2_le. lia.
  - unfold val. apply pow2_mul_le, IZR_le. lia.
Qed.

Lemma digits2_pos_mul p1 p2 :
  Z.pos (digits2_pos p1) + Z.pos (digits2_pos p2) - 1
  <= Z.pos (digits2_pos (p1 * p2)).
Proof.
  destruct (digits2_pos_bounds p1) as [D1 _]. destruct (digits2_pos_bounds p2) as [D2 _].
  set (d1 := Z.pos (digits2_pos p1)) in *. set (d2 := Z.pos (digits2_pos p2)) in *.
  assert (0 < d1) as Hd1 by (subst d1; lia).
  assert (0 < d2) as Hd2 by (subst d2; lia).
  assert (2 ^ (d1 + d2 - 2) <= Z.pos (p1 * p2)) as Hprod.
  { replace (d1 + d2 - 2) with ((d1 - 1) + (d2 - 1)) by lia.
    rewrite Z.pow_add_r, Pos2Z.inj_mul by lia.
    apply Z.mul_le_mono_nonneg; try done; apply Z.pow_nonneg; lia. }
  apply digits2_pos_ge in Hprod; lia.
Qed.

Lemma SFmul_finite p1 e1 p2 e2 :
  canonical p1 e1 → canonical p2 e2 →
  SFmul prec emax (S754_finite false p1 e1) (S754_finite false p2 e2)
    = binary_round_aux prec emax false (Z.pos (p1 * p2)) (e1 + e2) loc_Exact
  ∧ inbetween (val p1 e1 * val p2 e2) (Z.pos (p1 * p2)) (e1 + e2) loc_Exact
  ∧ enough (Z.pos (p1 * p2)) (e1 + e2).
Proof.
  intros C1 C2. split; [done|]. split.
  - unfold inbetween, located, val. rewrite pow2_add, Pos2Z.inj_mul, mult_IZR.
    pose proof (pow2_pos e1). pose proof (pow2_pos e2). field. lra.
  - unfold enough, canonical in *. simpl Zdigits2. rewrite fexp_eq in *.
    pose proof (digits2_pos_mul p1 p2).
    assert (0 < Z.pos (digits2_pos p1)) by lia.
    assert (0 < Z.pos (digits2_pos p2)) by lia. lia.
Qed.

(** Products of positive doubles are ordered as the exact products. *)
Lemma SFmul_mono p1 e1 p2 e2 p1' e1' p2' e2' :
  canonical p1 e1 → canonical p2 e2 → canonical p1' e1' → canonical p2' e2' →
  (val p1 e1 * val p2 e2 <= val p1' e1' * val p2' e2')%R →
  SFle (SFmul prec emax (S754_finite false p1 e1) (S754_finite false p2 e2))
       (SFmul prec emax (S754_finite false p1' e1') (S754_finite false p2' e2')).
Proof.
  intros C1 C2 C1' C2' Hv.
  destruct (SFmul_finite p1 e1 p2 e2 C1 C2) as (-> & Hin & He).
  destruct (SFmul_finite p1' e1' p2' e2' C1' C2') as (-> & Hin' & He').
  eapply binary_round_aux_mono; [exact Hv|lia|done|done|lia|done|done].
Qed.

(** ** The results of roundings are doubles *)

Lemma finalize_valid M E :
  -1074 <= E → 0 <= M <= 2 ^ 53 → (-1074 < E → 2 ^ 52 <= M) →
  valid_binary (finalize false M E) = true.
Proof.
  intros HE HM Hlow. destruct M as [|p|p]; [by rewrite finalize_zero| |lia].
  destruct (Z.eq_dec (Z.pos p) (2 ^ 53)) as [->|Hne].
  - rewrite finalize_top by done.
    destruct (Z.leb_spec (E + 1) 971) as [Hle|]; [|done].
    unfold SpecFloat.valid_binary, SpecFloat.bounded, SpecFloat.canonical_mantissa.
    change (emax - prec) with 971.
    change (digits2_pos (2 ^ 52)) with 53%positive. rewrite fexp_eq.
    apply andb_true_iff. split; [apply Z.eqb_eq|apply Z.leb_le]; lia.
  - assert (Z.pos p < 2 ^ 53) as Hp by lia. rewrite finalize_mid by done.
    destruct (Z.leb_spec E 971) as [Hle|]; [|done].
    unfold SpecFloat.valid_binary, SpecFloat.bounded, SpecFloat.canonical_mantissa.
    change (emax - prec) with 971.
    rewrite fexp_eq. pose proof (digits2_pos_le p 53 ltac:(lia) Hp) as Hd.
    apply andb_true_iff. split; [apply Z.eqb_eq|apply Z.leb_le; lia].
    destruct (Z.eq_dec E (-1074)) as [->|HE']; [lia|].
    pose proof (digits2_pos_ge p 52 ltac:(lia) (Hlow ltac:(lia))). lia.
Qed.

Lemma binary_round_aux_valid v m e l :
  0 <= m → inbetween v m e l → enough m e →
  valid_binary (binary_round_aux prec emax false m e l) = true.
Proof.
  intros Hm Hin He.
  destruct (binary_round_aux_spec v m e l Hm Hin He)
    as (m' & l' & E & -> & Hc & Hm' & Hin').
  destruct (mantissa_bounds _ _ _ _ Hc Hin') as [B L].
  pose proof (round_nearest_even_bounds m' l').
  pose proof (chosen_exp_ge _ _ Hc).
  apply finalize_valid; [done|lia|]. intros HE. specialize (L HE). lia.
Qed.

Lemma binary_round_aux_result_sign v m e l :
  0 <= m → inbetween v m e l → enough m e →
  has_sign false (binary_round_aux prec emax false m e l).
Proof.
  intros Hm Hin He.
  destruct (binary_round_aux_spec v m e l Hm Hin He)
    as (m' & l' & E & -> & Hc & Hm' & Hin').
  destruct (mantissa_bounds _ _ _ _ Hc Hin') as [B L].
  pose proof (round_nearest_even_bounds m' l').
  pose proof (chosen_exp_ge _ _ Hc).
  apply finalize_sign; [done|lia].
Qed.

Lemma SFdiv_finite_valid p1 e1 p2 e2 :
  valid_binary (SFdiv prec emax (S754_finite false p1 e1) (S754_finite false p2 e2)) = true
  ∧ has_sign false (SFdiv prec emax (S754_finite false p1 e1) (S754_finite false p2 e2)).
Proof.
  destruct (SFdiv_finite p1 e1 p2 e2) as (q & e & l & -> & Hq & Hin & He).
  split; [by eapply binary_round_aux_valid|by eapply binary_round_aux_result_sign].
Qed.

Lemma SFmul_finite_sign p1 e1 p2 e2 :
  canonical p1 e1 → canonical p2 e2 →
  has_sign false (SFmul prec emax (S754_finite false p1 e1) (S754_finite false p2 e2)).
Proof.
  intros C1 C2. destruct (SFmul_finite p1 e1 p2 e2 C1 C2) as (-> & Hin & He).
  eapply binary_round_aux_result_sign; [lia|done|done].
Qed.

(** The number of tenths nearest to [m * 2^e], ties to even. *)
Definition tenths (m : positive) (e : Z) : Z :=
  round_half_even (10 * Z.pos m * 2 ^ Z.max e 0) (2 ^ Z.max (- e) 0).

(** ** Rounding to one decimal *)

Lemma round_half_even_located n d :
  0 < d → 0 <= n →
  ∃ l, located (IZR n / IZR d) (n / d) l
       ∧ round_half_even n d = round_nearest_even (n / d) l.
Proof.
  intros Hd Hn.
  pose proof (Z_div_mod n d ltac:(lia)) as Hdiv.
  unfold round_half_even, Z.div, Z.modulo.
  destruct (Z.div_eucl n d) as [q r]. destruct Hdiv as [Hq Hr].
  exists (new_location d r). split.
  - assert (0 < IZR d)%R by (by apply IZR_lt).
    assert (IZR n / IZR d = IZR q + IZR r / IZR d)%R as ->.
    { rewrite Hq, plus_IZR, mult_IZR. field. lra. }
    by apply new_location_located.
  - unfold new_location. destruct (Z.even d) eqn:Heven.
    + unfold new_location_even. destruct (Z.eqb_spec r 0) as [->|Hr0].
      { simpl. by destruct d. }
      simpl. by destruct (2 * r ?= d).
    + unfold new_location_odd. destruct (Z.eqb_spec r 0) as [->|Hr0].
      { simpl. by destruct d. }
      assert (2 * r ≠ d) as Hodd.
      { intros <-. rewrite Z.even_mul in Heven. done. }
      destruct (Z.compare_spec (2 * r) d), (Z.compare_spec (2 * r + 1) d);
        simpl; try done; lia.
Qed.

Lemma tenths_located p e :
  ∃ q l, located (10 * val p e) q l ∧ 0 <= q
         ∧ tenths p e = round_nearest_even q l.
Proof.
  unfold tenths.
  set (a := Z.max e 0). set (b := Z.max (- e) 0).
  assert (0 < 2 ^ b) as Hd by (apply Z.pow_pos_nonneg; subst b; lia).
  assert (0 < 2 ^ a) as Ha by (apply Z.pow_pos_nonneg; subst a; lia).
  assert (0 <= 10 * Z.pos p * 2 ^ a) as Hn by lia.
  destruct (round_half_even_located _ _ Hd Hn) as (l & Hloc & Hr).
  exists (10 * Z.pos p * 2 ^ a / 2 ^ b), l. split; [|split; [|done]].
  - assert (10 * val p e = IZR (10 * Z.pos p * 2 ^ a) / IZR (2 ^ b))%R as ->; [|done].
    unfold val. rewrite !mult_IZR, <- !pow2_IZR by (subst a b; lia).
    replace e with (a - b) at 1 by (subst a b; lia).
    replace (a - b) with (a + - b) by lia. rewrite pow2_add.
    assert (pow2 (- b) = / pow2 b)%R as ->.
    { unfold pow2. apply powerRZ_neg'. }
    pose proof (pow2_pos b). field. lra.
  - apply Z.div_pos; lia.
Qed.

Lemma tenths_nonneg p e : 0 <= tenths p e.
Proof.
  destruct (tenths_located p e) as (q & l & _ & Hq & ->).
  pose proof (round_nearest_even_bounds q l). lia.
Qed.

Lemma tenths_mono p1 e1 p2 e2 :
  (val p1 e1 <= val p2 e2)%R → tenths p1 e1 <= tenths p2 e2.
Proof.
  intros Hv.
  destruct (tenths_located p1 e1) as (q1 & l1 & H1 & _ & ->).
  destruct (tenths_located p2 e2) as (q2 & l2 & H2 & _ & ->).
  eapply round_nearest_even_mono; [exact H1|exact H2|lra].
Qed.

(** Positive doubles: finite in canonical form, or infinite. *)
Inductive posext : spec_float → Prop :=
| posext_finite p e : canonical p e → posext (S754_finite false p e)
| posext_infinity : posext (S754_infinity false).

Lemma SFle_refl_sign x : has_sign false x → SFle x x.
Proof.
  destruct x as [s|s| |s m e]; simpl; try done; intros ->; [done|].
  apply SFle_finite. right. split; [done|apply Pos.le_refl].
Qed.

Lemma val_scale_le n1 n2 :
  (n1 <= n2)%positive → (val n1 0 / val 10 0 <= val n2 0 / val 10 0)%R.
Proof.
  intros H. apply div_le_mono; [apply val_pos|].
  unfold val. apply pow2_mul_le, IZR_le. lia.
Qed.

(** A double is the rounding of its own value. *)
Lemma shr_fexp_canonical p e :
  canonical p e →
  shr_fexp prec emax (Z.pos p) e loc_Exact
  = (shr_record_of_loc (Z.pos p) loc_Exact, e).
Proof.
  unfold canonical. intros Hc. unfold shr_fexp. simpl Zdigits2.
  by rewrite Hc, Z.sub_diag.
Qed.

Lemma binary_round_aux_exact p e :
  valid_binary (S754_finite false p e) = true →
  binary_round_aux prec emax false (Z.pos p) e loc_Exact = S754_finite false p e.
Proof.
  intros V. pose proof (valid_canonical _ _ _ V) as Hc.
  apply andb_true_iff in V as [_ Hb].
  unfold binary_round_aux. rewrite (shr_fexp_canonical p e Hc).
  cbn [shr_record_of_loc shr_m shr_r shr_s loc_of_shr_record round_nearest_even].
  rewrite (shr_fexp_canonical p e Hc).
  cbn [shr_record_of_loc shr_m shr_r shr_s].
  by rewrite Hb.
Qed.

Lemma inbetween_exact p e : inbetween (val p e) (Z.pos p) e loc_Exact.
Proof.
  unfold inbetween, located, val. pose proof (pow2_pos e). field. lra.
Qed.

Lemma tenths_integer p e : 0 <= e → (IZR (tenths p e) / 10 = val p e)%R.
Proof.
  intros He. unfold tenths, round_half_even.
  rewrite Z.max_l, Z.max_r by lia. change (2 ^ 0) with 1.
  rewrite Z.mod_1_r, Z.div_1_r. simpl "?=".
  unfold val. rewrite !mult_IZR, <- pow2_IZR by done. field.
Qed.

Lemma tenths_fraction p e :
  e < 0 → tenths p e = round_half_even (10 * Z.pos p) (2 ^ (- e)).
Proof.
  intros He. unfold tenths. rewrite Z.max_r, Z.max_l by lia.
  by rewrite Z.pow_0_r, Z.mul_1_r.
Qed.

(** The rounding of a positive double to one decimal is zero, when it has
    no tenths, or the rounding to a double of its tenths over ten. *)
Lemma round1_spec_repr p e :
  valid_binary (S754_finite false p e) = true →
  (tenths p e = 0 ∧ round1_spec (S754_finite false p e) = S754_zero false)
  ∨ (0 < tenths p e
     ∧ ∃ q e' l,
         round1_spec (S754_finite false p e) = binary_round_aux prec emax false q e' l
         ∧ 0 <= q ∧ inbetween (IZR (tenths p e) / 10) q e' l ∧ enough q e').
Proof.
  intros V. unfold round1_spec.
  destruct (Z.leb_spec 0 e) as [He|He].
  - right. split.
    + apply lt_IZR. pose proof (tenths_integer p e He). pose proof (val_pos p e). lra.
    + exists (Z.pos p), e, loc_Exact.
      rewrite binary_round_aux_exact, tenths_integer by done.
      split; [done|]. split; [lia|]. split; [apply inbetween_exact|].
      unfold enough. apply valid_canonical in V. unfold canonical in V.
      simpl Zdigits2. lia.
  - rewrite <- tenths_fraction by done.
    pose proof (tenths_nonneg p e) as Hn.
    destruct (tenths p e) as [|n|n]; [by left| |lia].
    right. split; [lia|].
    destruct (SFdiv_finite n 0 10 0) as (q & e' & l & E & Hq & Hin & Hen).
    exists q, e', l. split; [done|]. split; [done|]. split; [|done].
    replace (IZR (Z.pos n) / 10)%R with (val n 0 / val 10 0)%R; [done|].
    unfold val, pow2. simpl. lra.
Qed.

Lemma round1_spec_finite p e :
  valid_binary (S754_finite false p e) = true →
  has_sign false (round1_spec (S754_finite false p e))
  ∧ valid_binary (round1_spec (S754_finite false p e)) = true.
Proof.
  intros V. destruct (round1_spec_repr p e V)
    as [[_ ->]|(_ & q & e' & l & -> & Hq & Hin & Hen)]; [done|].
  split; [by eapply binary_round_aux_result_sign|by eapply binary_round_aux_valid].
Qed.

Lemma round1_spec_sign x :
  has_sign false x → valid_binary x = true → has_sign false (round1_spec x).
Proof.
  destruct x as [s|s| |s p e]; try done. simpl has_sign. intros -> V.
  by apply round1_spec_finite.
Qed.

Lemma round1_spec_valid x :
  has_sign false x → valid_binary x = true → valid_binary (round1_spec x) = true.
Proof.
  destruct x as [s|s| |s p e]; try done. simpl has_sign. intros -> V.
  by apply round1_spec_finite.
Qed.

(** Rounding to one decimal keeps the order of doubles that are not
    negative. *)
Lemma round1_spec_mono x1 x2 :
  has_sign false x1 → has_sign false x2 →
  valid_binary x1 = true → valid_binary x2 = true →
  SFle x1 x2 → SFle (round1_spec x1) (round1_spec x2).
Proof.
  intros S1 S2 V1 V2 Hle.
  destruct x1 as [s1|s1| |s1 p1 e1]; try done; simpl in S1; subst s1.
  - apply SFle_zero_l. by apply round1_spec_sign.
  - destruct x2 as [s2|s2| |s2 p2 e2]; try done; simpl in S2; subst s2; done.
  - destruct x2 as [s2|s2| |s2 p2 e2]; try done; simpl in S2; subst s2; try done.
    + apply SFle_inf_r. by apply round1_spec_finite.
    + pose proof (val_le_canonical _ _ _ _ (valid_canonical _ _ _ V1)
                    (valid_canonical _ _ _ V2) Hle) as Hv.
      pose proof (tenths_mono _ _ _ _ Hv) as Ht.
      destruct (round1_spec_repr p1 e1 V1)
        as [[T1 ->]|(T1 & q1 & f1 & l1 & -> & Hq1 & Hin1 & Hen1)].
      { apply SFle_zero_l. by apply round1_spec_finite. }
      destruct (round1_spec_repr p2 e2 V2)
        as [[T2 _]|(T2 & q2 & f2 & l2 & -> & Hq2 & Hin2 & Hen2)]; [lia|].
      apply (binary_round_aux_mono (IZR (tenths p1 e1) / 10) (IZR (tenths p2 e2) / 10));
        try done.
      apply div_le_mono; [lra|]. by apply IZR_le.
Qed.

(** ** Order of the arithmetic of [compute_bmi] on positive doubles *)

Lemma posext_sign x : posext x → has_sign false x.
Proof. by destruct 1. Qed.

Lemma SFdiv_posext_sign x p e :
  posext x → has_sign false (SFdiv prec emax x (S754_finite false p e)).
Proof. destruct 1; [apply SFdiv_finite_valid|done]. Qed.

Lemma SFdiv_posext_mono x1 x2 p e :
  posext x1 → posext x2 → SFle x1 x2 →
  SFle (SFdiv prec emax x1 (S754_finite false p e))
       (SFdiv prec emax x2 (S754_finite false p e)).
Proof.
  destruct 1 as [p1 e1 C1|]; destruct 1 as [p2 e2 C2|]; intros Hle; try done.
  - apply SFdiv_mono, div_le_mono; [apply val_pos|by apply val_le_canonical].
  - apply SFle_inf_r, SFdiv_finite_valid.
Qed.

Lemma SFsquare_sign x : posext x → has_sign false (SFmul prec emax x x).
Proof. destruct 1; [by apply SFmul_finite_sign|done]. Qed.

Lemma SFsquare_mono x1 x2 :
  posext x1 → posext x2 → SFle x1 x2 →
  SFle (SFmul prec emax x1 x1) (SFmul prec emax x2 x2).
Proof.
  destruct 1 as [p1 e1 C1|]; destruct 1 as [p2 e2 C2|]; intros Hle; try done.
  - apply SFmul_mono; try done.
    pose proof (val_le_canonical _ _ _ _ C1 C2 Hle).
    pose proof (val_pos p1 e1).
    apply Rmult_le_compat; lra.
  - apply SFle_inf_r. by apply SFmul_finite_sign.
Qed.

Lemma SFquot_sign p e d :
  posext d → has_sign false (SFdiv prec emax (S754_finite false p e) d).
Proof. destruct 1; [apply SFdiv_finite_valid|done]. Qed.

Lemma quot_le a a' d d' :
  (0 < a)%R → (a <= a')%R → (0 < d')%R → (d' <= d)%R → (a / d <= a' / d')%R.
Proof.
  intros Ha Haa Hd' Hd. unfold Rdiv.
  apply Rmult_le_compat; try lra.
  - apply Rlt_le, Rinv_0_lt_compat. lra.
  - apply Rinv_le_contravar; lra.
Qed.

Lemma SFquot_mono p1 e1 p2 e2 d1 d2 :
  canonical p1 e1 → canonical p2 e2 →
  SFle (S754_finite false p1 e1) (S754_finite false p2 e2) →
  posext d1 → posext d2 → SFle d2 d1 →
  SFle (SFdiv prec emax (S754_finite false p1 e1) d1)
       (SFdiv prec emax (S754_finite false p2 e2) d2).
Proof.
  intros C1 C2 Hw D1 D2 Hd.
  destruct D1 as [q1 f1 K1|]; destruct D2 as [q2 f2 K2|]; try done.
  - apply SFdiv_mono, quot_le;
      [apply val_pos|by apply val_le_canonical|apply val_pos|by apply val_le_canonical].
  - apply SFle_zero_l, SFdiv_finite_valid.
Qed.

(** Positive doubles, seen through the comparisons of the code. *)

Lemma posext_of_valid x :
  has_sign false x → valid_binary x = true → (∀ s, x ≠ S754_zero s) → posext x.
Proof.
  destruct x as [s|s| |s p e]; simpl; try done.
  - intros _ _ H. exfalso. by apply (H s).
  - intros -> _ _. constructor.
  - intros -> V _. constructor. exact (valid_canonical false p e V).
Qed.

Lemma flt_zero_posext x : flt 0 x → posext (Prim2SF x).
Proof.
  unfold flt. rewrite FloatAxioms.ltb_spec. intros H.
  apply posext_of_valid; [|apply Prim2SF_valid|].
  - revert H. change (Prim2SF 0) with (S754_zero false).
    destruct (Prim2SF x) as [s|s| |s p e]; simpl; try done;
      unfold SFltb; simpl; by destruct s.
  - intros s Hs. rewrite Hs in H. done.
Qed.

Lemma not_fle_zero_posext x :
  has_sign false (Prim2SF x) → (x <=? 0)%float = false → posext (Prim2SF x).
Proof.
  intros S H. rewrite FloatAxioms.leb_spec in H.
  apply posext_of_valid; [done|apply Prim2SF_valid|].
  intros s Hs. rewrite Hs in H. done.
Qed.

Lemma not_eqb_zero_posext x :
  has_sign false (Prim2SF x) → (x =? 0)%float = false → posext (Prim2SF x).
Proof.
  intros S H. rewrite FloatAxioms.eqb_spec in H.
  apply posext_of_valid; [done|apply Prim2SF_valid|].
  intros s Hs. rewrite Hs in H. done.
Qed.

Lemma fle_posext x y : posext (Prim2SF x) → fle x y → posext (Prim2SF y).
Proof.
  unfold fle. intros P H. rewrite FloatAxioms.leb_spec in H.
  apply posext_of_valid; [|apply Prim2SF_valid|].
  - revert H. destruct P; destruct (Prim2SF y) as [s|s| |s q f];
      try done; unfold SFleb; simpl; by destruct s.
  - intros s Hs. rewrite Hs in H. by destruct P.
Qed.

Lemma flt_infinity_finite x :
  posext (Prim2SF x) → flt x infinity →
  ∃ p e, Prim2SF x = S754_finite false p e ∧ canonical p e.
Proof.
  unfold flt. intros P H. rewrite FloatAxioms.ltb_spec in H.
  destruct P as [p e C|]; [by exists p, e|done].
Qed.

Lemma fle_finite_l x y p e :
  posext (Prim2SF x) → fle x y → Prim2SF y = S754_finite false p e →
  ∃ q f, Prim2SF x = S754_finite false q f ∧ canonical q f.
Proof.
  unfold fle. intros P H Hy. rewrite FloatAxioms.leb_spec, Hy in H.
  destruct P as [q f C|]; [by exists q, f|done].
Qed.

Lemma Prim2SF_round1 x :
  has_sign false (Prim2SF x) → Prim2SF (round1 x) = round1_spec (Prim2SF x).
Proof.
  intros S. unfold round1. apply Prim2SF_SF2Prim.
  apply round1_spec_valid; [done|apply Prim2SF_valid].
Qed.

Lemma bmi_value_monotone w1 h1 w2 h2 b1 b2 :
  flt 0 w1 → fle w1 w2 → flt w2 infinity →
  flt 0 h2 → fle h2 h1 →
  bmi_value w1 h1 = Some b1 → bmi_value w2 h2 = Some b2 →
  fle b1 b2.
Proof.
  intros Hw1 Hw Hw2 Hh2 Hh.
  pose proof (flt_zero_posext _ Hw1) as Pw1.
  pose proof (fle_posext _ _ Pw1 Hw) as Pw2.
  destruct (flt_infinity_finite _ Pw2 Hw2) as (p2 & e2 & Ew2 & C2).
  destruct (fle_finite_l _ _ _ _ Pw1 Hw Ew2) as (p1 & e1 & Ew1 & C1).
  pose proof (flt_zero_posext _ Hh2) as Ph2.
  pose proof (fle_posext _ _ Ph2 Hh) as Ph1.
  assert (Prim2SF 100 = S754_finite false 7036874417766400 (-46)) as E100
    by (vm_compute; reflexivity).
  unfold bmi_value.
  destruct (h1 / 100 <=? 0)%float eqn:G1; [done|].
  destruct (h2 / 100 <=? 0)%float eqn:G2; [by destruct (w1 <=? 0)%float|].
  destruct (w1 <=? 0)%float; [done|]. destruct (w2 <=? 0)%float; [done|].
  simpl orb. cbv iota.
  destruct (h1 / 100 * (h1 / 100) =? 0)%float eqn:Z1; [done|].
  destruct (h2 / 100 * (h2 / 100) =? 0)%float eqn:Z2; [done|].
  intros [= <-] [= <-].
  assert (has_sign false (Prim2SF (h1 / 100))) as Sm1.
  { rewrite FloatAxioms.div_spec, E100. by apply SFdiv_posext_sign. }
  assert (has_sign false (Prim2SF (h2 / 100))) as Sm2.
  { rewrite FloatAxioms.div_spec, E100. by apply SFdiv_posext_sign. }
  pose proof (not_fle_zero_posext _ Sm1 G1) as Pm1.
  pose proof (not_fle_zero_posext _ Sm2 G2) as Pm2.
  assert (SFle (Prim2SF (h2 / 100)) (Prim2SF (h1 / 100))) as Hm.
  { rewrite !FloatAxioms.div_spec, E100. apply SFdiv_posext_mono; try done.
    revert Hh. unfold fle. by rewrite FloatAxioms.leb_spec. }
  assert (has_sign false (Prim2SF (h1 / 100 * (h1 / 100)))) as Ss1.
  { rewrite FloatAxioms.mul_spec. by apply SFsquare_sign. }
  assert (has_sign false (Prim2SF (h2 / 100 * (h2 / 100)))) as Ss2.
  { rewrite FloatAxioms.mul_spec. by apply SFsquare_sign. }
  pose proof (not_eqb_zero_posext _ Ss1 Z1) as Ps1.
  pose proof (not_eqb_zero_posext _ Ss2 Z2) as Ps2.
  assert (SFle (Prim2SF (h2 / 100 * (h2 / 100))) (Prim2SF (h1 / 100 * (h1 / 100)))) as Hs.
  { rewrite !FloatAxioms.mul_spec. by apply SFsquare_mono. }
  assert (has_sign false (Prim2SF (w1 / (h1 / 100 * (h1 / 100))))) as Sq1.
  { rewrite FloatAxioms.div_spec, Ew1. by apply SFquot_sign. }
  assert (has_sign false (Prim2SF (w2 / (h2 / 100 * (h2 / 100))))) as Sq2.
  { rewrite FloatAxioms.div_spec, Ew2. by apply SFquot_sign. }
  assert (SFle (Prim2SF (w1 / (h1 / 100 * (h1 / 100))))
               (Prim2SF (w2 / (h2 / 100 * (h2 / 100))))) as Hq.
  { rewrite !FloatAxioms.div_spec, Ew1, Ew2. apply SFquot_mono; try done.
    revert Hw. unfold fle. by rewrite FloatAxioms.leb_spec, Ew1, Ew2. }
  unfold fle. rewrite FloatAxioms.leb_spec, !Prim2SF_round1 by done.
  apply round1_spec_mono; try done; apply Prim2SF_valid.
Qed.

(** ** What [compute_bmi] returns on positive inputs *)

Lemma SFlt_finite m1 e1 m2 e2 :
  SFltb (S754_finite false m1 e1) (S754_finite false m2 e2) = true
  ↔ e1 < e2 ∨ (e1 = e2 ∧ (m1 < m2)%positive).
Proof.
  unfold SFltb; simpl.
  change (Pos.compare_cont Eq m1 m2) with (Pos.compare m1 m2).
  destruct (Z.compare_spec e1 e2), (Pos.compare_spec m1 m2); split; try done; lia.
Qed.

Lemma SFle_lt_trans x y p e :
  has_sign false x → has_sign false y →
  SFle x y → SFltb y (S754_finite false p e) = true →
  SFltb x (S754_finite false p e) = true.
Proof.
  destruct x as [s1|s1| |s1 p1 e1], y as [s2|s2| |s2 p2 e2]; simpl; try done;
    intros -> ->; try done.
  intros H1 H2. apply SFle_finite in H1. apply SFlt_finite in H2.
  apply SFlt_finite. lia.
Qed.

Lemma fle_flt_trans b1 b2 c p e :
  has_sign false (Prim2SF b1) → has_sign false (Prim2SF b2) →
  Prim2SF c = S754_finite false p e →
  fle b1 b2 → flt b2 c → flt b1 c.
Proof.
  unfold fle, flt. intros S1 S2 Hc H1 H2.
  rewrite FloatAxioms.leb_spec in H1. rewrite FloatAxioms.ltb_spec, Hc in H2.
  rewrite FloatAxioms.ltb_spec, Hc. by eapply SFle_lt_trans.
Qed.

(** The BMI of a positive finite weight and a positive height, when
    there is one, is a double that is not negative and not nan. *)
Lemma bmi_value_sign w h b :
  flt 0 w → flt w infinity → flt 0 h →
  bmi_value w h = Some b → has_sign false (Prim2SF b).
Proof.
  intros Hw0 Hw Hh.
  pose proof (flt_zero_posext _ Hw0) as Pw.
  destruct (flt_infinity_finite _ Pw Hw) as (p & e & Ew & C).
  pose proof (flt_zero_posext _ Hh) as Ph.
  assert (Prim2SF 100 = S754_finite false 7036874417766400 (-46)) as E100
    by (vm_compute; reflexivity).
  unfold bmi_value.
  destruct (h / 100 <=? 0)%float eqn:G; [done|].
  destruct (w <=? 0)%float; [done|]. simpl orb. cbv iota.
  destruct (h / 100 * (h / 100) =? 0)%float eqn:Z; [done|].
  intros [= <-].
  assert (has_sign false (Prim2SF (h / 100))) as Sm.
  { rewrite FloatAxioms.div_spec, E100. by apply SFdiv_posext_sign. }
  pose proof (not_fle_zero_posext _ Sm G) as Pm.
  assert (has_sign false (Prim2SF (h / 100 * (h / 100)))) as Ss.
  { rewrite FloatAxioms.mul_spec. by apply SFsquare_sign. }
  pose proof (not_eqb_zero_posext _ Ss Z) as Ps.
  assert (has_sign false (Prim2SF (w / (h / 100 * (h / 100))))) as Sq.
  { rewrite FloatAxioms.div_spec, Ew. by apply SFquot_sign. }
  rewrite Prim2SF_round1 by done.
  apply round1_spec_sign; [done|apply Prim2SF_valid].
Qed.

Lemma has_sign_fle_zero b : has_sign false (Prim2SF b) → fle 0 b.
Proof.
  intros S. unfold fle. rewrite FloatAxioms.leb_spec.
  change (Prim2SF 0) with (S754_zero false). by apply SFle_zero_l.
Qed.

Lemma compute_bmi_value (float_of_str : string → option float)
    (weight height : value) (w h : float) :
  to_float float_of_str weight = Ok w → to_float float_of_str height = Ok h →
  compute_bmi float_of_str weight height = Ok (bmi_value w h).
Proof. intros Hw Hh. by rewrite compute_bmi_unfold, Hw, Hh. Qed.

Lemma weight_status_underweight b :
  infer_weight_status_from_bmi (Some b) = Some "Underweight" ↔ flt b 18.5.
Proof.
  unfold infer_weight_status_from_bmi, flt.
  destruct (b <? 18.5)%float; [done|]. by destruct (b <? 25)%float.
Qed.

Lemma weight_status_overweight b :
  infer_weight_status_from_bmi (Some b) = Some "Overweight"
  ↔ (b <? 18.5)%float = false ∧ (b <? 25)%float = false.
Proof.
  unfold infer_weight_status_from_bmi.
  destruct (b <? 18.5)%float; [by split; [|intros [? ?]]|].
  destruct (b <? 25)%float; [by split; [|intros [? ?]]|done].
Qed.

(** X9.  On inputs that convert to doubles, with a weight that is
    positive and finite and a height that is positive, the BMI that
    [compute_bmi] returns does not decrease when the weight grows and the
    height shrinks: whenever both calls return a BMI, the one of the
    heavier and not taller person is not less.  Hence the weight status
    follows: the lighter person is underweight whenever the heavier one
    is, and the heavier one is overweight whenever the lighter one is. *)
Theorem compute_bmi_monotone (float_of_str : string → option float)
    (weight1 height1 weight2 height2 : value) (w1 h1 w2 h2 b1 b2 : float) :
  to_float float_of_str weight1 = Ok w1 → to_float float_of_str height1 = Ok h1 →
  to_float float_of_str weight2 = Ok w2 → to_float float_of_str height2 = Ok h2 →
  flt 0 w1 → fle w1 w2 → flt w2 infinity →
  flt 0 h2 → fle h2 h1 →
  compute_bmi float_of_str weight1 height1 = Ok (Some b1) →
  compute_bmi float_of_str weight2 height2 = Ok (Some b2) →
  fle b1 b2
  ∧ (infer_weight_status_from_bmi (Some b2) = Some "Underweight" →
     infer_weight_status_from_bmi (Some b1) = Some "Underweight")
  ∧ (infer_weight_status_from_bmi (Some b1) = Some "Overweight" →
     infer_weight_status_from_bmi (Some b2) = Some "Overweight").
Proof.
  intros Tw1 Th1 Tw2 Th2 Hw1 Hw Hw2 Hh2 Hh.
  rewrite (compute_bmi_value _ _ _ _ _ Tw1 Th1), (compute_bmi_value _ _ _ _ _ Tw2 Th2).
  intros [= B1] [= B2].
  pose proof (bmi_value_monotone _ _ _ _ _ _ Hw1 Hw Hw2 Hh2 Hh B1 B2) as Hle.
  assert (flt 0 w2 ∧ flt w1 infinity ∧ flt 0 h1) as (Hw2' & Hw1' & Hh1).
  { pose proof (flt_zero_posext _ Hw1) as Pw1.
    pose proof (fle_posext _ _ Pw1 Hw) as Pw2.
    destruct (flt_infinity_finite _ Pw2 Hw2) as (p2 & e2 & Ew2 & _).
    destruct (fle_finite_l _ _ _ _ Pw1 Hw Ew2) as (p1 & e1 & Ew1 & _).
    pose proof (fle_posext _ _ (flt_zero_posext _ Hh2) Hh) as Ph1.
    unfold flt. rewrite !FloatAxioms.ltb_spec, Ew1, Ew2.
    change (Prim2SF 0) with (S754_zero false).
    split; [done|]. split; [done|]. by destruct Ph1. }
  pose proof (bmi_value_sign _ _ _ Hw1 Hw1' Hh1 B1) as S1.
  pose proof (bmi_value_sign _ _ _ Hw2' Hw2 Hh2 B2) as S2.
  assert (Prim2SF 18.5 = S754_finite false 5207287069147136 (-48)) as E18
    by (vm_compute; reflexivity).
  assert (Prim2SF 25 = S754_finite false 7036874417766400 (-48)) as E25
    by (vm_compute; reflexivity).
  split; [done|]. split.
  - rewrite !weight_status_underweight. by apply (fle_flt_trans _ _ _ _ _ S1 S2 E18).
  - rewrite !weight_status_overweight. intros [N18 N25]. split.
    + destruct (b2 <? 18.5)%float eqn:L; [|done].
      pose proof (fle_flt_trans _ _ _ _ _ S1 S2 E18 Hle L) as L'.
      unfold flt in L'. congruence.
    + destruct (b2 <? 25)%float eqn:L; [|done].
      pose proof (fle_flt_trans _ _ _ _ _ S1 S2 E25 Hle L) as L'.
      unfold flt in L'. congruence.
Qed.

Lemma compute_bmi_monotone_witness :
  let b1 := round1 (50 / (180 / 100 * (180 / 100)))%float in
  let b2 := round1 (60 / (170 / 100 * (170 / 100)))%float in
  fle b1 b2
  ∧ (infer_weight_status_from_bmi (Some b2) = Some "Underweight" →
     infer_weight_status_from_bmi (Some b1) = Some "Underweight")
  ∧ (infer_weight_status_from_bmi (Some b1) = Some "Overweight" →
     infer_weight_status_from_bmi (Some b2) = Some "Overweight").
Proof.
  intros b1 b2.
  apply (compute_bmi_monotone (λ _, None) (PyInt 50) (PyInt 180) (PyInt 60) (PyInt 170)
           50%float 180%float 60%float 170%float);
    vm_compute; reflexivity.
Defined.

(** X10.  On inputs that convert to doubles, with a weight that is
    positive and finite and a height that is positive, a BMI that
    [compute_bmi] returns is never negative and never nan. *)
Theorem compute_bmi_not_negative (float_of_str : string → option float)
    (weight height : value) (w h b : float) :
  to_float float_of_str weight = Ok w → to_float float_of_str height = Ok h →
  flt 0 w → flt w infinity → flt 0 h →
  compute_bmi float_of_str weight height = Ok (Some b) →
  fle 0 b ∧ (b =? b)%float = true.
Proof.
  intros Tw Th Hw0 Hw Hh. rewrite (compute_bmi_value _ _ _ _ _ Tw Th). intros [= B].
  pose proof (bmi_value_sign _ _ _ Hw0 Hw Hh B) as S.
  split; [by apply has_sign_fle_zero|].
  rewrite FloatAxioms.eqb_spec.
  destruct (Prim2SF b) as [s|s| |s p e]; simpl in S; subst; try done.
  unfold SFeqb; simpl. by rewrite Z.compare_refl, Pos.compare_cont_refl.
Qed.

Lemma compute_bmi_not_negative_witness :
  let b := round1 (50 / (180 / 100 * (180 / 100)))%float in
  fle 0 b ∧ (b =? b)%float = true.
Proof.
  intros b.
  apply (compute_bmi_not_negative (λ _, None) (PyInt 50) (PyInt 180) 50%float 180%float);
    vm_compute; reflexivity.
Defined.

(* ================================================================== *)
(** * The BMI in weight and in height                                  *)
(* ================================================================== *)

Lemma fle_refl_positive h : flt 0 h → fle h h.
Proof.
  intros Hh. unfold fle. rewrite FloatAxioms.leb_spec.
  by apply SFle_refl_sign, posext_sign, flt_zero_posext.
Qed.

(** C9, as stated, fails for a weight that is not finite: at the height
    1e200 the weight 1e300 gives the BMI 0.0 and the greater weight
    infinity gives nan, which is not greater or equal. *)
Lemma compute_bmi_infinite_weight_counterexample :
  ¬ (∀ (float_of_str : string → option float) (w1 w2 h b1 b2 : float),
       flt 0 w1 → fle w1 w2 → flt 0 h →
       compute_bmi float_of_str (PyFloat w1) (PyFloat h) = Ok (Some b1) →
       compute_bmi float_of_str (PyFloat w2) (PyFloat h) = Ok (Some b2) →
       fle b1 b2).
Proof.
  intros H.
  assert (fle 0 nan) as E.
  { apply (H (λ _, None) 1e300%float infinity 1e200%float); vm_compute; reflexivity. }
  vm_compute in E. discriminate E.
Qed.

(** C9, amended.  On inputs that convert to doubles, with a weight that is
    positive and finite and a height that is positive, the BMI that
    [compute_bmi] returns, rounded to one decimal, does not decrease when
    the weight grows at a fixed height and does not increase when the
    height grows at a fixed weight, whenever both calls return a BMI.  It
    is not strictly monotone: at the height 180 the weights 50 and 50.01
    have the same BMI 15.4. *)
Theorem bmi_monotone_in_weight_and_height
    (float_of_str : string → option float) :
  (∀ weight1 weight2 height w1 w2 h b1 b2,
     to_float float_of_str weight1 = Ok w1 → to_float float_of_str weight2 = Ok w2 →
     to_float float_of_str height = Ok h →
     flt 0 w1 → fle w1 w2 → flt w2 infinity → flt 0 h →
     compute_bmi float_of_str weight1 height = Ok (Some b1) →
     compute_bmi float_of_str weight2 height = Ok (Some b2) →
     fle b1 b2)
  ∧ (∀ weight height1 height2 w h1 h2 b1 b2,
       to_float float_of_str weight = Ok w →
       to_float float_of_str height1 = Ok h1 → to_float float_of_str height2 = Ok h2 →
       flt 0 w → flt w infinity → flt 0 h1 → fle h1 h2 →
       compute_bmi float_of_str weight height1 = Ok (Some b1) →
       compute_bmi float_of_str weight height2 = Ok (Some b2) →
       fle b2 b1)
  ∧ compute_bmi float_of_str (PyFloat 50) (PyInt 180) = Ok (Some 15.4%float)
  ∧ compute_bmi float_of_str (PyFloat 50.01) (PyInt 180) = Ok (Some 15.4%float).
Proof.
  split; [|split; [|split; vm_compute; reflexivity]].
  - intros weight1 weight2 height w1 w2 h b1 b2 Tw1 Tw2 Th Hw1 Hw Hw2 Hh.
    rewrite (compute_bmi_value _ _ _ _ _ Tw1 Th), (compute_bmi_value _ _ _ _ _ Tw2 Th).
    intros [= B1] [= B2].
    exact (bmi_value_monotone _ _ _ _ _ _ Hw1 Hw Hw2 Hh (fle_refl_positive h Hh) B1 B2).
  - intros weight height1 height2 w h1 h2 b1 b2 Tw Th1 Th2 Hw0 Hw Hh1 Hh.
    rewrite (compute_bmi_value _ _ _ _ _ Tw Th1), (compute_bmi_value _ _ _ _ _ Tw Th2).
    intros [= B1] [= B2].
    exact (bmi_value_monotone _ _ _ _ _ _ Hw0 (fle_refl_positive w Hw0) Hw Hh1 Hh B2 B1).
Qed.
